(** * AgentFlow-TS: a shallow embedding of the orchestration core

    The development follows the TypeScript sources:
    - [src/context/tokens.ts]      token estimation            (module [Tokens])
    - [src/agents/context.ts]      conversation context        (modules [Store], [Context])
    - [src/skills/matcher.ts]      skill routing               (module [Matcher])
    - [src/skills/runner.ts]       skill execution             (module [SkillRunner])
    - [src/context/compaction.ts]  conversation compaction     (module [Compaction])
    - [src/agents/runner.ts]       the turn loop               (module [Runner])
    - [src/agents/subagent.ts]     the subagent pool           (module [Pool])

    Conventions.  A [string] is a JavaScript string whose code units are
    all below 256 (the Latin-1 range); case mapping, [trim] and the
    classes [\s], [\w], [\d] are given as the language defines them on
    that range.  Integral JavaScript numbers are [Z] or [nat]; a number
    a caller passes to be compared or clamped is a [JS.Number], finite,
    infinite or [NaN]; where the code divides two integers and the
    quotient need not be exact, the division is done in the kernel's
    binary64 floats, which round as the language does.  [undefined] is
    [None].  A thrown error is given by its message.  Calls into the
    outside world (the provider, the continuation policy, the clock, the
    regular-expression engine) are oracles: section variables or
    explicit arguments. *)

From Stdlib Require Import ZArith QArith Qround Qminmax String Ascii List Bool Lia.
From Stdlib Require Import Sorting.Sorted Sorting.Permutation.
From Stdlib Require PrimFloat FloatOps SpecFloat Uint63.
From stdpp Require Import base option list strings gmap sets.

Set Warnings "-clear-no-such-hyp".

Local Open Scope Z_scope.

(* ===================================================================== *)
(** * Part I.  The embedding *)
(* ===================================================================== *)

(** ** JavaScript string, array and number primitives used by the sources *)

Module JS.

Definition chr (n : nat) : ascii := ascii_of_nat n.
Definition str1 (c : ascii) : string := String c EmptyString.

(** Characters that cannot be written inside a literal. *)
Definition nl : string := str1 (chr 10).
Definition dquote : string := str1 (chr 34).

Definition code (c : ascii) : nat := nat_of_ascii c.
Definition between (lo hi : nat) (c : ascii) : bool :=
  (lo <=? code c)%nat && (code c <=? hi)%nat.

Definition is_upper : ascii -> bool := between 65 90.
Definition is_lower : ascii -> bool := between 97 122.
(** [\d] *)
Definition is_digit : ascii -> bool := between 48 57.
(** [\w] is [[A-Za-z0-9_]] *)
Definition is_word (c : ascii) : bool :=
  is_upper c || is_lower c || is_digit c || (code c =? 95)%nat.
(** [\s], and the white space [trim] removes: below 256 these are TAB,
    LF, VT, FF, CR, the space and the no-break space U+00A0 *)
Definition is_space (c : ascii) : bool :=
  between 9 13 c || (code c =? 32)%nat || (code c =? 160)%nat.

(** The capital letters below 256: [A-Z], and U+00C0 to U+00DE without
    the multiplication sign U+00D7.  Each has its small letter 32 places
    further on, and no other character below 256 changes under
    [toLowerCase]. *)
Definition is_capital (c : ascii) : bool :=
  is_upper c || (between 192 222 c && negb (code c =? 215)%nat).

Definition lower_char (c : ascii) : ascii :=
  if is_capital c then chr (code c + 32) else c.
(** [toUpperCase] on the letters [a-z]; the sources apply it to role
    names only. *)
Definition upper_char (c : ascii) : ascii :=
  if is_lower c then chr (code c - 32) else c.

Fixpoint map_chars (f : ascii -> ascii) (s : string) : string :=
  match s with
  | EmptyString => EmptyString
  | String c r => String (f c) (map_chars f r)
  end.

Definition toLowerCase : string -> string := map_chars lower_char.
Definition toUpperCase : string -> string := map_chars upper_char.

(** [s.length] *)
Definition len (s : string) : Z := Z.of_nat (String.length s).

(** [!s] for a string: only the empty string is falsy. *)
Definition is_empty (s : string) : bool :=
  match s with EmptyString => true | _ => false end.

(** [s.includes(sub)] *)
Fixpoint includes (s sub : string) : bool :=
  String.prefix sub s ||
  match s with
  | EmptyString => false
  | String _ r => includes r sub
  end.

(** [parts.join(sep)] *)
Definition join (sep : string) (parts : list string) : string :=
  String.concat sep parts.

(** [s.slice(0, n)] for [0 <= n] *)
Definition slice0 (n : nat) (s : string) : string := String.substring 0 n s.

(** [s.split(c)] for a one-character separator: always at least one
    piece, empty pieces are kept. *)
Fixpoint split_on (sep : ascii -> bool) (cur s : string) : list string :=
  match s with
  | EmptyString => [cur]
  | String c r =>
      if sep c then cur :: split_on sep EmptyString r
      else split_on sep (String.append cur (str1 c)) r
  end.
Definition split_char (c : ascii) (s : string) : list string :=
  split_on (Ascii.eqb c) EmptyString s.

(** [s.split(/\s+/)]: a maximal run of white space is one separator;
    leading or trailing white space yields an empty first or last piece. *)
Fixpoint split_ws (skipping : bool) (cur s : string) : list string :=
  match s with
  | EmptyString => [cur]
  | String c r =>
      if is_space c then
        if skipping then split_ws true cur r
        else cur :: split_ws true EmptyString r
      else split_ws false (String.append cur (str1 c)) r
  end.
Definition split_spaces (s : string) : list string :=
  split_ws false EmptyString s.

(** [s.trim()] *)
Fixpoint trimStart (s : string) : string :=
  match s with
  | String c r => if is_space c then trimStart r else s
  | EmptyString => EmptyString
  end.
Fixpoint trimEnd (s : string) : string :=
  match s with
  | EmptyString => EmptyString
  | String c r =>
      match trimEnd r with
      | EmptyString => if is_space c then EmptyString else str1 c
      | r' => String c r'
      end
  end.
Definition trim (s : string) : string := trimEnd (trimStart s).

(** [a.slice(start, end)] on arrays, with JavaScript's relative indices:
    a negative index counts from the end, and everything is clamped to
    [0, a.length]. *)
Definition rel_index (n : Z) (i : Z) : Z :=
  if i <? 0 then Z.max (n + i) 0 else Z.min i n.
Definition slice {A} (a : list A) (start : Z) (stop : option Z) : list A :=
  let n := Z.of_nat (length a) in
  let k := rel_index n start in
  let e := match stop with Some e => rel_index n e | None => n end in
  take (Z.to_nat (e - k)) (drop (Z.to_nat k) a).

(** [[...new Set(a)]]: first occurrences, in insertion order. *)
Definition set_add (seen : list string) (x : string) : list string :=
  if bool_decide (x ∈ seen) then seen else seen ++ [x].
Definition dedup (a : list string) : list string :=
  fold_left set_add a [].

(** [Math.ceil(a / b)] for integers [a] and [b], computed in the
    rationals. *)
Definition ceil_ratio (a b : Z) : Z := Qceiling (inject_Z a / inject_Z b).

(** [a.sort(cmp)]: the stable sort of the language standard.  Its result
    is determined by [cmp]; it is computed here by insertion, an element
    staying in front of the later elements it does not compare greater
    than. *)
Fixpoint insert_by {A} (cmp : A -> A -> Z) (x : A) (l : list A) : list A :=
  match l with
  | [] => [x]
  | y :: l' => if cmp x y <=? 0 then x :: y :: l' else y :: insert_by cmp x l'
  end.
Definition sort {A} (cmp : A -> A -> Z) (a : list A) : list A :=
  foldr (insert_by cmp) [] a.

(** [Math.round(x)] for a finite [x]: nearest integer, halves towards
    plus infinity. *)
Definition round (x : Q) : Z := Qfloor (x + (1 # 2)).

(** A value of type [number]: finite, an infinity, or [NaN].  A finite
    value is given by the rational it denotes; comparison, [Math.min]
    and [Math.max] are exact on those. *)
Inductive Number := Num (q : Q) | PosInfinity | NegInfinity | NaN.

(** [Math.max(a, b)] and [Math.min(a, b)]: [NaN] as soon as an argument
    is [NaN]. *)
Definition math_max (a b : Number) : Number :=
  match a, b with
  | NaN, _ | _, NaN => NaN
  | PosInfinity, _ | _, PosInfinity => PosInfinity
  | NegInfinity, x | x, NegInfinity => x
  | Num x, Num y => Num (Qmax x y)
  end.

Definition math_min (a b : Number) : Number :=
  match a, b with
  | NaN, _ | _, NaN => NaN
  | NegInfinity, _ | _, NegInfinity => NegInfinity
  | PosInfinity, x | x, PosInfinity => x
  | Num x, Num y => Num (Qmin x y)
  end.

(** [a > b]: false as soon as an operand is [NaN]. *)
Definition gt (a b : Number) : bool :=
  match a, b with
  | NaN, _ | _, NaN => false
  | _, PosInfinity => false
  | NegInfinity, _ => false
  | PosInfinity, _ => true
  | _, NegInfinity => true
  | Num x, Num y => negb (Qle_bool x y)
  end.

(** [Math.round(x)] *)
Definition math_round (x : Number) : Number :=
  match x with
  | Num q => Num (inject_Z (round q))
  | _ => x
  end.

(** An integer below [2^53] in absolute value as a double: exact. *)
Definition double (z : Z) : PrimFloat.float :=
  if z <? 0 then PrimFloat.opp (PrimFloat.of_uint63 (Uint63.of_Z (- z)))
  else PrimFloat.of_uint63 (Uint63.of_Z z).

(** The number a double denotes. *)
Definition of_double (x : PrimFloat.float) : Number :=
  match FloatOps.Prim2SF x with
  | SpecFloat.S754_zero _ => Num 0%Q
  | SpecFloat.S754_infinity s => if s then NegInfinity else PosInfinity
  | SpecFloat.S754_nan => NaN
  | SpecFloat.S754_finite s m e =>
      let v :=
        if 0 <=? e then inject_Z (Z.pos m * 2 ^ e)
        else Qmake (Z.pos m) (Pos.pow 2 (Z.to_pos (- e))) in
      Num (if s then Qopp v else v)
  end.

(** [(a / b) * 100] on two integers, as the doubles give it: the
    quotient is rounded, and so is the product. *)
Definition percent (a b : Z) : Number :=
  of_double (PrimFloat.mul (PrimFloat.div (double a) (double b)) (double 100)).

End JS.

(** The property names every object inherits from [Object.prototype]: a
    lookup [object[name]] finds them, each a function or an object and so
    truthy, although the object does not list them. *)
Definition Object_prototype_names : list string :=
  [ "constructor"; "toString"; "toLocaleString"; "valueOf"; "hasOwnProperty";
    "isPrototypeOf"; "propertyIsEnumerable"; "__proto__"; "__defineGetter__";
    "__defineSetter__"; "__lookupGetter__"; "__lookupSetter__" ]%string.

(** ** Core types ([src/types/index.ts]) *)

Module Types.

Inductive Role := system | user | assistant.

Record Message := mkMessage { role : Role; content : string }.

Record ChatOptions := mkChatOptions {
  opt_model : option string;
  opt_temperature : option Q;
  opt_maxTokens : option Z
}.

(** What iterating [provider.chat(...)] delivers: the chunks yielded,
    and the error thrown after them when the stream fails. *)
Record ChatStream := mkStream { chunks : list string; failure : option string }.

Definition Provider := list Message -> ChatOptions -> ChatStream.

(** [frontmatter] is left out: none of the functions below reads it. *)
Record Skill := mkSkill {
  name : string;
  description : string;
  trigger : option string;
  template : string
}.

Record ProviderConfig := mkProviderConfig {
  baseUrl : option string;
  apiKey : option string;
  models : option (list string)
}.

(** [defaults] is kept as its one field that is read, [defaults?.subagent];
    [skills] is left out. *)
Record AgentFlowConfig := mkConfig {
  providers : gmap string ProviderConfig;
  default_subagent : option string
}.

Record AgentContext := mkContext {
  messages : list Message;
  taskProgress : JS.Number;
  lastMessage : option string;
  skills : list Skill;
  config : AgentFlowConfig
}.

Record ContinueDecision := mkDecision { continue : bool; reason : string }.

#[export] Instance Role_eq_dec : EqDecision Role.
Proof. solve_decision. Defined.

#[export] Instance Message_eq_dec : EqDecision Message.
Proof. solve_decision. Defined.

Definition role_name (r : Role) : string :=
  match r with
  | system => "system"
  | user => "user"
  | assistant => "assistant"
  end.

Definition is_system (m : Message) : bool := bool_decide (role m = system).
Definition non_system (m : Message) : bool := negb (is_system m).

(** What a run writes to the terminal, in order. *)
Inductive Output :=
| ConsoleLog (line : string)
| StdoutWrite (text : string)
| OnChunk (chunk : string).

End Types.

Import Types.

(** ** Token estimation ([src/context/tokens.ts]) *)

Module Tokens.

Definition CHARS_PER_TOKEN : list (string * Z) :=
  [ ("gpt-4", 4); ("gpt-3.5", 4); ("claude", 4); ("anthropic", 4);
    ("llama", 4); ("mistral", 4); ("mixtral", 4); ("default", 4) ]%string.

Definition CHARS_PER_TOKEN_default : Z := 4.

Definition MODEL_CONTEXT_LIMITS : list (string * Z) :=
  [ ("gpt-4", 8192); ("gpt-4-32k", 32768); ("gpt-4-turbo", 128000);
    ("gpt-4o", 128000); ("gpt-3.5-turbo", 16385);
    ("claude-3-opus", 200000); ("claude-3-sonnet", 200000);
    ("claude-3-haiku", 200000); ("claude-3.5-sonnet", 200000);
    ("llama3.3:70b", 131072); ("llama3.3", 131072); ("llama3.2", 128000);
    ("llama3.1", 128000); ("llama3", 8192); ("llama2", 4096);
    ("codellama", 16384);
    ("mistral", 32768); ("mixtral", 32768); ("mistral-large", 128000);
    ("llama-3.3-70b-versatile", 131072);
    ("llama-3.1-70b-versatile", 131072);
    ("mixtral-8x7b-32768", 32768);
    ("default", 8192) ]%string.

Definition MODEL_CONTEXT_LIMITS_default : Z := 8192.

(** The [for ... of Object.entries(CHARS_PER_TOKEN)] scan with its
    [break]: the ratio of the first family named in the model. *)
Definition charsPerToken (model : string) : Z :=
  let modelLower := JS.toLowerCase model in
  match find (fun e => JS.includes modelLower (fst e)) CHARS_PER_TOKEN with
  | Some e => snd e
  | None => CHARS_PER_TOKEN_default
  end.

(** [0.1] is taken as the rational 1/10.  The two differ, but the
    ceiling does not: in doubles [b * 0.1] is exactly [b / 10] for the
    multiples of ten below [2^31], beyond the token count of the longest
    string an engine holds. *)
Definition estimateTokens (text : string) (model : string) : Z :=
  if JS.is_empty text then 0
  else
    let baseTokens := JS.ceil_ratio (JS.len text) (charsPerToken model) in
    let overhead := Qceiling (inject_Z baseTokens * (1 # 10)) in
    baseTokens + overhead.

Definition estimateMessageTokens (message : Message) (model : string) : Z :=
  let roleOverhead := 4 in
  estimateTokens (content message) model + roleOverhead.

Definition estimateConversationTokens (messages : list Message) (model : string) : Z :=
  fold_left (fun total msg => total + estimateMessageTokens msg model) messages 0 + 3.

(** [table[k]], read on the keys the table lists.  Of the names every
    object inherits two are in lower case, [constructor] and
    [__proto__]: for them the lookup of the code finds a function or an
    object, not a number, and they are outside this model. *)
Definition table_get (t : list (string * Z)) (k : string) : option Z :=
  snd <$> find (fun e => String.eqb (fst e) k) t.

Definition getContextLimit (model : string) : Z :=
  let modelLower := JS.toLowerCase model in
  match table_get MODEL_CONTEXT_LIMITS modelLower with
  | Some limit => limit
  | None =>
      match find (fun e => JS.includes modelLower (fst e) || JS.includes (fst e) modelLower)
                 MODEL_CONTEXT_LIMITS with
      | Some e => snd e
      | None => MODEL_CONTEXT_LIMITS_default
      end
  end.

End Tokens.

(** ** The conversation context ([src/agents/context.ts]) *)

(** *** Value level: the functions as maps between context values *)

Module Context.

Local Open Scope Q_scope.

Definition createAgentContext (config : AgentFlowConfig) (skills : list Skill) : AgentContext :=
  {| messages := []; taskProgress := JS.Num 0; lastMessage := None;
     skills := skills; config := config |}.

Definition addMessage (context : AgentContext) (message : Message) : AgentContext :=
  {| messages := messages context ++ [message];
     taskProgress := taskProgress context;
     lastMessage := Some (content message);
     skills := skills context;
     config := config context |}.

(** [Math.min(100, Math.max(0, progress))] *)
Definition clamp (progress : JS.Number) : JS.Number :=
  JS.math_min (JS.Num 100) (JS.math_max (JS.Num 0) progress).

Definition updateProgress (context : AgentContext) (progress : JS.Number) : AgentContext :=
  {| messages := messages context;
     taskProgress := clamp progress;
     lastMessage := lastMessage context;
     skills := skills context;
     config := config context |}.

Definition estimatedTokensPerChar : Q := 1 # 4.

Definition msgTokens (m : Message) : Q :=
  inject_Z (JS.len (content m)) * estimatedTokensPerChar.

(** The [for (const msg of nonSystemMessages)] loop: [pending] is what
    is left of the reversed array, [included] grows at its front
    ([unshift]); the loop breaks at the first message that would take
    the running total over [maxTokens]. *)
Fixpoint walk (maxTokens : JS.Number) (totalTokens : Q)
    (included pending : list Message) : list Message :=
  match pending with
  | [] => included
  | msg :: pending' =>
      if JS.gt (JS.Num (totalTokens + msgTokens msg)) maxTokens
      then included
      else walk maxTokens (totalTokens + msgTokens msg) (msg :: included) pending'
  end.

Definition getConversationHistory (context : AgentContext) (maxTokens : JS.Number)
  : list Message :=
  let systemMessage := find is_system (messages context) in
  let totalTokens :=
    match systemMessage with Some m => 0 + msgTokens m | None => 0 end in
  let nonSystemMessages := rev (filter (fun m => non_system m) (messages context)) in
  let includedMessages := walk maxTokens totalTokens [] nonSystemMessages in
  match systemMessage with
  | Some m => [m] ++ includedMessages
  | None => includedMessages
  end.

Definition default_maxTokens : JS.Number := JS.Num 8000.

End Context.

(** *** Store level: objects and arrays live at locations

    The same three functions with their allocations and in-place updates
    written out.  A context object holds a reference to its [messages]
    array; [filter] and the spread syntax allocate, while [reverse],
    [unshift] and [push] overwrite the array they are called on. *)

Module Store.

Local Open Scope Q_scope.

Abbreviation loc := positive.

Record ContextObj := mkObj {
  o_messages : loc;
  o_taskProgress : JS.Number;
  o_lastMessage : option string;
  o_skills : list Skill;
  o_config : AgentFlowConfig
}.

Inductive cell :=
| Arr (a : list Message)
| Obj (o : ContextObj).

Abbreviation store := (gmap loc cell).

(** Computations read and write the store; [None] is a [TypeError]
    (a dangling reference or a cell of the wrong kind). *)
Definition M (A : Type) : Type := store -> option (A * store).

#[export] Instance M_ret : MRet M := fun A x σ => Some (x, σ).
#[export] Instance M_bind : MBind M := fun A B f m σ =>
  match m σ with
  | Some (x, σ') => f x σ'
  | None => None
  end.

Definition alloc (c : cell) : M loc := fun σ =>
  let l := fresh (dom σ) in Some (l, <[l := c]> σ).

Definition read_array (l : loc) : M (list Message) := fun σ =>
  match σ !! l with
  | Some (Arr a) => Some (a, σ)
  | _ => None
  end.

Definition write_array (l : loc) (a : list Message) : M unit := fun σ =>
  match σ !! l with
  | Some (Arr _) => Some (tt, <[l := Arr a]> σ)
  | _ => None
  end.

Definition read_object (l : loc) : M ContextObj := fun σ =>
  match σ !! l with
  | Some (Obj o) => Some (o, σ)
  | _ => None
  end.

(** Array methods *)
Definition array_filter (p : Message -> bool) (l : loc) : M loc :=
  a ← read_array l; alloc (Arr (filter (fun m => p m) a)).
Definition array_reverse (l : loc) : M loc :=
  a ← read_array l; _ ← write_array l (rev a); mret l.
Definition array_unshift (l : loc) (m : Message) : M unit :=
  a ← read_array l; write_array l (m :: a).
Definition array_push (l : loc) (ms : list Message) : M unit :=
  a ← read_array l; write_array l (a ++ ms).

(** [{ ...context, messages: [...context.messages, message],
       lastMessage: message.content }] *)
Definition addMessage (context : loc) (message : Message) : M loc :=
  o ← read_object context;
  a ← read_array (o_messages o);
  a' ← alloc (Arr (a ++ [message]));
  alloc (Obj {| o_messages := a';
                o_taskProgress := o_taskProgress o;
                o_lastMessage := Some (content message);
                o_skills := o_skills o;
                o_config := o_config o |}).

(** [{ ...context, taskProgress: Math.min(100, Math.max(0, progress)) }]:
    the new object shares the [messages] array of the old one. *)
Definition updateProgress (context : loc) (progress : JS.Number) : M loc :=
  o ← read_object context;
  alloc (Obj {| o_messages := o_messages o;
                o_taskProgress := Context.clamp progress;
                o_lastMessage := o_lastMessage o;
                o_skills := o_skills o;
                o_config := o_config o |}).

Fixpoint walk (included : loc) (maxTokens : JS.Number) (totalTokens : Q)
    (pending : list Message) : M unit :=
  match pending with
  | [] => mret tt
  | msg :: pending' =>
      if JS.gt (JS.Num (totalTokens + Context.msgTokens msg)) maxTokens
      then mret tt
      else _ ← array_unshift included msg;
           walk included maxTokens (totalTokens + Context.msgTokens msg) pending'
  end.

Definition getConversationHistory (context : loc) (maxTokens : JS.Number) : M loc :=
  o ← read_object context;
  result ← alloc (Arr []);
  msgs ← read_array (o_messages o);
  let systemMessage := find is_system msgs in
  let totalTokens :=
    match systemMessage with Some m => 0 + Context.msgTokens m | None => 0 end in
  filtered ← array_filter non_system (o_messages o);
  nonSystemMessages ← array_reverse filtered;
  includedMessages ← alloc (Arr []);
  pending ← read_array nonSystemMessages;
  _ ← walk includedMessages maxTokens totalTokens pending;
  _ ← match systemMessage with
      | Some m => array_push result [m]
      | None => mret tt
      end;
  included ← read_array includedMessages;
  _ ← array_push result included;
  mret result.

(** The context value an object denotes in a store. *)
Definition value_of (σ : store) (l : loc) : option AgentContext :=
  match σ !! l with
  | Some (Obj o) =>
      match σ !! o_messages o with
      | Some (Arr a) =>
          Some {| messages := a;
                  taskProgress := o_taskProgress o;
                  lastMessage := o_lastMessage o;
                  skills := o_skills o;
                  config := o_config o |}
      | _ => None
      end
  | _ => None
  end.

End Store.

(** ** Skill routing ([src/skills/matcher.ts]) *)

Module Matcher.

Local Open Scope string_scope.

Record MatchResult := mkMatch { skill : Skill; score : Z; reason : string }.

Definition stopWords : list string :=
  [ "the"; "a"; "an"; "and"; "or"; "but"; "in"; "on"; "at"; "to"; "for";
    "of"; "with"; "by"; "from"; "as"; "is"; "was"; "are"; "were"; "been";
    "be"; "have"; "has"; "had"; "do"; "does"; "did"; "will"; "would";
    "could"; "should"; "may"; "might"; "must"; "can"; "this"; "that";
    "these"; "those"; "i"; "you"; "he"; "she"; "it"; "we"; "they" ].

(** [.replace(/[^\w\s]/g, ' ')] *)
Definition blank_punctuation (s : string) : string :=
  JS.map_chars (fun c => if JS.is_word c || JS.is_space c then c else " "%char) s.

Definition extractKeywords (text : string) : list string :=
  filter (fun word => (2 <? JS.len word)%Z && negb (bool_decide (word ∈ stopWords)))
         (JS.split_spaces (blank_punctuation (JS.toLowerCase text))).

Section WithRegExp.

(** [new RegExp(pattern, 'i')]: the message of the [SyntaxError] it
    throws for a pattern that is no regular expression, or else the
    expression it builds, given by its [test] method (there is no [g]
    flag, so [test] keeps no state). *)
Variable RegExp_i : string -> string + (string -> bool).

(** The body of the [for (const skill of skills)] loop up to the
    [push]: [score] and [reason] start at [0] and [''] and are
    assigned by at most one of three guarded blocks; the first block
    throws when the trigger is no regular expression. *)
Definition rate (input : string) (skill : Skill) : string + (Z * string) :=
  let inputLower := JS.toLowerCase input in
  let st0 : Z * string := (0, EmptyString) in
  let after_trigger : string + (Z * string) :=
    match trigger skill with
    | Some pattern =>
        if JS.is_empty pattern then inr st0
        else
          match RegExp_i pattern with
          | inl error => inl error
          | inr triggerRegex =>
              inr (if triggerRegex input then (100, "Trigger pattern matched") else st0)
          end
    | None => inr st0
    end in
  match after_trigger with
  | inl error => inl error
  | inr st1 =>
      let st2 :=
        if (fst st1 =? 0)%Z && JS.includes inputLower (JS.toLowerCase (name skill))
        then (80, "Skill name found in input")
        else st1 in
      let st3 :=
        if (fst st2 =? 0)%Z then
          let descKeywords := extractKeywords (description skill) in
          let inputKeywords := extractKeywords input in
          let matchedKeywords :=
            filter (fun k => bool_decide (k ∈ inputKeywords)) descKeywords in
          if (0 <? Z.of_nat (length matchedKeywords))%Z
          then (Z.min 60 (Z.of_nat (length matchedKeywords) * 15),
                "Matched keywords: " +:+ JS.join ", " matchedKeywords)
          else st2
        else st2 in
      inr st3
  end.

(** The loop: an iteration that throws ends it, and [results] is lost. *)
Fixpoint collect (input : string) (skills : list Skill) (results : list MatchResult)
  : string + list MatchResult :=
  match skills with
  | [] => inr results
  | skill :: skills' =>
      match rate input skill with
      | inl error => inl error
      | inr (score, reason) =>
          collect input skills'
            (if (0 <? score)%Z
             then (results ++ [ {| skill := skill; score := score; reason := reason |} ])%list
             else results)
      end
  end.

Definition matchSkills (input : string) (skills : list Skill) : string + list MatchResult :=
  match collect input skills [] with
  | inl error => inl error
  | inr results => inr (JS.sort (fun a b => score b - score a) results)
  end.

Definition findBestSkill (input : string) (skills : list Skill) : string + option Skill :=
  match matchSkills input skills with
  | inl error => inl error
  | inr matches =>
      inr (match matches with
           | m :: _ => Some (skill m)
           | [] => None
           end)
  end.

End WithRegExp.

End Matcher.

(** ** Skill execution ([src/skills/runner.ts]) *)

Module SkillRunner.

Local Open Scope string_scope.

(** The longest run of [\w] characters in front of [s], and what follows. *)
Fixpoint span_word (s : string) : string * string :=
  match s with
  | String c r =>
      if JS.is_word c
      then let '(w, rest) := span_word r in (String c w, rest)
      else (EmptyString, s)
  | EmptyString => (EmptyString, EmptyString)
  end.

(** A match of [/\{\{(\w+)\}\}/] at the front of [s]: the captured name
    and the text after the match. *)
Definition match_placeholder (s : string) : option (string * string) :=
  match s with
  | String "{"%char (String "{"%char r) =>
      let '(w, rest) := span_word r in
      if JS.is_empty w then None
      else match rest with
           | String "}"%char (String "}"%char rest') => Some (w, rest')
           | _ => None
           end
  | _ => None
  end.

(** [s.replace(/\{\{(\w+)\}\}/g, (_, name) => f(name))], scanning from
    the left; every step consumes a character, so [S (length s)] steps
    are enough. *)
Fixpoint replace_placeholders (steps : nat) (f : string -> string) (s : string) : string :=
  match steps with
  | O => s
  | S steps' =>
      match match_placeholder s with
      | Some (w, rest) => f w +:+ replace_placeholders steps' f rest
      | None =>
          match s with
          | EmptyString => EmptyString
          | String c r => String c (replace_placeholders steps' f r)
          end
      end
  end.

(** [vars[name] || `{{${name}}}`], for the names [vars] lists; a name
    every object inherits that [vars] does not list is outside this
    model (the code inserts the text of the inherited member). *)
Definition interpolateTemplate (template : string) (vars : gmap string string) : string :=
  replace_placeholders (S (String.length template))
    (fun w => match vars !! w with
              | Some v => if JS.is_empty v then "{{" +:+ w +:+ "}}" else v
              | None => "{{" +:+ w +:+ "}}"
              end)
    template.

(** [`You are executing the "${skill.name}" skill. ...`] *)
Definition skill_system_prompt (skill : Skill) : string :=
  "You are executing the " +:+ JS.dquote +:+ name skill +:+ JS.dquote
    +:+ " skill. Follow the instructions precisely.".

(** [runSkill]: what it writes, and either the error it throws or the
    [output] of its result (the [duration] field, a difference of two
    clock readings, is read by no caller here). *)
Definition runSkill (skill : Skill) (input : string) (provider : Provider)
    (model : string) (context : gmap string string)
  : list Output * (string + string) :=
  let prompt := interpolateTemplate (template skill) (context ∪ {[ "input" := input ]}) in
  let messages :=
    [ {| role := system; content := skill_system_prompt skill |};
      {| role := user; content := prompt |} ] in
  let generator := provider messages (mkChatOptions (Some model) None None) in
  let output := JS.join EmptyString (chunks generator) in
  let written := StdoutWrite <$> chunks generator in
  match failure generator with
  | Some e => (written, inl e)
  | None => ((written ++ [ConsoleLog EmptyString])%list, inr output)
  end.

End SkillRunner.

(** ** Conversation compaction ([src/context/compaction.ts]) *)

Module Compaction.

Local Open Scope string_scope.

Record CompactionOptions := mkOptions {
  focus : option string;
  targetTokens : option Z;
  keepRecent : option Z;
  provider : option Provider;
  model : option string
}.

Record CompactionResult := mkResult {
  messages : list Message;
  originalTokens : Z;
  compactedTokens : Z;
  savedTokens : Z;
  savedPercentage : JS.Number;
  summary : option string
}.

(** [x || fallback] on an optional string: [undefined] and [''] are falsy. *)
Definition or_string (x : option string) (fallback : string) : string :=
  match x with
  | Some s => if JS.is_empty s then fallback else s
  | None => fallback
  end.

(** [x || fallback] on an optional number: [undefined] and [0] are falsy. *)
Definition or_number (x : option Z) (fallback : Z) : Z :=
  match x with
  | Some n => if (n =? 0)%Z then fallback else n
  | None => fallback
  end.

(** A truthy optional string. *)
Definition given (x : option string) : option string :=
  match x with
  | Some s => if JS.is_empty s then None else Some s
  | None => None
  end.

(** [content.split(/[.!?]/)[0]] *)
Definition is_sentence_end (c : ascii) : bool :=
  Ascii.eqb c "."%char || Ascii.eqb c "!"%char || Ascii.eqb c "?"%char.
Definition first_sentence (s : string) : string :=
  hd EmptyString (JS.split_on is_sentence_end EmptyString s).

(** [line.match(/^[\-\*\d]/)] *)
Definition starts_like_item (line : string) : bool :=
  match line with
  | String c _ => Ascii.eqb c "-"%char || Ascii.eqb c "*"%char || JS.is_digit c
  | EmptyString => false
  end.

(** One iteration of the [for (const msg of messages)] loop of
    [createLocalSummary], on the pair [(userQuestions, assistantPoints)]. *)
Definition note (acc : list string * list string) (msg : Message)
  : list string * list string :=
  let '(userQuestions, assistantPoints) := acc in
  let content := JS.trim (content msg) in
  match role msg with
  | user =>
      let firstSentence := first_sentence content in
      if (10 <? JS.len firstSentence)%Z
      then ((userQuestions ++ [JS.slice0 100 firstSentence])%list, assistantPoints)
      else acc
  | assistant =>
      let lines := JS.split_char (JS.chr 10) content in
      let points :=
        JS.slice0 80 <$>
          filter (fun line => starts_like_item line || JS.includes line ":")
                 (JS.slice lines 0 (Some 3%Z)) in
      (userQuestions, (assistantPoints ++ points)%list)
  | system => acc
  end.

Definition createLocalSummary (messages : list Message) (focus : option string) : string :=
  let '(userQuestions, assistantPoints) := fold_left note messages ([], []) in
  let userQuestions := JS.slice (JS.dedup userQuestions) 0 (Some 5%Z) in
  let assistantPoints := JS.slice (JS.dedup assistantPoints) 0 (Some 5%Z) in
  let part1 :=
    if (0 <? Z.of_nat (length userQuestions))%Z
    then ["Topics discussed: " +:+ JS.join "; " userQuestions] else [] in
  let part2 :=
    if (0 <? Z.of_nat (length assistantPoints))%Z
    then ["Key points: " +:+ JS.join "; " assistantPoints] else [] in
  let part3 :=
    match given focus with
    | Some f => ["Current focus: " +:+ f]
    | None => []
    end in
  let joined := JS.join JS.nl (part1 ++ part2 ++ part3)%list in
  if JS.is_empty joined then "Previous conversation context." else joined.

(** [Math.round((savedTokens / originalTokens) * 100)] *)
Definition percentage (savedTokens originalTokens : Z) : JS.Number :=
  JS.math_round (JS.percent savedTokens originalTokens).

Definition default_keepRecent : Z := 4.

Definition simpleCompact (messages : list Message) (options : CompactionOptions)
  : CompactionResult :=
  let keepRecent := default default_keepRecent (keepRecent options) in
  let model := or_string (model options) "default" in
  let originalTokens := Tokens.estimateConversationTokens messages model in
  let contextLimit := Tokens.getContextLimit model in
  let target := or_number (targetTokens options) (contextLimit / 2)%Z in
  if (originalTokens <=? target)%Z then
    {| messages := messages;
       originalTokens := originalTokens;
       compactedTokens := originalTokens;
       savedTokens := 0;
       savedPercentage := JS.Num 0%Q;
       summary := None |}
  else
    let systemMessage := find is_system messages in
    let nonSystemMessages := filter (fun m => non_system m) messages in
    let recentMessages := JS.slice nonSystemMessages (- keepRecent) None in
    let oldMessages := JS.slice nonSystemMessages 0 (Some (- keepRecent)%Z) in
    let summaryContent :=
      if (0 <? Z.of_nat (length oldMessages))%Z
      then createLocalSummary oldMessages (focus options)
      else EmptyString in
    let compactedMessages :=
      (match systemMessage with Some m => [m] | None => [] end
       ++ (if JS.is_empty summaryContent then []
           else [ {| role := system;
                     content := "[Previous conversation summary]:" +:+ JS.nl
                                  +:+ summaryContent |} ])
       ++ recentMessages)%list in
    let compactedTokens := Tokens.estimateConversationTokens compactedMessages model in
    let savedTokens := (originalTokens - compactedTokens)%Z in
    {| messages := compactedMessages;
       originalTokens := originalTokens;
       compactedTokens := compactedTokens;
       savedTokens := savedTokens;
       savedPercentage := percentage savedTokens originalTokens;
       summary := Some summaryContent |}.

(** [`${m.role.toUpperCase()}: ${m.content}`] *)
Definition transcript_line (m : Message) : string :=
  JS.toUpperCase (role_name (role m)) +:+ ": " +:+ content m.

Definition summarization_prompt (conversationText : string) (focus : option string) : string :=
  let prompt :=
    "Summarize this conversation concisely, preserving key information, decisions, and context needed for continuation:"
    +:+ JS.nl +:+ JS.nl +:+ conversationText +:+ JS.nl +:+ JS.nl
    +:+ "Create a brief summary (max 200 words) that captures:" +:+ JS.nl
    +:+ "- Main topics discussed" +:+ JS.nl
    +:+ "- Key decisions or conclusions" +:+ JS.nl
    +:+ "- Important context for future messages" in
  match given focus with
  | Some f =>
      prompt +:+ JS.nl +:+ JS.nl
        +:+ "Focus particularly on information related to: " +:+ f
  | None => prompt
  end.

Definition llmCompact (messages : list Message) (options : CompactionOptions)
  : CompactionResult :=
  match provider options, given (model options) with
  | Some provider, Some model =>
      let keepRecent := default default_keepRecent (keepRecent options) in
      let originalTokens := Tokens.estimateConversationTokens messages model in
      let systemMessage := find is_system messages in
      let nonSystemMessages := filter (fun m => non_system m) messages in
      let recentMessages := JS.slice nonSystemMessages (- keepRecent) None in
      let oldMessages := JS.slice nonSystemMessages 0 (Some (- keepRecent)%Z) in
      if (Z.of_nat (length oldMessages) =? 0)%Z then simpleCompact messages options
      else
        let conversationText :=
          JS.join (JS.nl +:+ JS.nl) (transcript_line <$> oldMessages) in
        let prompt := summarization_prompt conversationText (focus options) in
        let summaryMessages := [ {| role := user; content := prompt |} ] in
        let stream :=
          provider summaryMessages (mkChatOptions (Some model) (Some (3 # 10)%Q) (Some 500%Z)) in
        let summary :=
          match failure stream with
          | None => JS.join EmptyString (chunks stream)
          | Some _ => createLocalSummary oldMessages (focus options)
          end in
        let compactedMessages :=
          (match systemMessage with Some m => [m] | None => [] end
           ++ [ {| role := system;
                   content := "[Conversation Summary]:" +:+ JS.nl +:+ summary |} ]
           ++ recentMessages)%list in
        let compactedTokens := Tokens.estimateConversationTokens compactedMessages model in
        let savedTokens := (originalTokens - compactedTokens)%Z in
        {| messages := compactedMessages;
           originalTokens := originalTokens;
           compactedTokens := compactedTokens;
           savedTokens := savedTokens;
           savedPercentage := percentage savedTokens originalTokens;
           summary := Some summary |}
  | _, _ => simpleCompact messages options
  end.

End Compaction.

(** ** The turn loop ([src/agents/runner.ts]) *)

Module Runner.

Local Open Scope string_scope.

Record AgentRunnerOptions := mkRunnerOptions {
  (** the provider as it answers during turn [k] *)
  provider : nat -> Provider;
  model : string;
  systemPrompt : option string;
  (** a natural number, as every caller passes: a fraction, a negative
      number, [NaN] or [Infinity] is outside the model *)
  maxTurns : option nat;
  (** what the [onChunk] callback does with a chunk; [None] is the
      default, [process.stdout.write] *)
  onChunk : option (string -> list Output);
  (** the continuation policy as it answers after turn [k]: a thrown
      error or a decision *)
  shouldContinue : option (nat -> AgentContext -> string + ContinueDecision)
}.

(** A finished run: the error thrown or the context returned, the value
    of [turnCount] at that point, and everything written. *)
Record Run := mkRun {
  outcome : string + AgentContext;
  turns : nat;
  output : list Output
}.

Definition default_maxTurns : nat := 10.

(** [while (stopWindow.length > 0 && stopWindow[0] < fiveMinAgo) stopWindow.shift()] *)
Fixpoint shift_older (fiveMinAgo : Z) (stopWindow : list Z) : list Z :=
  match stopWindow with
  | t :: rest => if (t <? fiveMinAgo)%Z then shift_older fiveMinAgo rest else stopWindow
  | [] => []
  end.

Section WithWorld.

Variable RegExp_i : string -> string + (string -> bool).
(** [Date.now()] as read after turn [k] *)
Variable clock : nat -> Z.

Variable initialPrompt : string.
Variable options : AgentRunnerOptions.

Definition turn_limit : nat := default default_maxTurns (maxTurns options).

Definition emit (chunk : string) : list Output :=
  match onChunk options with
  | Some callback => callback chunk
  | None => [StdoutWrite chunk]
  end.

(** The branch of a turn that runs the best skill. *)
Definition skill_turn (turnCount : nat) (context : AgentContext) (bestSkill : Skill)
  : list Output * (string + AgentContext) :=
  let input := Compaction.or_string (lastMessage context) initialPrompt in
  let announce :=
    ConsoleLog (JS.nl +:+ "[Executing skill: " +:+ name bestSkill +:+ "]" +:+ JS.nl) in
  let '(written, result) :=
    SkillRunner.runSkill bestSkill input (provider options turnCount) (model options) ∅ in
  match result with
  | inl e => (announce :: written, inl e)
  | inr output =>
      (announce :: written,
       inr (Context.addMessage context {| role := assistant; content := output |}))
  end.

(** The branch of a turn that is a regular chat completion. *)
Definition chat_turn (turnCount : nat) (context : AgentContext)
  : list Output * (string + AgentContext) :=
  let messages := Context.getConversationHistory context Context.default_maxTokens in
  let generator :=
    provider options turnCount messages (mkChatOptions (Some (model options)) None None) in
  let response := JS.join EmptyString (chunks generator) in
  let streamed := concat (emit <$> chunks generator) in
  match failure generator with
  | Some e => (streamed, inl e)
  | None =>
      ((streamed ++ emit JS.nl)%list,
       inr (Context.addMessage context {| role := assistant; content := response |}))
  end.

(** The body of the loop up to [updateProgress]: [matchSkills] may
    throw before anything is written. *)
Definition turn (turnCount : nat) (context : AgentContext)
  : list Output * (string + AgentContext) :=
  match Matcher.matchSkills RegExp_i
          (Compaction.or_string (lastMessage context) initialPrompt) (skills context) with
  | inl error => ([], inl error)
  | inr skillMatches =>
      match skillMatches with
      | m :: _ =>
          if (80 <=? Matcher.score m)%Z
          then skill_turn turnCount context (Matcher.skill m)
          else chat_turn turnCount context
      | [] => chat_turn turnCount context
      end
  end.

(** [(turnCount / maxTurns) * 100], in doubles. *)
Definition progress_of (turnCount : nat) : JS.Number :=
  JS.percent (Z.of_nat turnCount) (Z.of_nat turn_limit).

(** The [while (turnCount < maxTurns)] loop.  [fuel] bounds the number
    of iterations the model may unfold; [None] means it ran out. *)
Fixpoint loop (fuel : nat) (turnCount : nat) (context : AgentContext)
    (stopWindow : list Z) (out : list Output) : option Run :=
  if (turnCount <? turn_limit)%nat then
    match fuel with
    | O => None
    | S fuel' =>
        let turnCount := S turnCount in
        let '(written, result) := turn turnCount context in
        let out := (out ++ written)%list in
        match result with
        | inl e => Some {| outcome := inl e; turns := turnCount; output := out |}
        | inr context =>
            let context := Context.updateProgress context (progress_of turnCount) in
            match shouldContinue options with
            | Some policy =>
                match policy turnCount context with
                | inl e => Some {| outcome := inl e; turns := turnCount; output := out |}
                | inr decision =>
                    if negb (continue decision) then
                      let now := clock turnCount in
                      let stopWindow := (stopWindow ++ [now])%list in
                      let fiveMinAgo := (now - 5 * 60 * 1000)%Z in
                      let stopWindow := shift_older fiveMinAgo stopWindow in
                      if (3 <=? length stopWindow)%nat then
                        Some {| outcome := inr context; turns := turnCount;
                                output := (out ++ [ConsoleLog
                                  (JS.nl +:+ "[Circuit breaker: too many stops in 5 minutes]")])%list |}
                      else
                        Some {| outcome := inr context; turns := turnCount;
                                output := (out ++ [ConsoleLog
                                  (JS.nl +:+ "[Stopping: " +:+ reason decision +:+ "]")])%list |}
                    else loop fuel' turnCount context stopWindow out
                end
            | None => Some {| outcome := inr context; turns := turnCount; output := out |}
            end
        end
    end
  else Some {| outcome := inr context; turns := turnCount; output := out |}.

Definition initial_context (context : AgentContext) : AgentContext :=
  let context :=
    match Compaction.given (systemPrompt options) with
    | Some p => Context.addMessage context {| role := system; content := p |}
    | None => context
    end in
  Context.addMessage context {| role := user; content := initialPrompt |}.

Definition runAgent_fuel (fuel : nat) (context : AgentContext) : option Run :=
  loop fuel 0 (initial_context context) [] [].

(** The loop body is entered at most [maxTurns] times, so that much
    fuel is always enough ([Runner_loop_total] below). *)
Definition runAgent (context : AgentContext) : option Run :=
  runAgent_fuel turn_limit context.

End WithWorld.

End Runner.

(** ** Provider construction ([src/providers/index.ts]) *)

Module Providers.

Local Open Scope string_scope.

(** A constructed provider object: which class, with which settings. *)
Record Handle := mkHandle { kind : string; settings : ProviderConfig }.

Definition known : list string :=
  [ "ollama"; "groq"; "together"; "openai"; "anthropic" ].

Definition createProvider (name : string) (config : ProviderConfig) : string + Handle :=
  if bool_decide (name ∈ known)
  then inr {| kind := name; settings := config |}
  else inl ("Unknown provider: " +:+ name).

Definition parseModelString (modelString : string) : string + (string * string) :=
  let parts := JS.split_char "/"%char modelString in
  if (2 <=? length parts)%nat
  then inr (hd EmptyString parts, JS.join "/" (JS.slice parts 1 None))
  else inl ("Invalid model string: " +:+ modelString
              +:+ ". Expected format: provider/model").

End Providers.

(** ** The subagent pool ([src/agents/subagent.ts]) *)

Module Pool.

Local Open Scope string_scope.

Inductive Status := Pending | Running | Completed | Failed.

Record SubagentTask := mkTask {
  id : string;
  prompt : string;
  model : option string;
  status : Status;
  result : option string;
  error : option string
}.

(** [tasks] is a [Map]: keys are unique and iteration follows insertion
    order.  [running] is a [Set]. *)
Record SubagentPool := mkPool {
  tasks : list (string * SubagentTask);
  running : gset string;
  maxConcurrent : nat;
  defaultModel : string;
  config : AgentFlowConfig
}.

#[global] Instance Status_eq_dec : EqDecision Status.
Proof. solve_decision. Defined.

(** *** [Map] operations *)

Fixpoint map_get {V} (m : list (string * V)) (k : string) : option V :=
  match m with
  | [] => None
  | (k', v) :: m' => if String.eqb k' k then Some v else map_get m' k
  end.

(** [m.set(k, v)]: overwrite in place, or append a new entry. *)
Fixpoint map_set {V} (m : list (string * V)) (k : string) (v : V) : list (string * V) :=
  match m with
  | [] => [(k, v)]
  | (k', v') :: m' =>
      if String.eqb k' k then (k', v) :: m' else (k', v') :: map_set m' k v
  end.

(** An assignment to fields of the object stored under [k]. *)
Fixpoint map_update {V} (f : V -> V) (m : list (string * V)) (k : string) : list (string * V) :=
  match m with
  | [] => []
  | (k', v) :: m' =>
      if String.eqb k' k then (k', f v) :: m' else (k', v) :: map_update f m' k
  end.

Definition map_keys {V} (m : list (string * V)) : list string := fst <$> m.

(** *** Construction *)

Definition default_maxConcurrent : nat := 3.

(** [options.maxConcurrent || 3] and
    [options.defaultModel || options.config.defaults?.subagent || 'ollama/llama3.3:70b'] *)
Definition create (maxConcurrent : option nat) (defaultModel : option string)
    (config : AgentFlowConfig) : SubagentPool :=
  {| tasks := [];
     running := ∅;
     maxConcurrent :=
       match maxConcurrent with
       | Some (S n) => S n
       | _ => default_maxConcurrent
       end;
     defaultModel :=
       Compaction.or_string defaultModel
         (Compaction.or_string (default_subagent config) "ollama/llama3.3:70b");
     config := config |}.

(** *** State changes of [runTask] *)

Definition with_tasks (p : SubagentPool) (ts : list (string * SubagentTask)) : SubagentPool :=
  {| tasks := ts; running := running p; maxConcurrent := maxConcurrent p;
     defaultModel := defaultModel p; config := config p |}.

Definition with_running (p : SubagentPool) (r : gset string) : SubagentPool :=
  {| tasks := tasks p; running := r; maxConcurrent := maxConcurrent p;
     defaultModel := defaultModel p; config := config p |}.

Definition set_status (s : Status) (t : SubagentTask) : SubagentTask :=
  {| id := id t; prompt := prompt t; model := model t; status := s;
     result := result t; error := error t |}.
Definition set_result (r : option string) (t : SubagentTask) : SubagentTask :=
  {| id := id t; prompt := prompt t; model := model t; status := status t;
     result := r; error := error t |}.
Definition set_error (e : string) (t : SubagentTask) : SubagentTask :=
  {| id := id t; prompt := prompt t; model := model t; status := status t;
     result := result t; error := Some e |}.

(** [task.status = 'running'; this.running.add(taskId)] *)
Definition begin (p : SubagentPool) (taskId : string) : SubagentPool :=
  with_running (with_tasks p (map_update (set_status Running) (tasks p) taskId))
               ({[ taskId ]} ∪ running p).

(** [task.result = finalContext.lastMessage; task.status = 'completed'] *)
Definition complete (p : SubagentPool) (taskId : string) (last : option string) : SubagentPool :=
  with_tasks p (map_update (fun t => set_status Completed (set_result last t)) (tasks p) taskId).

(** The [catch] block: [task.error = ...; task.status = 'failed'] *)
Definition fail (p : SubagentPool) (taskId : string) (e : string) : SubagentPool :=
  with_tasks p (map_update (fun t => set_status Failed (set_error e t)) (tasks p) taskId).

(** [this.running.delete(taskId)] *)
Definition release (p : SubagentPool) (taskId : string) : SubagentPool :=
  with_running p (running p ∖ {[ taskId ]}).

(** The part of the [try] block in front of its first [await]: it runs
    inside the call of [runTask] and either throws or leaves a provider
    and a model name for the rest of the block. *)
Definition start (config : AgentFlowConfig) (task : SubagentTask)
  : string + (Providers.Handle * string) :=
  match model task with
  | None => inl "Cannot read properties of undefined (reading 'split')"
  | Some modelString =>
      match Providers.parseModelString modelString with
      | inl e => inl e
      | inr (providerName, model) =>
          match providers config !! providerName with
          | Some providerConfig =>
              match Providers.createProvider providerName providerConfig with
              | inl e => inl e
              | inr provider => inr (provider, model)
              end
          | None =>
              (* [this.config.providers[providerName]] is an inherited member for
                 the names every object has: truthy, it goes to [createProvider],
                 which knows no provider of that name *)
              if bool_decide (providerName ∈ Object_prototype_names)
              then inl ("Unknown provider: " +:+ providerName)
              else inl ("Provider " +:+ providerName +:+ " not configured")
          end
      end
  end.

Definition is_pending (t : SubagentTask) : bool := bool_decide (status t = Pending).
Definition is_terminal (t : SubagentTask) : bool :=
  bool_decide (status t = Completed) || bool_decide (status t = Failed).

Definition full (p : SubagentPool) : bool := (maxConcurrent p <=? size (running p))%nat.

(** *** [runTask] up to its first [await], and [processQueue]

    [runTask] is called without [await]: its body runs inside the call
    until it suspends at [await loadAllSkills()], or, when [start]
    throws, through [catch] and [finally], which calls [processQueue],
    which calls [runTask].  [fuel] bounds the depth of that nesting. *)

(** The [for (const [taskId, task] of this.tasks)] loop over the keys
    still to visit; the entry is read when it is visited. *)
Fixpoint drain (run : SubagentPool -> string -> option SubagentPool)
    (keys : list string) (p : SubagentPool) : option SubagentPool :=
  match keys with
  | [] => Some p
  | taskId :: keys' =>
      match map_get (tasks p) taskId with
      | Some task =>
          if is_pending task then
            match run p taskId with
            | Some p' => if full p' then Some p' else drain run keys' p'
            | None => None
            end
          else drain run keys' p
      | None => drain run keys' p
      end
  end.

Definition processQueue_with (run : SubagentPool -> string -> option SubagentPool)
    (p : SubagentPool) : option SubagentPool :=
  if full p then Some p else drain run (map_keys (tasks p)) p.

Fixpoint runTask (fuel : nat) (p : SubagentPool) (taskId : string) : option SubagentPool :=
  match fuel with
  | O => None
  | S fuel' =>
      match map_get (tasks p) taskId with
      | None => Some p
      | Some task =>
          let p := begin p taskId in
          match start (config p) task with
          | inl e => processQueue_with (runTask fuel') (release (fail p taskId e) taskId)
          | inr _ => Some p
          end
      end
  end.

Definition processQueue (fuel : nat) (p : SubagentPool) : option SubagentPool :=
  processQueue_with (runTask fuel) p.

(** Every nested [runTask] takes a task out of [Pending], so one more
    than the number of entries is enough fuel ([runTask_ok_all]). *)
Definition enough (p : SubagentPool) : nat := S (length (tasks p)).

(** [spawn]; [taskId] is the value of [crypto.randomUUID()]. *)
Definition spawn (p : SubagentPool) (taskId : string) (prompt : string)
    (model : option string) : option (string * SubagentPool) :=
  let taskModel := Compaction.or_string model (defaultModel p) in
  let task :=
    {| id := taskId; prompt := prompt; model := Some taskModel;
       status := Pending; result := None; error := None |} in
  let p := with_tasks p (map_set (tasks p) taskId task) in
  if (size (running p) <? maxConcurrent p)%nat
  then p' ← runTask (enough p) p taskId; Some (taskId, p')
  else Some (taskId, p).

(** [runTask] from the point where its awaited work is over: the work
    either threw [inl e] or produced [finalContext.lastMessage]. *)
Definition settle (p : SubagentPool) (taskId : string) (work : string + option string)
  : option SubagentPool :=
  let p :=
    match work with
    | inr last => complete p taskId last
    | inl e => fail p taskId e
    end in
  processQueue (enough p) (release p taskId).

Definition getTask (p : SubagentPool) (taskId : string) : option SubagentTask :=
  map_get (tasks p) taskId.

Definition getAllTasks (p : SubagentPool) : list SubagentTask := snd <$> tasks p.

Definition getRunningCount (p : SubagentPool) : nat := size (running p).

Definition getPendingCount (p : SubagentPool) : nat :=
  length (filter (fun t => is_pending t) (getAllTasks p)).

(** *** The awaited work of [runTask]

    [loadAllSkills()], then [runAgent] on a fresh context with
    [maxTurns: 5], a silent [onChunk] and no continuation policy; the
    task keeps [finalContext.lastMessage]. *)

Definition subagent_system_prompt : string :=
  "You are a focused subagent. Complete the assigned task efficiently and concisely.".

Section WithWorld.

Variable RegExp_i : string -> string + (string -> bool).
Variable clock : nat -> Z.

Definition work (config : AgentFlowConfig) (task : SubagentTask) (model : string)
    (loaded : string + list Skill) (chat : nat -> Provider)
  : option (string + option string) :=
  match loaded with
  | inl e => Some (inl e)
  | inr skills =>
      let context := Context.createAgentContext config skills in
      run ← Runner.runAgent RegExp_i clock (prompt task)
             {| Runner.provider := chat;
                Runner.model := model;
                Runner.systemPrompt := Some subagent_system_prompt;
                Runner.maxTurns := Some 5%nat;
                Runner.onChunk := Some (fun _ => []);
                Runner.shouldContinue := None |}
             context;
      match Runner.outcome run with
      | inl e => Some (inl e)
      | inr finalContext => Some (inr (lastMessage finalContext))
      end
  end.

(** A started task resumes with what the skill loader and the
    provider deliver. *)
Definition resume (p : SubagentPool) (taskId : string)
    (loaded : string + list Skill) (chat : nat -> Provider) : option SubagentPool :=
  match map_get (tasks p) taskId with
  | None => Some p
  | Some task =>
      match start (config p) task with
      | inl _ => Some p
      | inr (_, model) =>
          w ← work (config p) task model loaded chat;
          settle p taskId w
      end
  end.

End WithWorld.

(** *** [waitFor]

    What happens to the pool while a caller waits: tasks are spawned and
    started tasks settle. *)
Inductive Event :=
| Spawned (taskId prompt : string) (model : option string)
| Settled (taskId : string) (work : string + option string).

Definition occur (p : SubagentPool) (e : Event) : option SubagentPool :=
  match e with
  | Spawned taskId prompt model => snd <$> spawn p taskId prompt model
  | Settled taskId work => settle p taskId work
  end.

Fixpoint occur_all (p : SubagentPool) (es : list Event) : option SubagentPool :=
  match es with
  | [] => Some p
  | e :: es' => p' ← occur p e; occur_all p' es'
  end.

Inductive WaitError :=
| TaskNotFound (taskId : string)
| TaskTimedOut (taskId : string).

(** [new Error(`Task ${taskId} not found`)] and
    [new Error(`Task ${taskId} timed out`)] *)
Definition message (e : WaitError) : string :=
  match e with
  | TaskNotFound taskId => "Task " +:+ taskId +:+ " not found"
  | TaskTimedOut taskId => "Task " +:+ taskId +:+ " timed out"
  end.

Definition default_timeoutMs : Z := 60000.

(** The polling loop.  Each entry of [schedule] is one evaluation of the
    loop condition: the value [Date.now()] has there, and the events
    that occur during the 100 ms sleep if the body reaches it.  The
    result is the error thrown or the task returned, with the pool as
    it is at that moment; [None] when the schedule ends while the loop
    is still polling. *)
Fixpoint poll (startTime timeoutMs : Z) (taskId : string) (p : SubagentPool)
    (schedule : list (Z * list Event)) : option ((WaitError + SubagentTask) * SubagentPool) :=
  match schedule with
  | [] => None
  | (now, during) :: schedule' =>
      if (now - startTime <? timeoutMs)%Z then
        match map_get (tasks p) taskId with
        | None => Some (inl (TaskNotFound taskId), p)
        | Some task =>
            if is_terminal task then Some (inr task, p)
            else p' ← occur_all p during; poll startTime timeoutMs taskId p' schedule'
        end
      else Some (inl (TaskTimedOut taskId), p)
  end.

(** [waitFor(taskId, timeoutMs)]: [startTime] is the first clock reading. *)
Definition waitFor (p : SubagentPool) (taskId : string) (timeoutMs : option Z)
    (startTime : Z) (schedule : list (Z * list Event))
  : option ((WaitError + SubagentTask) * SubagentPool) :=
  poll startTime (default default_timeoutMs timeoutMs) taskId p schedule.

End Pool.

(** ** Model pricing ([src/context/costs.ts]) *)

Module Pricing.

Local Open Scope string_scope.

(** USD per million tokens; a decimal literal of the source is given as
    the rational it denotes. *)
Record ModelPricing := mkPricing { inputPer1M : Q; outputPer1M : Q }.

Definition MODEL_PRICING : list (string * ModelPricing) :=
  [ ("gpt-4o", mkPricing (250 # 100) 10);
    ("gpt-4o-mini", mkPricing (15 # 100) (60 # 100));
    ("gpt-4-turbo", mkPricing 10 30);
    ("gpt-4", mkPricing 30 60);
    ("gpt-4-32k", mkPricing 60 120);
    ("gpt-3.5-turbo", mkPricing (50 # 100) (150 # 100));
    ("claude-3-opus", mkPricing 15 75);
    ("claude-3-sonnet", mkPricing 3 15);
    ("claude-3-haiku", mkPricing (25 # 100) (125 # 100));
    ("claude-3.5-sonnet", mkPricing 3 15);
    ("claude-3.5-haiku", mkPricing 1 5);
    ("llama-3.3-70b-versatile", mkPricing (59 # 100) (79 # 100));
    ("llama-3.1-70b-versatile", mkPricing (59 # 100) (79 # 100));
    ("llama-3.1-8b-instant", mkPricing (5 # 100) (8 # 100));
    ("mixtral-8x7b-32768", mkPricing (24 # 100) (24 # 100));
    ("gemma-7b-it", mkPricing (7 # 100) (7 # 100));
    ("together/llama-3.3-70b", mkPricing (88 # 100) (88 # 100));
    ("together/mixtral-8x7b", mkPricing (60 # 100) (60 # 100));
    ("ollama", mkPricing 0 0);
    ("llama3.3", mkPricing 0 0);
    ("llama3.3:70b", mkPricing 0 0);
    ("codellama", mkPricing 0 0);
    ("mistral", mkPricing 0 0);
    ("mixtral", mkPricing 0 0);
    ("default", mkPricing 1 2) ].

Definition MODEL_PRICING_ollama : ModelPricing := mkPricing 0 0.
Definition MODEL_PRICING_default : ModelPricing := mkPricing 1 2.

(** [MODEL_PRICING[key]], read on the keys the table lists; every listed
    value is an object, hence truthy.  The two lower-case names every
    object inherits ([constructor], [__proto__]) are not keys here. *)
Definition pricing_get (key : string) : option ModelPricing :=
  snd <$> find (fun e => String.eqb (fst e) key) MODEL_PRICING.

Definition getModelPricing (model : string) (provider : option string) : ModelPricing :=
  let key := JS.toLowerCase model in
  if bool_decide (provider = Some "ollama") then MODEL_PRICING_ollama
  else
    match pricing_get key with
    | Some pricing => pricing
    | None =>
        match find (fun e => JS.includes key (fst e) || JS.includes (fst e) key)
                   MODEL_PRICING with
        | Some e => snd e
        | None => MODEL_PRICING_default
        end
    end.

End Pricing.

(** ** The token tracker of a session ([src/context/tokens.ts]) *)

Module TokenTracker.

Record MessageTokens := mkMessageTokens {
  mt_role : Role;
  mt_content : string;
  tokens : Z;
  timestamp : Z
}.

Record SessionTokens := mkSessionTokens {
  st_totalInput : Z;
  st_totalOutput : Z;
  total : Z;
  messageBreakdown : list MessageTokens
}.

Record State := mkState {
  model : string;
  messages : list MessageTokens;
  totalInput : Z;
  totalOutput : Z
}.

(** [new TokenTracker(model)], [model] defaulting to ['default'] *)
Definition create (model : option string) : State :=
  {| model := default "default"%string model; messages := [];
     totalInput := 0; totalOutput := 0 |}.

(** [trackInput(message)]; [now] is the value of [new Date()]. *)
Definition trackInput (now : Z) (message : Message) (t : State) : Z * State :=
  let tokens := Tokens.estimateMessageTokens message (model t) in
  (tokens,
   {| model := model t;
      messages := messages t ++ [ {| mt_role := role message;
                                     mt_content := JS.slice0 100 (content message);
                                     tokens := tokens;
                                     timestamp := now |} ];
      totalInput := totalInput t + tokens;
      totalOutput := totalOutput t |}).

Definition trackOutput (now : Z) (message : Message) (t : State) : Z * State :=
  let tokens := Tokens.estimateMessageTokens message (model t) in
  (tokens,
   {| model := model t;
      messages := messages t ++ [ {| mt_role := role message;
                                     mt_content := JS.slice0 100 (content message);
                                     tokens := tokens;
                                     timestamp := now |} ];
      totalInput := totalInput t;
      totalOutput := totalOutput t + tokens |}).

Definition trackStreamingOutput (chunk : string) (t : State) : Z * State :=
  let tokens := Tokens.estimateTokens chunk (model t) in
  (tokens,
   {| model := model t; messages := messages t;
      totalInput := totalInput t; totalOutput := totalOutput t + tokens |}).

Definition getStats (t : State) : SessionTokens :=
  {| st_totalInput := totalInput t;
     st_totalOutput := totalOutput t;
     total := totalInput t + totalOutput t;
     messageBreakdown := messages t |}.

Definition setModel (model' : string) (t : State) : State :=
  {| model := model'; messages := messages t;
     totalInput := totalInput t; totalOutput := totalOutput t |}.

Definition reset (t : State) : State :=
  {| model := model t; messages := []; totalInput := 0; totalOutput := 0 |}.

End TokenTracker.

(** ** The provider map ([src/providers/index.ts], [createProviders]) *)

Module ProviderMap.

Local Open Scope string_scope.

(** One iteration of the [for ... of Object.entries(config)] loop, on
    the Map built so far and the arguments of the [console.warn] calls
    made so far: a configuration that is [undefined] is skipped, a
    constructor that throws is reported and skipped. *)
Definition add (acc : list (string * Providers.Handle) * list (string * string))
    (entry : string * option ProviderConfig)
  : list (string * Providers.Handle) * list (string * string) :=
  let '(providers, warnings) := acc in
  let '(name, providerConfig) := entry in
  match providerConfig with
  | Some config =>
      match Providers.createProvider name config with
      | inr provider => (Pool.map_set providers name provider, warnings)
      | inl error =>
          (providers,
           (warnings ++ [("Failed to create provider " +:+ name +:+ ":", error)])%list)
      end
  | None => acc
  end.

(** [createProviders(config)], on [Object.entries(config)]. *)
Definition createProviders (entries : list (string * option ProviderConfig))
  : list (string * Providers.Handle) * list (string * string) :=
  fold_left add entries ([], []).

End ProviderMap.

(** ** Skill files ([src/skills/parser.ts]) *)

Module SkillParser.

Local Open Scope string_scope.

(** [s.replace(/^#+\s*/, '')]: a leading run of [#] and the white space
    after it are removed; a text that does not start with [#] is left
    as it is. *)
Fixpoint drop_hashes (s : string) : string :=
  match s with
  | String "#"%char r => drop_hashes r
  | _ => s
  end.
Definition strip_heading (s : string) : string :=
  match s with
  | String "#"%char _ => JS.trimStart (drop_hashes s)
  | _ => s
  end.

Definition extractDescription (content : string) : string :=
  let lines :=
    filter (fun line => negb (JS.is_empty (JS.trim line)))
           (JS.split_char (JS.chr 10) content) in
  let firstLine := hd EmptyString lines in
  let cleaned := JS.trim (strip_heading firstLine) in
  if (200 <? JS.len cleaned)%Z then JS.slice0 197 cleaned +:+ "..." else cleaned.

Section WithFiles.

(** [loadSkillsFromDirectory(path)]: the skills parsed from the skill
    files of a directory, none when it cannot be read. *)
Variable loadSkillsFromDirectory : string -> list Skill.
(** [join(process.cwd(), '.agentflow', 'skills')] and
    [join(process.cwd(), 'skills')] *)
Variable defaultPaths : list string.

(** The inner loop of [loadAllSkills], on [(skills, seenNames)]. *)
Definition keep_new (acc : list Skill * gset string) (skill : Skill)
  : list Skill * gset string :=
  let '(skills, seenNames) := acc in
  if bool_decide (name skill ∈ seenNames) then acc
  else ((skills ++ [skill])%list, {[ name skill ]} ∪ seenNames).

Definition loadAllSkills (skillPaths : list string) : list Skill :=
  let allPaths := (skillPaths ++ defaultPaths)%list in
  fst (fold_left
         (fun acc path => fold_left keep_new (loadSkillsFromDirectory path) acc)
         allPaths ([], ∅)).

End WithFiles.

End SkillParser.

(** ** A single exchange ([chat] of [src/agents/runner.ts]) *)

Module RunnerChat.

(** [chat]: what it writes, and either the error it throws or the
    response with the context it returns. *)
Definition chat (message : string) (context : AgentContext) (provider : Provider)
    (model : string) : list Output * (string + (string * AgentContext)) :=
  let context := Context.addMessage context {| role := user; content := message |} in
  let messages := Context.getConversationHistory context Context.default_maxTokens in
  let generator := provider messages (mkChatOptions (Some model) None None) in
  let response := JS.join EmptyString (chunks generator) in
  let written := StdoutWrite <$> chunks generator in
  match failure generator with
  | Some e => (written, inl e)
  | None =>
      ((written ++ [ConsoleLog EmptyString])%list,
       inr (response,
            Context.addMessage context {| role := assistant; content := response |}))
  end.

End RunnerChat.

(* ===================================================================== *)
(** * Part II.  The vocabulary of the statements *)
(* ===================================================================== *)

(** ** The history window *)

Section WindowVocabulary.

Local Open Scope Q_scope.

Fixpoint chars (ms : list Message) : Z :=
  match ms with
  | [] => 0%Z
  | m :: ms' => (JS.len (content m) + chars ms')%Z
  end.

Definition quarter (n : Z) : Q := inject_Z n * Context.estimatedTokensPerChar.

Definition system_chars (ms : list Message) : Z :=
  match find is_system ms with
  | Some m => JS.len (content m)
  | None => 0%Z
  end.

(** [tokens > maxTokens], the test that ends the backward walk. *)
Definition exceeds (tokens : Q) (maxTokens : JS.Number) : bool :=
  JS.gt (JS.Num tokens) maxTokens.

(** A progress value within [0, 100]. *)
Definition in_range (progress : JS.Number) : Prop :=
  match progress with
  | JS.Num q => 0 <= q <= 100
  | _ => False
  end.

End WindowVocabulary.

(** ** Stores *)

Section StoreVocabulary.

Import Store.

(** Every cell of [σ] is still there, with the same content, in [σ']. *)
Definition untouched (σ σ' : store) : Prop :=
  forall l, is_Some (σ !! l) -> σ' !! l = σ !! l.

End StoreVocabulary.

(** ** Compaction *)

Section CompactionVocabulary.

Import Compaction.

(** The guard of [simpleCompact]: the estimate exceeds the target. *)
Definition target_of (options : CompactionOptions) : Z :=
  or_number (targetTokens options)
    (Tokens.getContextLimit (or_string (model options) "default") / 2).

Definition usage_of (ms : list Message) (options : CompactionOptions) : Z :=
  Tokens.estimateConversationTokens ms (or_string (model options) "default").

Definition over_target (ms : list Message) (options : CompactionOptions) : Prop :=
  target_of options < usage_of ms options.

(** What [simpleCompact] builds when it compacts, in terms of the first
    system message and the non-system messages alone. *)
Definition compacted_of (first : option Message) (nonSystem : list Message)
    (options : CompactionOptions) : list Message * string :=
  let k := default default_keepRecent (keepRecent options) in
  let old := JS.slice nonSystem 0 (Some (- k)) in
  let summaryContent :=
    if 0 <? Z.of_nat (length old) then createLocalSummary old (focus options)
    else EmptyString in
  (option_list first
     ++ (if JS.is_empty summaryContent then []
         else [ {| role := system;
                   content := "[Previous conversation summary]:" +:+ JS.nl
                                +:+ summaryContent |} ])
     ++ JS.slice nonSystem (- k) None,
   summaryContent).

End CompactionVocabulary.

(** ** Sorted lists *)

Section SortVocabulary.

Context {A : Type} (key : A -> Z).

Definition descending : list A -> Prop :=
  StronglySorted (fun a b => key b <= key a).

End SortVocabulary.

(** ** Skill routing *)

Section RoutingVocabulary.

Import Matcher.

Variable RegExp_i : string -> string + (string -> bool).

(** The error a skill makes the matcher throw: its trigger is given, is
    not empty and is no regular expression. *)
Definition trigger_error (s : Skill) : option string :=
  match trigger s with
  | Some pattern =>
      if JS.is_empty pattern then None
      else match RegExp_i pattern with
           | inl error => Some error
           | inr _ => None
           end
  | None => None
  end.

(** The first such error of a list of skills. *)
Definition first_trigger_error (skills : list Skill) : option string :=
  head (omap trigger_error skills).

(** The three rules. *)
Definition trigger_fires (input : string) (s : Skill) : bool :=
  match trigger s with
  | Some pattern =>
      negb (JS.is_empty pattern)
      && match RegExp_i pattern with
         | inr triggerRegex => triggerRegex input
         | inl _ => false
         end
  | None => false
  end.

Definition name_found (input : string) (s : Skill) : bool :=
  JS.includes (JS.toLowerCase input) (JS.toLowerCase (name s)).

(** The keywords of the description that are keywords of the input, one
    entry for every occurrence in the description. *)
Definition matched_occurrences (input : string) (s : Skill) : list string :=
  filter (fun k => bool_decide (k ∈ extractKeywords input))
         (extractKeywords (description s)).

(** The keywords the description and the input share. *)
Definition shared_keywords (input : string) (s : Skill) : gset string :=
  list_to_set (extractKeywords (description s)) ∩ list_to_set (extractKeywords input).

(** The score as the specification words it. *)
Definition claimed_score (input : string) (s : Skill) : Z :=
  if trigger_fires input s then 100
  else if name_found input s then 80
  else Z.min 60 (15 * Z.of_nat (size (shared_keywords input s))).

(** The score of the first rule that fires, with the keyword rule
    counting occurrences. *)
Definition first_rule_score (input : string) (s : Skill) : Z :=
  if trigger_fires input s then 100
  else if name_found input s then 80
  else Z.min 60 (15 * Z.of_nat (length (matched_occurrences input s))).

(** The skills with a positive score, in input order. *)
Definition candidates (input : string) (skills : list Skill) : list (Skill * Z) :=
  filter (fun c => 0 < snd c) ((fun s => (s, first_rule_score input s)) <$> skills).

Definition view (r : MatchResult) : Skill * Z := (skill r, score r).

End RoutingVocabulary.

(** ** The subagent pool *)

Section PoolVocabulary.

Import Pool.

Implicit Types (p : SubagentPool) (k taskId : string) (t task : SubagentTask).

(** A key whose task is not waiting to be started. *)
Definition settled_key p k : Prop :=
  match map_get (tasks p) k with
  | Some t => is_pending t = false
  | None => True
  end.

(** One pass over the keys: a pending task is started; when its start
    throws it is failed and the pass goes on, otherwise it stays running
    and the pass stops if the pool is full. *)
Fixpoint sweep (keys : list string) p : SubagentPool :=
  match keys with
  | [] => p
  | k :: keys' =>
      match map_get (tasks p) k with
      | Some t =>
          if is_pending t then
            match start (config p) t with
            | inl e => sweep keys' (release (fail (begin p k) k e) k)
            | inr _ => if full (begin p k) then begin p k else sweep keys' (begin p k)
            end
          else sweep keys' p
      | None => sweep keys' p
      end
  end.

Definition refill p : SubagentPool :=
  if full p then p else sweep (map_keys (tasks p)) p.

Definition runTask_result p taskId : SubagentPool :=
  match map_get (tasks p) taskId with
  | None => p
  | Some task =>
      match start (config p) task with
      | inl e => refill (release (fail (begin p taskId) taskId e) taskId)
      | inr _ => begin p taskId
      end
  end.

(** Number of tasks that satisfy [P]. *)
Definition count_where (P : SubagentTask -> bool) (m : list (string * SubagentTask)) : nat :=
  length (filter (fun t => P t) (snd <$> m)).

Definition count_status (s : Status) p : nat :=
  count_where (fun t => bool_decide (status t = s)) (tasks p).

Definition indicator (b : bool) : nat := if b then 1%nat else 0%nat.

Definition has_status (s : Pool.Status) (t : Pool.SubagentTask) : bool :=
  bool_decide (Pool.status t = s).

Definition runTask_ok (fuel : nat) : Prop :=
  forall p taskId,
    (getPendingCount p < fuel)%nat ->
    ~ settled_key p taskId \/ getTask p taskId = None ->
    runTask fuel p taskId = Some (runTask_result p taskId).

Definition new_task (defaultModel : string) (taskId prompt : string)
    (model : option string) : SubagentTask :=
  {| id := taskId; prompt := prompt;
     model := Some (Compaction.or_string model defaultModel);
     status := Pending; result := None; error := None |}.

Definition enqueue p taskId prompt (model : option string) : SubagentPool :=
  with_tasks p (map_set (tasks p) taskId (new_task (defaultModel p) taskId prompt model)).

Definition spawn_result p taskId prompt (model : option string) : SubagentPool :=
  let p1 := enqueue p taskId prompt model in
  if (size (running p1) <? maxConcurrent p1)%nat then runTask_result p1 taskId else p1.

Definition finish p taskId (w : string + option string) : SubagentPool :=
  match w with
  | inr last => complete p taskId last
  | inl e => fail p taskId e
  end.

Definition settle_result p taskId (w : string + option string) : SubagentPool :=
  refill (release (finish p taskId w) taskId).

(** The running set is the set of tasks in status [Running], it is
    within the limit, and a pool with room has nothing pending. *)
Record Core p : Prop := mkCore {
  core_nodup : NoDup (map_keys (tasks p));
  core_running :
    forall k, k ∈ running p <-> exists t, getTask p k = Some t /\ status t = Running;
  core_bound : (size (running p) <= maxConcurrent p)%nat
}.

Definition Busy p : Prop := full p = false -> forall k, settled_key p k.

Definition Inv p : Prop := Core p /\ Busy p.

(** The states a pool goes through: created empty, then a [spawn] with a
    fresh id or the settling of a running task. *)
Inductive reachable : SubagentPool -> Prop :=
| reach_create maxConcurrent defaultModel config :
    reachable (create maxConcurrent defaultModel config)
| reach_spawn p taskId prompt model p' :
    reachable p -> getTask p taskId = None ->
    spawn p taskId prompt model = Some (taskId, p') ->
    reachable p'
| reach_settle p taskId t w p' :
    reachable p -> getTask p taskId = Some t -> status t = Running ->
    settle p taskId w = Some p' ->
    reachable p'.

(** [spawn] called for each request in turn, nothing else happening. *)
Fixpoint spawn_all p (requests : list (string * string * option string))
  : option SubagentPool :=
  match requests with
  | [] => Some p
  | (taskId, prompt, model) :: rest =>
      match spawn p taskId prompt model with
      | Some (_, p') => spawn_all p' rest
      | None => None
      end
  end.

(** The start of the task a request creates does not throw. *)
Definition startable (config : AgentFlowConfig) (defaultModel : string)
    (request : string * string * option string) : Prop :=
  exists ok,
    start config (new_task defaultModel request.1.1 request.1.2 request.2) = inr ok.

(** The pending tasks, in insertion order. *)
Definition waiting p : list (string * SubagentTask) :=
  filter (fun kv => is_pending kv.2) (tasks p).

(** What a pending task becomes when it is started and its start throws
    [e]. *)
Definition failed_at_start (e : string) t : SubagentTask :=
  set_status Failed (set_error e (set_status Running t)).

(** What a pass can do to a pending task: nothing, start it, or start it
    and record the error its own start throws. *)
Definition pending_fate (config : AgentFlowConfig) t (after : option SubagentTask) : Prop :=
  after = Some t
  \/ after = Some (set_status Running t)
  \/ exists e, start config t = inl e
       /\ after = Some (set_status Failed (set_error e (set_status Running t))).

(** The polls of [early] all come before the deadline and find the task
    unfinished: the pool they leave behind. *)
Fixpoint unfinished (startTime timeoutMs : Z) taskId p
    (early : list (Z * list Event)) : option SubagentPool :=
  match early with
  | [] => Some p
  | (now, during) :: early' =>
      if now - startTime <? timeoutMs then
        match getTask p taskId with
        | Some t =>
            if is_terminal t then None
            else p' ← occur_all p during; unfinished startTime timeoutMs taskId p' early'
        | None => None
        end
      else None
  end.

End PoolVocabulary.

(** ** Lookups in tables *)

(** The all-lowercase property names every object inherits: a lookup
    [table[key]] finds them although the table does not list them. *)
Definition inherited_lower : list string := [ "constructor"; "__proto__" ]%string.


(** ** The token tracker *)

Section TrackerVocabulary.

Import TokenTracker.

(** The calls a user of a tracker makes. *)
Inductive Call :=
| TrackInput (now : Z) (message : Message)
| TrackOutput (now : Z) (message : Message)
| TrackStreamingOutput (chunk : string)
| SetModel (model : string)
| Reset.

(** A call: the number it returns, if it returns one, and the tracker
    it leaves. *)
Definition call (c : Call) (t : State) : option Z * State :=
  match c with
  | TrackInput now m => let '(n, t') := trackInput now m t in (Some n, t')
  | TrackOutput now m => let '(n, t') := trackOutput now m t in (Some n, t')
  | TrackStreamingOutput chunk => let '(n, t') := trackStreamingOutput chunk t in (Some n, t')
  | SetModel model => (None, setModel model t)
  | Reset => (None, reset t)
  end.

(** The numbers returned since the last [reset], and the final tracker. *)
Fixpoint calls (cs : list Call) (returned : list Z) (t : State) : list Z * State :=
  match cs with
  | [] => (returned, t)
  | c :: cs' =>
      let '(r, t') := call c t in
      let returned' :=
        match c with
        | Reset => []
        | _ => returned ++ option_list r
        end in
      calls cs' returned' t'
  end.

Definition total_of (l : list Z) : Z := foldr Z.add 0 l.

(** What every call keeps. *)
Definition tracker_ok (returned : list Z) (t : State) : Prop :=
  totalInput t + totalOutput t = total_of returned
  /\ 0 <= totalInput t /\ 0 <= totalOutput t
  /\ Forall (fun e => JS.len (mt_content e) <= 100 /\ 4 <= tokens e) (messages t)
  /\ total_of (tokens <$> messages t) <= total_of returned.

End TrackerVocabulary.

(** ** The provider map *)

(** The provider an entry stands for: its configuration is given and
    its name is one of the five. *)
Definition usable (entry : string * option ProviderConfig)
  : option (string * Providers.Handle) :=
  match entry with
  | (name, Some config) =>
      if bool_decide (name ∈ Providers.known)
      then Some (name, Providers.mkHandle name config) else None
  | (_, None) => None
  end.

(** The warning an entry causes: its configuration is given and its
    name is unknown. *)
Definition refused (entry : string * option ProviderConfig) : option (string * string) :=
  match entry with
  | (name, Some config) =>
      if bool_decide (name ∈ Providers.known) then None
      else Some (("Failed to create provider " +:+ name +:+ ":")%string,
                 ("Unknown provider: " +:+ name)%string)
  | (_, None) => None
  end.

(** ** Templates *)

Section TemplateVocabulary.

Local Open Scope string_scope.

Fixpoint all_chars (p : ascii -> bool) (s : string) : bool :=
  match s with
  | EmptyString => true
  | String c r => p c && all_chars p r
  end.

(** What a placeholder named [w] is replaced by: the value of [w] when
    it is given and not empty, the placeholder itself otherwise. *)
Definition filled (vars : gmap string string) (w : string) : string :=
  match vars !! w with
  | Some v => if JS.is_empty v then "{{" +:+ w +:+ "}}" else v
  | None => "{{" +:+ w +:+ "}}"
  end.

End TemplateVocabulary.

(** ** The turn loop *)

(** The messages [runAgent] adds in front of the first turn. *)
Definition prompt_messages (initialPrompt : string) (options : Runner.AgentRunnerOptions)
  : list Message :=
  match Compaction.given (Runner.systemPrompt options) with
  | Some p => [ mkMessage system p ]
  | None => []
  end ++ [ mkMessage user initialPrompt ].



(** ** The life of a pool *)

(** One step of a pool: a [spawn] with a fresh id, or the settling of a
    running task. *)
Inductive pool_step : Pool.SubagentPool -> Pool.SubagentPool -> Prop :=
| step_spawn p taskId prompt model p' :
    Pool.getTask p taskId = None ->
    Pool.spawn p taskId prompt model = Some (taskId, p') ->
    pool_step p p'
| step_settle p taskId t w p' :
    Pool.getTask p taskId = Some t -> Pool.status t = Pool.Running ->
    Pool.settle p taskId w = Some p' ->
    pool_step p p'.

(** ** A single exchange *)

(** What [chat] hands to the provider. *)
Definition sent_by_chat (message : string) (context : AgentContext) : list Message :=
  Context.getConversationHistory
    (Context.addMessage context (mkMessage user message)) Context.default_maxTokens.

(** ** Sample data *)

(** A store with one context: a system prompt and two exchanges. *)
Definition sample_messages : list Message :=
  [ mkMessage user "first question";
    mkMessage system "be brief";
    mkMessage assistant "first answer";
    mkMessage user "second question" ]%string.

Definition sample_context : AgentContext :=
  {| messages := sample_messages; taskProgress := JS.Num 0; lastMessage := Some "second question"%string;
     skills := []; config := mkConfig ∅ None |}.

Definition sample_store : gmap positive Store.cell :=
  {[ 1%positive := Store.Obj (Store.mkObj 2%positive (JS.Num 0) (Some "second question"%string) [] (mkConfig ∅ None));
     2%positive := Store.Arr sample_messages ]}.

(** A system prompt in front of two questions and an answer. *)
Definition short_talk : AgentContext :=
  {| messages :=
       [ mkMessage system "be brief";
         mkMessage user "first question";
         mkMessage assistant "first answer";
         mkMessage user "second question" ]%string;
     taskProgress := JS.Num 0; lastMessage := Some "second question"%string;
     skills := []; config := mkConfig ∅ None |}.

(** Two conversations that differ in a later system message. *)
Definition long_talk (later : string) : AgentContext :=
  {| messages :=
       [ mkMessage system "be brief";
         mkMessage user "How do I reverse a list without recursion?";
         mkMessage assistant "Steps: fold it";
         mkMessage system later;
         mkMessage user "two"; mkMessage assistant "three";
         mkMessage user "four"; mkMessage assistant "five" ]%string;
     taskProgress := JS.Num 0; lastMessage := None; skills := []; config := mkConfig ∅ None |}.

Definition tight : Compaction.CompactionOptions :=
  Compaction.mkOptions None (Some 10) None None None.

(** No option given: [simpleCompact(messages)]. *)
Definition default_options : Compaction.CompactionOptions :=
  Compaction.mkOptions None None None None None.

(** Five short questions, far below half of the context window, and a
    provider that answers [ok]. *)
Definition five_questions : list Message :=
  (fun s => mkMessage user s) <$> [ "q1"; "q2"; "q3"; "q4"; "q5" ]%string.

Definition with_provider : Compaction.CompactionOptions :=
  Compaction.mkOptions None None None
    (Some (fun _ _ => mkStream ["ok"%string] None)) (Some "gpt-4"%string).

(** An engine whose expressions match nothing, and one that reads a
    pattern as a literal text, an opening parenthesis alone being no
    expression. *)
Definition never_matches : string -> string + (string -> bool) :=
  fun _ => inr (fun _ => false).

Definition literal_engine : string -> string + (string -> bool) :=
  fun pattern =>
    if String.eqb pattern "("
    then inl "Invalid regular expression: /(/: Unterminated group"%string
    else inr (fun input => JS.includes (JS.toLowerCase input) (JS.toLowerCase pattern)).

Definition review_skill : Skill :=
  mkSkill "review" "workflow after workflow" None EmptyString.

Definition testing_skill : Skill :=
  mkSkill "testing" "Run the checks" (Some "test") EmptyString.

Definition deploy_skill : Skill :=
  mkSkill "deploy" "Ship the release" None EmptyString.

(** A skill whose trigger is no regular expression. *)
Definition broken_skill : Skill :=
  mkSkill "broken" "Anything" (Some "(") EmptyString.

Definition fixed_clock : nat -> Z := fun _ => 1700000000000.

Definition echo_provider : nat -> Provider :=
  fun _ _ _ => mkStream ["all "; "done"]%string None.


(** [maxTurns: 5] and a policy that always stops. *)
Definition stop_at_once : Runner.AgentRunnerOptions :=
  {| Runner.provider := echo_provider;
     Runner.model := "llama3";
     Runner.systemPrompt := None;
     Runner.maxTurns := Some 5%nat;
     Runner.onChunk := None;
     Runner.shouldContinue := Some (fun _ _ => inr (mkDecision false "enough")) |}.


Definition ollama_only : AgentFlowConfig :=
  mkConfig {[ "ollama"%string := mkProviderConfig None None None ]} None.

Definition three_requests : list (string * string * option string) :=
  [ ("A", "first task", None);
    ("B", "second task", None);
    ("C", "third task", None) ]%string.

(** A pool of one: [A] runs, [B] and [C] wait, and the providers they
    name are not configured.  When [A] completes, the drain starts [B],
    which fails at once, and then [C], which fails too: two pending tasks
    were started, not exactly one, and none is running afterwards. *)
Definition two_bad_requests : list (string * string * option string) :=
  [ ("A", "first task", None);
    ("B", "second task", Some "nope/model");
    ("C", "third task", Some "void/model") ]%string.

(** A pool of one after two spawns: [A] runs, [B] waits. *)
Definition one_at_a_time : Pool.SubagentPool :=
  {| Pool.tasks :=
       [ ("A"%string, Pool.mkTask "A" "first task" (Some "ollama/llama3.3:70b"%string)
                        Pool.Running None None);
         ("B"%string, Pool.mkTask "B" "second task" (Some "ollama/llama3.3:70b"%string)
                        Pool.Pending None None) ];
     Pool.running := {[ "A"%string ]};
     Pool.maxConcurrent := 1;
     Pool.defaultModel := "ollama/llama3.3:70b";
     Pool.config := ollama_only |}.

(** Two running tasks; the provider of the first one is down. *)
Definition two_running : Pool.SubagentPool :=
  {| Pool.tasks :=
       [ ("A"%string, Pool.mkTask "A" "first task" (Some "ollama/llama3"%string)
                        Pool.Running None None);
         ("B"%string, Pool.mkTask "B" "second task" (Some "ollama/llama3"%string)
                        Pool.Running None None) ];
     Pool.running := {[ "A"%string; "B"%string ]};
     Pool.maxConcurrent := 3;
     Pool.defaultModel := "ollama/llama3";
     Pool.config := ollama_only |}.

(* ===================================================================== *)
(** * Part III.  Properties *)
(* ===================================================================== *)

(** ** Arithmetic of the primitives *)

Lemma Zceil_div_pos (a b : Z) :
  0 < b -> - ((- a) / b) = (a + b - 1) / b.
Proof.
  intros Hb.
  pose proof (Z.div_mod (- a) b ltac:(lia)) as Hdm.
  pose proof (Z.mod_pos_bound (- a) b Hb) as Hr.
  apply Z.div_unique with (r := b - 1 - (- a) mod b); lia.
Qed.

Lemma ceil_ratio_pos (a b : Z) :
  0 < b -> JS.ceil_ratio a b = (a + b - 1) / b.
Proof.
  intros Hb. unfold JS.ceil_ratio, Qceiling, Qfloor.
  destruct b as [|p|p]; try lia.
  cbn [inject_Z Qdiv Qinv Qmult Qopp Qnum Qden].
  rewrite Z.mul_1_r, Pos.mul_1_l. apply Zceil_div_pos. lia.
Qed.

Lemma ceil_tenth (n : Z) :
  Qceiling (inject_Z n * (1 # 10)) = (n + 9) / 10.
Proof.
  unfold Qceiling, Qfloor.
  cbn [inject_Z Qmult Qopp Qnum Qden].
  rewrite Z.mul_1_r, Pos.mul_1_l.
  rewrite Zceil_div_pos by lia. f_equal. lia.
Qed.

(** A quotient rounded up is the least integer whose multiple reaches
    the dividend. *)
Lemma ceil_spec (a b : Z) :
  0 < b -> b * ((a + b - 1) / b - 1) < a <= b * ((a + b - 1) / b).
Proof.
  intros Hb.
  pose proof (Z.div_mod (a + b - 1) b ltac:(lia)) as Hdm.
  pose proof (Z.mod_pos_bound (a + b - 1) b Hb) as Hr.
  lia.
Qed.

(** ** Token estimation *)

Lemma charsPerToken_is_4 (model : string) : Tokens.charsPerToken model = 4.
Proof.
  unfold Tokens.charsPerToken.
  destruct (find _ Tokens.CHARS_PER_TOKEN) as [e|] eqn:Hfind; [|reflexivity].
  apply find_some in Hfind as [Hin _].
  unfold Tokens.CHARS_PER_TOKEN in Hin. simpl in Hin.
  repeat (destruct Hin as [<-|Hin]; [reflexivity|]). destruct Hin.
Qed.

Lemma estimateTokens_closed (text model : string) :
  text <> EmptyString ->
  Tokens.estimateTokens text model =
    (JS.len text + 3) / 4 + ((JS.len text + 3) / 4 + 9) / 10.
Proof.
  intros Hne. unfold Tokens.estimateTokens.
  destruct text as [|c r]; [congruence|]. cbn [JS.is_empty].
  rewrite charsPerToken_is_4, ceil_ratio_pos by lia.
  rewrite ceil_tenth. replace (JS.len (String c r) + 4 - 1) with (JS.len (String c r) + 3) by lia.
  reflexivity.
Qed.

(** C9.  [estimateTokens] divides the character count by the family's
    ratio, which is 4 for every family and by default, rounds up to
    [baseTokens], and adds a tenth of [baseTokens], itself rounded up to a
    whole token; it is 0 for the empty string.  [estimateMessageTokens]
    adds 4 to the estimate of the message content. *)
Theorem C9_estimateTokens (text model : string) (message : Message) :
  Tokens.charsPerToken model = 4
  /\ Tokens.estimateTokens EmptyString model = 0
  /\ (text <> EmptyString ->
      exists baseTokens overhead : Z,
        Tokens.charsPerToken model * (baseTokens - 1) < JS.len text
          <= Tokens.charsPerToken model * baseTokens
        /\ 10 * (overhead - 1) < baseTokens <= 10 * overhead
        /\ Tokens.estimateTokens text model = baseTokens + overhead)
  /\ Tokens.estimateMessageTokens message model =
       Tokens.estimateTokens (content message) model + 4.
Proof.
  split; [apply charsPerToken_is_4|].
  split; [reflexivity|].
  split; [|reflexivity].
  intros Hne. rewrite charsPerToken_is_4.
  exists ((JS.len text + 3) / 4), (((JS.len text + 3) / 4 + 9) / 10).
  split; [|split].
  - pose proof (ceil_spec (JS.len text) 4 ltac:(lia)) as H.
    replace (JS.len text + 4 - 1) with (JS.len text + 3) in H by lia. exact H.
  - pose proof (ceil_spec ((JS.len text + 3) / 4) 10 ltac:(lia)) as H.
    replace ((JS.len text + 3) / 4 + 10 - 1) with ((JS.len text + 3) / 4 + 9) in H by lia.
    exact H.
  - apply estimateTokens_closed, Hne.
Qed.

Lemma C9_estimateTokens_witness :
  exists baseTokens overhead : Z,
    Tokens.charsPerToken "gpt-4" * (baseTokens - 1) < JS.len "hello world"
      <= Tokens.charsPerToken "gpt-4" * baseTokens
    /\ 10 * (overhead - 1) < baseTokens <= 10 * overhead
    /\ Tokens.estimateTokens "hello world" "gpt-4" = baseTokens + overhead.
Proof.
  apply (C9_estimateTokens "hello world" "gpt-4" (mkMessage user "hello world")).
  discriminate.
Defined.

(** ** The conversation context, value level *)

Section ContextValue.

Local Open Scope Q_scope.

Lemma clamp_range (p : JS.Number) : p <> JS.NaN -> in_range (Context.clamp p).
Proof.
  intros Hp. destruct p as [q| | |]; cbn; [|split; discriminate..|congruence].
  split.
  - apply Q.min_glb; [discriminate|apply Q.le_max_l].
  - apply Q.le_min_l.
Qed.

Lemma exceeds_proper (q q' : Q) (maxTokens : JS.Number) :
  q == q' -> exceeds q maxTokens = exceeds q' maxTokens.
Proof.
  intros H. unfold exceeds. destruct maxTokens as [b| | |]; cbn; try reflexivity.
  f_equal. apply eq_true_iff_eq. rewrite !Qle_bool_iff, H. reflexivity.
Qed.

(** For a finite budget, exceeding is the order of the rationals. *)
Lemma exceeds_finite (q b : Q) : exceeds q (JS.Num b) = false <-> q <= b.
Proof.
  unfold exceeds. cbn. rewrite negb_false_iff. apply Qle_bool_iff.
Qed.

Lemma addMessage_length (ctx : AgentContext) (m : Message) :
  length (messages (Context.addMessage ctx m)) = S (length (messages ctx)).
Proof. cbn. rewrite length_app. cbn. lia. Qed.

(** Characters of a list of messages; a quarter of it is the estimate
    the window works with. *)
Lemma chars_app (l1 l2 : list Message) : chars (l1 ++ l2) = (chars l1 + chars l2)%Z.
Proof. induction l1 as [|m l1 IH]; cbn; [reflexivity|]. rewrite IH. lia. Qed.

Lemma chars_rev (l : list Message) : chars (rev l) = chars l.
Proof.
  induction l as [|m l IH]; cbn; [reflexivity|].
  rewrite chars_app, IH. cbn. lia.
Qed.

Lemma quarter_add (total : Q) (c : Z) (m : Message) :
  total == quarter c ->
  total + Context.msgTokens m == quarter (c + JS.len (content m)).
Proof.
  intros H. unfold quarter, Context.msgTokens in *.
  rewrite H, inject_Z_plus. ring.
Qed.

(** What the backward walk returns: it takes a prefix [taken] of the
    reversed array, each step within budget, and stops at the end or at
    the first message [msg] that does not fit. *)
Lemma walk_spec (maxTokens : JS.Number) (pending : list Message) :
  forall (total : Q) (c : Z) (included : list Message),
    total == quarter c ->
    exists taken rest : list Message,
      pending = taken ++ rest
      /\ Context.walk maxTokens total included pending = rev taken ++ included
      /\ (taken <> [] -> exceeds (quarter (c + chars taken)) maxTokens = false)
      /\ (forall msg rest', rest = msg :: rest' ->
            exceeds (quarter (c + chars taken + JS.len (content msg))) maxTokens = true).
Proof.
  induction pending as [|msg pending IH]; intros total c included Htotal.
  - exists [], []. cbn. repeat split; [congruence|discriminate].
  - cbn [Context.walk]. fold (exceeds (total + Context.msgTokens msg) maxTokens).
    rewrite (exceeds_proper _ _ maxTokens (quarter_add _ _ _ Htotal)).
    destruct (exceeds (quarter (c + JS.len (content msg))) maxTokens) eqn:Hfit.
    + exists [], (msg :: pending). cbn.
      split; [reflexivity|]. split; [reflexivity|]. split; [congruence|].
      intros msg' rest' [= <- <-].
      replace (c + 0 + JS.len (content msg))%Z with (c + JS.len (content msg))%Z by lia.
      exact Hfit.
    + destruct (IH (total + Context.msgTokens msg) (c + JS.len (content msg))%Z
                   (msg :: included) (quarter_add _ _ _ Htotal))
        as (taken & rest & -> & Hwalk & Hin & Hout).
      exists (msg :: taken), rest. cbn [chars].
      split; [reflexivity|]. split; [|split].
      * rewrite Hwalk. cbn [rev]. rewrite <- app_assoc. reflexivity.
      * intros _. destruct taken as [|t taken'].
        -- cbn.
           replace (c + (JS.len (content msg) + 0))%Z with (c + JS.len (content msg))%Z by lia.
           exact Hfit.
        -- rewrite Z.add_assoc. apply Hin. discriminate.
      * intros msg' rest' Hrest.
        rewrite Z.add_assoc. eapply Hout, Hrest.
Qed.

(** The window: the first system message, then the longest suffix of
    the non-system messages that fits next to it. *)
Lemma getConversationHistory_spec (ctx : AgentContext) (maxTokens : JS.Number) :
  exists dropped included : list Message,
    filter (fun m => non_system m) (messages ctx) = dropped ++ included
    /\ Context.getConversationHistory ctx maxTokens =
         option_list (find is_system (messages ctx)) ++ included
    /\ (included <> [] ->
          exceeds (quarter (system_chars (messages ctx) + chars included)) maxTokens = false)
    /\ (forall older msg, dropped = older ++ [msg] ->
          exceeds (quarter (system_chars (messages ctx) + chars included
                            + JS.len (content msg))) maxTokens = true).
Proof.
  unfold Context.getConversationHistory, system_chars.
  set (nonsys := filter (fun m => non_system m) (messages ctx)).
  assert (Hstart : (match find is_system (messages ctx) with
                    | Some m => 0 + Context.msgTokens m
                    | None => 0
                    end)
                   == quarter (match find is_system (messages ctx) with
                               | Some m => JS.len (content m)
                               | None => 0%Z
                               end)).
  { destruct (find is_system (messages ctx)); unfold quarter, Context.msgTokens; ring. }
  destruct (walk_spec maxTokens (rev nonsys) _ _ [] Hstart)
    as (taken & rest & Hsplit & Hwalk & Hin & Hout).
  exists (rev rest), (rev taken).
  rewrite Hwalk, app_nil_r.
  split; [|split; [|split]].
  - rewrite <- rev_app_distr, <- Hsplit, rev_involutive. reflexivity.
  - destruct (find is_system (messages ctx)); reflexivity.
  - intros Hne. rewrite chars_rev. apply Hin.
    intros ->. apply Hne. reflexivity.
  - intros older msg Hdropped. rewrite chars_rev.
    apply (Hout msg (rev older)).
    rewrite <- (rev_involutive rest), Hdropped, rev_app_distr. reflexivity.
Qed.

End ContextValue.

(** ** The conversation context, store level *)

Section ContextStore.

Import Store.

Lemma untouched_refl (σ : store) : untouched σ σ.
Proof. intros l _. reflexivity. Qed.

Lemma untouched_insert_new (σ0 σ : store) (l : loc) (c : cell) :
  untouched σ0 σ -> σ0 !! l = None -> untouched σ0 (<[l := c]> σ).
Proof.
  intros H Hnew k Hk. rewrite lookup_insert_ne; [apply H, Hk|].
  intros ->. rewrite Hnew in Hk. destruct Hk as [? [=]].
Qed.

Lemma bind_eq {A B} (m : M A) (f : A -> M B) (σ σ' : store) (x : A) :
  m σ = Some (x, σ') -> (m ≫= f) σ = f x σ'.
Proof. intros H. unfold mbind, M_bind. rewrite H. reflexivity. Qed.

Lemma alloc_eq (c : cell) (σ : store) :
  exists l, σ !! l = None /\ alloc c σ = Some (l, <[l := c]> σ).
Proof.
  exists (fresh (dom σ)). split; [|reflexivity].
  apply not_elem_of_dom, is_fresh.
Qed.

Lemma read_object_eq (l : loc) (o : ContextObj) (σ : store) :
  σ !! l = Some (Obj o) -> read_object l σ = Some (o, σ).
Proof. intros H. unfold read_object. rewrite H. reflexivity. Qed.

Lemma read_array_eq (l : loc) (a : list Message) (σ : store) :
  σ !! l = Some (Arr a) -> read_array l σ = Some (a, σ).
Proof. intros H. unfold read_array. rewrite H. reflexivity. Qed.

Lemma write_array_eq (l : loc) (a0 a : list Message) (σ : store) :
  σ !! l = Some (Arr a0) -> write_array l a σ = Some (tt, <[l := Arr a]> σ).
Proof. intros H. unfold write_array. rewrite H. reflexivity. Qed.

Lemma array_unshift_eq (l : loc) (a : list Message) (m : Message) (σ : store) :
  σ !! l = Some (Arr a) -> array_unshift l m σ = Some (tt, <[l := Arr (m :: a)]> σ).
Proof.
  intros H. unfold array_unshift.
  rewrite (bind_eq _ _ _ _ _ (read_array_eq _ _ _ H)).
  apply (write_array_eq _ a), H.
Qed.

Lemma array_push_eq (l : loc) (a ms : list Message) (σ : store) :
  σ !! l = Some (Arr a) -> array_push l ms σ = Some (tt, <[l := Arr (a ++ ms)]> σ).
Proof.
  intros H. unfold array_push.
  rewrite (bind_eq _ _ _ _ _ (read_array_eq _ _ _ H)).
  apply (write_array_eq _ a), H.
Qed.

(** The store-level loop writes to the [included] array only, and leaves
    in it what the value-level loop computes. *)
Lemma walk_eq (inc : loc) (maxTokens : JS.Number) (pending : list Message) :
  forall (total : Q) (a : list Message) (σ : store),
    σ !! inc = Some (Arr a) ->
    Store.walk inc maxTokens total pending σ =
      Some (tt, <[inc := Arr (Context.walk maxTokens total a pending)]> σ).
Proof.
  induction pending as [|msg pending IH]; intros total a σ Hinc.
  - cbn. rewrite insert_id by exact Hinc. reflexivity.
  - cbn [Store.walk Context.walk].
    destruct (JS.gt _ _).
    + cbn. rewrite insert_id by exact Hinc. reflexivity.
    + rewrite (bind_eq _ _ _ _ _ (array_unshift_eq _ _ msg _ Hinc)).
      rewrite (IH _ (msg :: a)) by apply lookup_insert_eq.
      rewrite insert_insert_eq. reflexivity.
Qed.

Lemma addMessage_store (σ : store) (ctx : loc) (v : AgentContext) (m : Message) :
  value_of σ ctx = Some v ->
  exists (ctx' : loc) (σ' : store),
    Store.addMessage ctx m σ = Some (ctx', σ')
    /\ σ !! ctx' = None
    /\ untouched σ σ'
    /\ value_of σ' ctx' = Some (Context.addMessage v m).
Proof.
  unfold value_of. intros Hv.
  destruct (σ !! ctx) as [[|o]|] eqn:Hctx; try discriminate.
  destruct (σ !! o_messages o) as [[a|]|] eqn:Harr; try discriminate.
  injection Hv as <-.
  destruct (alloc_eq (Arr (a ++ [m])) σ) as (l1 & Hl1 & E1).
  set (σ1 := <[l1 := Arr (a ++ [m])]> σ) in *.
  set (o' := {| o_messages := l1; o_taskProgress := o_taskProgress o;
                o_lastMessage := Some (content m); o_skills := o_skills o;
                o_config := o_config o |}).
  destruct (alloc_eq (Obj o') σ1) as (l2 & Hl2 & E2).
  exists l2, (<[l2 := Obj o']> σ1).
  apply lookup_insert_None in Hl2 as [Hl2 Hne].
  split; [|split; [exact Hl2|split]].
  - unfold Store.addMessage.
    rewrite (bind_eq _ _ _ _ _ (read_object_eq _ _ _ Hctx)).
    rewrite (bind_eq _ _ _ _ _ (read_array_eq _ _ _ Harr)).
    rewrite (bind_eq _ _ _ _ _ E1). exact E2.
  - apply untouched_insert_new; [|exact Hl2].
    apply untouched_insert_new; [apply untouched_refl|exact Hl1].
  - rewrite lookup_insert_eq. cbn [o_messages o'].
    rewrite lookup_insert_ne by congruence.
    unfold σ1. rewrite lookup_insert_eq. reflexivity.
Qed.

Lemma updateProgress_store (σ : store) (ctx : loc) (v : AgentContext) (p : JS.Number) :
  value_of σ ctx = Some v ->
  exists (ctx' : loc) (σ' : store),
    Store.updateProgress ctx p σ = Some (ctx', σ')
    /\ σ !! ctx' = None
    /\ untouched σ σ'
    /\ value_of σ' ctx' = Some (Context.updateProgress v p).
Proof.
  unfold value_of. intros Hv.
  destruct (σ !! ctx) as [[|o]|] eqn:Hctx; try discriminate.
  destruct (σ !! o_messages o) as [[a|]|] eqn:Harr; try discriminate.
  injection Hv as <-.
  set (o' := {| o_messages := o_messages o; o_taskProgress := Context.clamp p;
                o_lastMessage := o_lastMessage o; o_skills := o_skills o;
                o_config := o_config o |}).
  destruct (alloc_eq (Obj o') σ) as (l & Hl & E).
  exists l, (<[l := Obj o']> σ).
  split; [|split; [exact Hl|split]].
  - unfold Store.updateProgress.
    rewrite (bind_eq _ _ _ _ _ (read_object_eq _ _ _ Hctx)). exact E.
  - apply untouched_insert_new; [apply untouched_refl|exact Hl].
  - rewrite lookup_insert_eq. cbn [o_messages o'].
    rewrite lookup_insert_ne by congruence.
    rewrite Harr. reflexivity.
Qed.

Lemma getConversationHistory_store (σ : store) (ctx : loc) (v : AgentContext)
    (maxTokens : JS.Number) :
  value_of σ ctx = Some v ->
  exists (result : loc) (σ' : store),
    Store.getConversationHistory ctx maxTokens σ = Some (result, σ')
    /\ σ !! result = None
    /\ untouched σ σ'
    /\ σ' !! result = Some (Arr (Context.getConversationHistory v maxTokens)).
Proof.
  unfold value_of. intros Hv.
  destruct (σ !! ctx) as [[|o]|] eqn:Hctx; try discriminate.
  destruct (σ !! o_messages o) as [[a|]|] eqn:Harr; try discriminate.
  injection Hv as <-.
  unfold Context.getConversationHistory. cbn [messages].
  set (sys := find is_system a).
  set (total := match sys with Some m => (0 + Context.msgTokens m)%Q | None => 0%Q end).
  set (nonsys := filter (fun m => non_system m) a).
  destruct (alloc_eq (Arr []) σ) as (r & Hr & E1).
  set (σ1 := <[r := Arr []]> σ) in *.
  assert (Hmsgs1 : σ1 !! o_messages o = Some (Arr a)).
  { unfold σ1. rewrite lookup_insert_ne by congruence. exact Harr. }
  destruct (alloc_eq (Arr nonsys) σ1) as (f & Hf & E2).
  set (σ2 := <[f := Arr nonsys]> σ1) in *.
  apply lookup_insert_None in Hf as [Hf Hrf].
  set (σ3 := <[f := Arr (rev nonsys)]> σ2).
  destruct (alloc_eq (Arr []) σ3) as (inc & Hinc & E3).
  set (σ4 := <[inc := Arr []]> σ3) in *.
  unfold σ3, σ2 in Hinc.
  apply lookup_insert_None in Hinc as [Hinc Hfi].
  apply lookup_insert_None in Hinc as [Hinc _].
  apply lookup_insert_None in Hinc as [Hinc Hri].
  set (included := Context.walk maxTokens total [] (rev nonsys)).
  set (σ5 := <[inc := Arr included]> σ4).
  set (head := match sys with Some m => [m] | None => [] end).
  set (σ6 := <[r := Arr head]> σ5).
  exists r, (<[r := Arr (head ++ included)]> σ6).
  split; [|split; [exact Hr|split]].
  - unfold Store.getConversationHistory.
    rewrite (bind_eq _ _ _ _ _ (read_object_eq _ _ _ Hctx)).
    rewrite (bind_eq _ _ _ _ _ E1).
    rewrite (bind_eq _ _ _ _ _ (read_array_eq _ _ _ Hmsgs1)).
    fold sys. fold total.
    assert (E2' : array_filter non_system (o_messages o) σ1 = Some (f, σ2)).
    { unfold array_filter.
      rewrite (bind_eq _ _ _ _ _ (read_array_eq _ _ _ Hmsgs1)). exact E2. }
    rewrite (bind_eq _ _ _ _ _ E2').
    assert (E2r : array_reverse f σ2 = Some (f, σ3)).
    { unfold array_reverse.
      rewrite (bind_eq _ _ _ _ _ (read_array_eq f nonsys σ2 (lookup_insert_eq _ _ _))).
      rewrite (bind_eq _ _ _ _ _ (write_array_eq f nonsys (rev nonsys) σ2 (lookup_insert_eq _ _ _))).
      reflexivity. }
    rewrite (bind_eq _ _ _ _ _ E2r).
    rewrite (bind_eq _ _ _ _ _ E3).
    assert (Hf4 : σ4 !! f = Some (Arr (rev nonsys))).
    { unfold σ4, σ3. rewrite lookup_insert_ne by congruence. apply lookup_insert_eq. }
    rewrite (bind_eq _ _ _ _ _ (read_array_eq _ _ _ Hf4)).
    rewrite (bind_eq _ _ _ _ _ (walk_eq inc maxTokens (rev nonsys) total [] σ4 (lookup_insert_eq _ _ _))).
    fold included. fold σ5.
    assert (Hr5 : σ5 !! r = Some (Arr [])).
    { unfold σ5, σ4, σ3, σ2, σ1.
      rewrite !lookup_insert_ne by congruence. apply lookup_insert_eq. }
    assert (E6 : (match sys with
                  | Some m => array_push r [m]
                  | None => mret tt
                  end) σ5 = Some (tt, σ6)).
    { unfold σ6, head. destruct sys.
      - apply (array_push_eq r []), Hr5.
      - unfold mret, M_ret. rewrite insert_id by exact Hr5. reflexivity. }
    rewrite (bind_eq _ _ _ _ _ E6).
    assert (Hi6 : σ6 !! inc = Some (Arr included)).
    { unfold σ6, σ5. rewrite lookup_insert_ne by congruence. apply lookup_insert_eq. }
    rewrite (bind_eq _ _ _ _ _ (read_array_eq _ _ _ Hi6)).
    rewrite (bind_eq _ _ _ _ _ (array_push_eq r head included σ6 (lookup_insert_eq _ _ _))).
    reflexivity.
  - repeat (apply untouched_insert_new; [|assumption]). apply untouched_refl.
  - rewrite lookup_insert_eq. unfold head. destruct sys; reflexivity.
Qed.

End ContextStore.

Section ContextClaims.

Import Store.
Local Open Scope Q_scope.

Lemma untouched_value_of (σ σ' : store) (ctx : loc) (v : AgentContext) :
  untouched σ σ' -> value_of σ ctx = Some v -> value_of σ' ctx = Some v.
Proof.
  unfold value_of. intros Hun Hv.
  destruct (σ !! ctx) as [[|o]|] eqn:Hctx; try discriminate.
  destruct (σ !! o_messages o) as [[a|]|] eqn:Harr; try discriminate.
  rewrite (Hun ctx), Hctx by (rewrite Hctx; eauto).
  rewrite (Hun (o_messages o)), Harr by (rewrite Harr; eauto).
  exact Hv.
Qed.

(** C8.  [addMessage] and [updateProgress] allocate the context they
    return and write to no cell of the store they are called in, so the
    input context denotes the same value afterwards.  The new context of
    [addMessage] has one message more and the content of [m] as
    [lastMessage].  That of [updateProgress] has its progress within
    [0, 100] for every number [p] other than [NaN], the infinities
    included: 0 for -10 and 100 for 150.  At [NaN] the clamp returns
    [NaN], which is not within [0, 100]. *)
Theorem C8_context_updates (σ : store) (ctx : loc) (v : AgentContext)
    (m : Message) (p : JS.Number) :
  value_of σ ctx = Some v ->
  (exists (ctx' : loc) (σ' : store) (v' : AgentContext),
      Store.addMessage ctx m σ = Some (ctx', σ')
      /\ σ !! ctx' = None
      /\ untouched σ σ'
      /\ value_of σ' ctx = Some v
      /\ value_of σ' ctx' = Some v'
      /\ v' = Context.addMessage v m
      /\ length (messages v') = S (length (messages v))
      /\ lastMessage v' = Some (content m))
  /\ (exists (ctx' : loc) (σ' : store) (v' : AgentContext),
      Store.updateProgress ctx p σ = Some (ctx', σ')
      /\ σ !! ctx' = None
      /\ untouched σ σ'
      /\ value_of σ' ctx = Some v
      /\ value_of σ' ctx' = Some v'
      /\ v' = Context.updateProgress v p
      /\ (p <> JS.NaN -> in_range (taskProgress v')))
  /\ taskProgress (Context.updateProgress v (JS.Num (-10))) = JS.Num 0
  /\ taskProgress (Context.updateProgress v (JS.Num 150)) = JS.Num 100
  /\ taskProgress (Context.updateProgress v JS.NaN) = JS.NaN
  /\ ~ in_range (taskProgress (Context.updateProgress v JS.NaN)).
Proof.
  intros Hv. split; [|split; [|repeat split; cbn; auto]].
  - destruct (addMessage_store σ ctx v m Hv) as (ctx' & σ' & E & Hnew & Hun & Hv').
    exists ctx', σ', (Context.addMessage v m).
    repeat split; try assumption.
    + eapply untouched_value_of; eassumption.
    + apply addMessage_length.
  - destruct (updateProgress_store σ ctx v p Hv) as (ctx' & σ' & E & Hnew & Hun & Hv').
    exists ctx', σ', (Context.updateProgress v p).
    split; [exact E|]. split; [exact Hnew|]. split; [exact Hun|].
    split; [eapply untouched_value_of; eassumption|].
    split; [exact Hv'|]. split; [reflexivity|].
    apply clamp_range.
Qed.

(** C4.  [getConversationHistory] returns a new array and writes to no
    cell of the store it is called in.  The array starts with the first
    system message of the context, whatever number [maxTokens] is, and
    goes on with a suffix [included] of the non-system messages, in
    their order: the longest one whose characters, together with those
    of the system message, do not exceed [maxTokens] at a quarter token
    each; the message in front of it, if any, would exceed it. *)
Theorem C4_history_window (σ : store) (ctx : loc) (v : AgentContext)
    (maxTokens : JS.Number) :
  value_of σ ctx = Some v ->
  exists (result : loc) (σ' : store) (dropped included : list Message),
    Store.getConversationHistory ctx maxTokens σ = Some (result, σ')
    /\ untouched σ σ'
    /\ value_of σ' ctx = Some v
    /\ σ' !! result =
         Some (Arr (option_list (find is_system (messages v)) ++ included))
    /\ filter (fun m => non_system m) (messages v) = dropped ++ included
    /\ (included <> [] ->
          exceeds (quarter (system_chars (messages v) + chars included)) maxTokens = false)
    /\ (forall older msg, dropped = older ++ [msg] ->
          exceeds (quarter (system_chars (messages v) + chars included
                            + JS.len (content msg))) maxTokens = true).
Proof.
  intros Hv.
  destruct (getConversationHistory_store σ ctx v maxTokens Hv)
    as (result & σ' & E & Hnew & Hun & Hres).
  destruct (getConversationHistory_spec v maxTokens)
    as (dropped & included & Hsplit & Hout & Hin & Hmax).
  exists result, σ', dropped, included.
  rewrite Hout in Hres.
  repeat split; try assumption.
  eapply untouched_value_of; eassumption.
Qed.

End ContextClaims.

Lemma C8_context_updates_witness :
  Store.value_of sample_store 1%positive = Some sample_context
  /\ JS.PosInfinity <> JS.NaN
  /\ in_range (taskProgress (Context.updateProgress sample_context JS.PosInfinity)).
Proof.
  split; [reflexivity|]. split; [discriminate|].
  destruct (C8_context_updates sample_store 1%positive sample_context
              (mkMessage assistant "second answer") JS.PosInfinity eq_refl)
    as (_ & (ctx' & σ' & v' & _ & _ & _ & _ & _ & -> & Hrange) & _).
  apply Hrange. discriminate.
Defined.

Lemma C4_history_window_witness :
  exists (result : positive) (σ' : gmap positive Store.cell) (included : list Message),
    Store.getConversationHistory 1%positive (JS.Num 5) sample_store = Some (result, σ')
    /\ σ' !! result = Some (Store.Arr (mkMessage system "be brief" :: included)).
Proof.
  destruct (C4_history_window sample_store 1%positive sample_context (JS.Num 5) eq_refl)
    as (result & σ' & dropped & included & E & _ & _ & Hres & _).
  exists result, σ', included. split; [exact E|exact Hres].
Defined.

(** ** Compaction *)

Section CompactionFacts.

Import Compaction.

Lemma simpleCompact_noop (ms : list Message) (options : CompactionOptions) :
  usage_of ms options <= target_of options ->
  simpleCompact ms options =
    {| messages := ms;
       originalTokens := usage_of ms options;
       compactedTokens := usage_of ms options;
       savedTokens := 0;
       savedPercentage := JS.Num 0%Q;
       summary := None |}.
Proof.
  unfold usage_of, target_of, simpleCompact. intros H.
  apply Z.leb_le in H. rewrite H. reflexivity.
Qed.

(** Without a provider or a model, and when nothing is older than the
    recent messages, [llmCompact] is [simpleCompact]. *)
Lemma llmCompact_fallback (ms : list Message) (options : CompactionOptions) :
  provider options = None \/ given (model options) = None
  \/ JS.slice (filter (fun m => non_system m) ms) 0
       (Some (- default default_keepRecent (keepRecent options))) = [] ->
  llmCompact ms options = simpleCompact ms options.
Proof.
  unfold llmCompact. intros [H|[H|H]].
  - rewrite H. reflexivity.
  - rewrite H. destruct (provider options); reflexivity.
  - destruct (provider options); [|reflexivity].
    destruct (given (model options)); [|reflexivity].
    rewrite H. reflexivity.
Qed.

(** The two slices taken of the non-system messages split them. *)
Lemma slice_split {A} (a : list A) (e : Z) :
  JS.slice a 0 (Some e) ++ JS.slice a e None = a.
Proof.
  unfold JS.slice. set (n := Z.of_nat (length a)).
  assert (Hk : 0 <= JS.rel_index n e <= n).
  { unfold JS.rel_index. destruct (e <? 0) eqn:He; lia. }
  replace (JS.rel_index n 0) with 0 by (unfold JS.rel_index; cbn; lia).
  change (Z.to_nat 0) with 0%nat. rewrite drop_0, Z.sub_0_r.
  rewrite (take_ge (drop (Z.to_nat (JS.rel_index n e)) a)); [apply take_drop|].
  rewrite length_drop. lia.
Qed.

Lemma note_system (acc : list string * list string) (m : Message) :
  is_system m -> note acc m = acc.
Proof.
  unfold is_system, note. intros H. apply bool_decide_unpack in H.
  destruct acc. rewrite H. reflexivity.
Qed.

Lemma fold_note_non_system (ms : list Message) :
  forall acc, fold_left note ms acc = fold_left note (filter (fun m => non_system m) ms) acc.
Proof.
  induction ms as [|m ms IH]; intros acc; [reflexivity|].
  cbn [fold_left]. destruct (is_system m) eqn:Hsys.
  - rewrite filter_cons_False by (unfold non_system; rewrite Hsys; exact id).
    rewrite note_system by (rewrite Hsys; exact I). apply IH.
  - rewrite filter_cons_True by (unfold non_system; rewrite Hsys; exact I).
    cbn [fold_left]. apply IH.
Qed.

(** The local summary draws on user and assistant messages only. *)
Lemma createLocalSummary_non_system (ms : list Message) (focus : option string) :
  createLocalSummary ms focus =
    createLocalSummary (filter (fun m => non_system m) ms) focus.
Proof. unfold createLocalSummary. rewrite fold_note_non_system. reflexivity. Qed.

Lemma simpleCompact_compacts (ms : list Message) (options : CompactionOptions) :
  over_target ms options ->
  messages (simpleCompact ms options) =
    fst (compacted_of (find is_system ms) (filter (fun m => non_system m) ms) options)
  /\ summary (simpleCompact ms options) =
    Some (snd (compacted_of (find is_system ms) (filter (fun m => non_system m) ms) options)).
Proof.
  unfold over_target, usage_of, target_of, simpleCompact. intros H.
  apply Z.leb_gt in H. rewrite H. cbn [messages summary compacted_of fst snd].
  destruct (find is_system ms); split; reflexivity.
Qed.

Lemma createLocalSummary_nonempty (ms : list Message) (focus : option string) :
  JS.is_empty (createLocalSummary ms focus) = false.
Proof.
  unfold createLocalSummary.
  destruct (fold_left note ms ([], [])) as [u a].
  destruct (JS.is_empty (JS.join _ _)) eqn:E; [reflexivity|exact E].
Qed.

End CompactionFacts.

Section CompactionClaims.

Import Compaction.

Lemma filter_none {A} (P : A -> Prop) `{forall x, Decision (P x)} (l : list A) :
  Forall (fun x => ~ P x) l -> filter P l = [].
Proof.
  induction 1 as [|x l Hx _ IH]; [reflexivity|].
  rewrite filter_cons_False by exact Hx. exact IH.
Qed.

Lemma history_system_only (ctx : AgentContext) (maxTokens : JS.Number) :
  filter (fun m => is_system m) (Context.getConversationHistory ctx maxTokens) =
    option_list (find is_system (Types.messages ctx)).
Proof.
  destruct (getConversationHistory_spec ctx maxTokens)
    as (dropped & included & Hsplit & -> & _ & _).
  assert (Hinc : filter (fun m => is_system m) included = []).
  { apply filter_none, Forall_forall. intros m Hm.
    assert (Hin : m ∈ filter (fun m => non_system m) (Types.messages ctx)).
    { rewrite Hsplit. apply elem_of_app. right. exact Hm. }
    apply list_elem_of_filter in Hin as [Hns _].
    unfold non_system in Hns. destruct (is_system m); [destruct Hns|exact id]. }
  rewrite filter_app, Hinc, app_nil_r.
  destruct (find is_system (Types.messages ctx)) as [m|] eqn:Hfind; [|reflexivity].
  apply find_some in Hfind as [_ Hsys].
  change (option_list (Some m)) with [m].
  rewrite filter_cons_True by (rewrite Hsys; exact I). reflexivity.
Qed.

(** C10 (as amended).  Take two conversations with the same first
    system message and the same user and assistant messages, so that
    they differ in their later system messages only.
    [getConversationHistory] returns the same window for both, and the
    only system message in it is the first one.  When [simpleCompact]
    compacts (the estimate is over the target) it returns the same
    messages and the same summary for both: the first system message,
    then a synthetic summary message when there are old messages, then
    the recent non-system messages; the summary is computed from the old
    non-system messages, and [createLocalSummary] reads no system message
    at all.  When the estimate is at or under the target (for a model
    name that is no inherited property name, where the target is a
    number), [simpleCompact] returns the conversation as it is, every
    system message in it. *)
Theorem C10_later_system_messages_dropped
    (ctx ctx' : AgentContext) (maxTokens : JS.Number) (options : CompactionOptions) :
  find is_system (Types.messages ctx) = find is_system (Types.messages ctx') ->
  filter (fun m => non_system m) (Types.messages ctx)
    = filter (fun m => non_system m) (Types.messages ctx') ->
  filter (fun m => is_system m) (Context.getConversationHistory ctx maxTokens)
    = option_list (find is_system (Types.messages ctx))
  /\ Context.getConversationHistory ctx maxTokens
     = Context.getConversationHistory ctx' maxTokens
  /\ (over_target (Types.messages ctx) options ->
      over_target (Types.messages ctx') options ->
      messages (simpleCompact (Types.messages ctx) options)
        = messages (simpleCompact (Types.messages ctx') options)
      /\ summary (simpleCompact (Types.messages ctx) options)
         = summary (simpleCompact (Types.messages ctx') options)
      /\ exists old recent synthetic : list Message,
           filter (fun m => non_system m) (Types.messages ctx) = old ++ recent
           /\ messages (simpleCompact (Types.messages ctx) options)
              = option_list (find is_system (Types.messages ctx)) ++ synthetic ++ recent
           /\ (old = [] -> synthetic = [])
           /\ (old <> [] ->
               synthetic =
                 [ {| role := system;
                      content := "[Previous conversation summary]:" +:+ JS.nl
                                   +:+ createLocalSummary old (focus options) |} ]
               /\ summary (simpleCompact (Types.messages ctx) options)
                  = Some (createLocalSummary old (focus options))))
  /\ (forall (ms : list Message) (f : option string),
        createLocalSummary ms f
        = createLocalSummary (filter (fun m => non_system m) ms) f)
  /\ ((JS.toLowerCase (or_string (model options) "default") ∉ inherited_lower) ->
      usage_of (Types.messages ctx) options <= target_of options ->
      messages (simpleCompact (Types.messages ctx) options) = Types.messages ctx
      /\ summary (simpleCompact (Types.messages ctx) options) = None).
Proof.
  intros Hfirst Hrest.
  split; [apply history_system_only|].
  split; [unfold Context.getConversationHistory; rewrite Hfirst, Hrest; reflexivity|].
  split; [|split; [apply createLocalSummary_non_system|]].
  2:{ intros _ Hle. rewrite (simpleCompact_noop _ _ Hle). split; reflexivity. }
  intros Hover Hover'.
  destruct (simpleCompact_compacts _ _ Hover) as [Hm Hs].
  destruct (simpleCompact_compacts _ _ Hover') as [Hm' Hs'].
  split; [rewrite Hm, Hm', Hfirst, Hrest; reflexivity|].
  split; [rewrite Hs, Hs', Hfirst, Hrest; reflexivity|].
  rewrite Hm, Hs. unfold compacted_of. cbn [fst snd].
  set (nonsys := filter (fun m => non_system m) (Types.messages ctx)).
  set (k := default default_keepRecent (keepRecent options)).
  pose proof (slice_split nonsys (- k)) as Hsplit.
  remember (JS.slice nonsys 0 (Some (- k))) as old eqn:Hold.
  exists old, (JS.slice nonsys (- k) None).
  destruct old as [|m0 old'].
  - exists []. split; [|split; [|split]].
    + symmetry. exact Hsplit.
    + reflexivity.
    + reflexivity.
    + intros H. destruct H. reflexivity.
  - assert (Hpos : (0 <? Z.of_nat (length (m0 :: old'))) = true)
      by (apply Z.ltb_lt; cbn [length]; lia).
    rewrite Hpos, createLocalSummary_nonempty.
    eexists. split; [|split; [|split]].
    + symmetry. exact Hsplit.
    + reflexivity.
    + discriminate.
    + intros _. split; reflexivity.
Qed.

End CompactionClaims.

Lemma C10_later_system_messages_dropped_witness :
  over_target (messages (long_talk "the user is called Ada")) tight
  /\ Compaction.messages
       (Compaction.simpleCompact (messages (long_talk "the user is called Ada")) tight)
     = Compaction.messages
         (Compaction.simpleCompact (messages (long_talk "the user is called Bob")) tight).
Proof.
  split; [reflexivity|].
  apply (C10_later_system_messages_dropped
           (long_talk "the user is called Ada") (long_talk "the user is called Bob")
           (JS.Num 8000) tight); reflexivity.
Defined.

(** With the default target (4096 tokens for the default model) the same
    conversation is under the target: [simpleCompact] returns all of its
    eight messages, the later system message among them, where the claim
    has it dropped. *)
Lemma C10_counterexample :
  usage_of (messages (long_talk "the user is called Ada")) default_options
    <= target_of default_options
  /\ Compaction.messages
       (Compaction.simpleCompact (messages (long_talk "the user is called Ada"))
          default_options)
     = messages (long_talk "the user is called Ada")
  /\ mkMessage system "the user is called Ada"
       ∈ Compaction.messages
           (Compaction.simpleCompact (messages (long_talk "the user is called Ada"))
              default_options)
  /\ find is_system (messages (long_talk "the user is called Ada"))
     = Some (mkMessage system "be brief").
Proof.
  split; [vm_compute; discriminate|].
  split; [vm_compute; reflexivity|].
  split; [|reflexivity].
  apply (bool_decide_unpack _). vm_compute. exact I.
Qed.

(** C1.  When the estimate is at or under the target, [simpleCompact]
    returns its input with nothing saved, and so does [llmCompact] where
    it falls back on [simpleCompact]: without a provider or a model, or
    with nothing older than the recent messages.  Given a provider, a
    model and an older message, [llmCompact] does not look at the
    target: on five short user messages (33 estimated tokens against a
    target of 4096) it replaces the oldest message by a summary and
    reports -6 tokens saved. *)
Theorem C1_llmCompact_below_target :
  (forall (ms : list Message) (options : Compaction.CompactionOptions),
      usage_of ms options <= target_of options ->
      Compaction.messages (Compaction.simpleCompact ms options) = ms
      /\ Compaction.savedTokens (Compaction.simpleCompact ms options) = 0)
  /\ (forall (ms : list Message) (options : Compaction.CompactionOptions),
      usage_of ms options <= target_of options ->
      Compaction.provider options = None
      \/ Compaction.given (Compaction.model options) = None
      \/ JS.slice (filter (fun m => non_system m) ms) 0
           (Some (- default Compaction.default_keepRecent (Compaction.keepRecent options)))
         = [] ->
      Compaction.messages (Compaction.llmCompact ms options) = ms
      /\ Compaction.savedTokens (Compaction.llmCompact ms options) = 0)
  /\ usage_of five_questions with_provider = 33
  /\ target_of with_provider = 4096
  /\ Compaction.messages (Compaction.llmCompact five_questions with_provider)
     = mkMessage system ("[Conversation Summary]:" +:+ JS.nl +:+ "ok")
         :: drop 1 five_questions
  /\ Compaction.savedTokens (Compaction.llmCompact five_questions with_provider) = -6.
Proof.
  split; [|split].
  - intros ms options Hle. rewrite (simpleCompact_noop ms options Hle). split; reflexivity.
  - intros ms options Hle Hback.
    rewrite (llmCompact_fallback ms options Hback), (simpleCompact_noop ms options Hle).
    split; reflexivity.
  - vm_compute. repeat split.
Qed.

Lemma C1_llmCompact_below_target_witness :
  Compaction.messages (Compaction.simpleCompact five_questions with_provider)
    = five_questions
  /\ Compaction.savedTokens (Compaction.simpleCompact five_questions with_provider) = 0.
Proof.
  destruct C1_llmCompact_below_target as [Hsimple _].
  apply (Hsimple five_questions with_provider).
  vm_compute. discriminate.
Defined.

(** ** Sorting by a key, largest first *)

Section SortByKey.

Context {A : Type} (key : A -> Z).

Let cmp (a b : A) : Z := key b - key a.

Lemma insert_by_perm (x : A) (l : list A) : JS.insert_by cmp x l ≡ₚ x :: l.
Proof.
  induction l as [|y l IH]; cbn; [reflexivity|].
  destruct (cmp x y <=? 0); [reflexivity|].
  rewrite IH. apply Permutation_swap.
Qed.

Lemma sort_perm (l : list A) : JS.sort cmp l ≡ₚ l.
Proof.
  induction l as [|x l IH]; cbn; [reflexivity|].
  fold (JS.sort cmp l). rewrite insert_by_perm, IH. reflexivity.
Qed.

Lemma insert_by_descending (x : A) (l : list A) :
  descending key l -> descending key (JS.insert_by cmp x l).
Proof.
  unfold descending. induction 1 as [|y l Hl IH Hy]; cbn.
  - repeat constructor.
  - destruct (cmp x y <=? 0) eqn:Hc; unfold cmp in Hc.
    + apply Z.leb_le in Hc.
      constructor; [constructor; assumption|].
      constructor; [lia|].
      eapply Forall_impl; [exact Hy|]. cbn. intros; lia.
    + apply Z.leb_gt in Hc.
      constructor; [exact IH|].
      rewrite insert_by_perm.
      constructor; [lia|exact Hy].
Qed.

Lemma sort_descending (l : list A) : descending key (JS.sort cmp l).
Proof.
  induction l as [|x l IH]; cbn; [constructor|].
  apply insert_by_descending, IH.
Qed.

(** Stability: the entries with a given key keep their order. *)
Lemma insert_by_stable (n : Z) (x : A) (l : list A) :
  filter (fun a => key a = n) (JS.insert_by cmp x l)
  = filter (fun a => key a = n) (x :: l).
Proof.
  induction l as [|y l IH]; cbn [JS.insert_by]; [reflexivity|].
  destruct (cmp x y <=? 0) eqn:Hc; [reflexivity|].
  apply Z.leb_gt in Hc. unfold cmp in Hc.
  rewrite (filter_cons _ y), IH, !(filter_cons _ x), (filter_cons _ y).
  repeat case_decide; try reflexivity; lia.
Qed.

Lemma sort_stable (n : Z) (l : list A) :
  filter (fun a => key a = n) (JS.sort cmp l) = filter (fun a => key a = n) l.
Proof.
  induction l as [|x l IH]; cbn [JS.sort foldr]; [reflexivity|].
  fold (JS.sort cmp l). rewrite insert_by_stable, !(filter_cons _ x), IH.
  reflexivity.
Qed.

Lemma sort_nil_iff (l : list A) : JS.sort cmp l = [] <-> l = [].
Proof.
  split; [|intros ->; reflexivity].
  intros H. apply Permutation_nil_r. rewrite <- H. symmetry. apply sort_perm.
Qed.

End SortByKey.

(** ** Skill routing *)

Lemma filter_fmap {A B} (f : A -> B) (P : B -> Prop) `{forall y, Decision (P y)}
    (l : list A) :
  filter P (f <$> l) = f <$> filter (fun x => P (f x)) l.
Proof.
  induction l as [|x l IH]; [reflexivity|].
  cbn [fmap list_fmap]. rewrite !filter_cons, IH.
  destruct (decide (P (f x))); reflexivity.
Qed.

Section MatcherClaims.

Import Matcher.

Variable RegExp_i : string -> string + (string -> bool).

(** An iteration throws the error of its skill's trigger, and otherwise
    rates the skill by the first rule that fires. *)
Lemma rate_first_rule (input : string) (s : Skill) :
  match trigger_error RegExp_i s with
  | Some error => rate RegExp_i input s = inl error
  | None =>
      exists reason, rate RegExp_i input s = inr (first_rule_score RegExp_i input s, reason)
  end.
Proof.
  unfold rate, trigger_error, first_rule_score, trigger_fires, name_found, matched_occurrences.
  assert (Hrest : forall st1 : Z * string,
            (st1 = (0, EmptyString) \/ st1 = (100, "Trigger pattern matched"%string)) ->
            exists reason,
              (let st2 :=
                 if (fst st1 =? 0)%Z
                    && JS.includes (JS.toLowerCase input) (JS.toLowerCase (name s))
                 then (80, "Skill name found in input"%string) else st1 in
               if (fst st2 =? 0)%Z then
                 if (0 <? Z.of_nat (length (filter (fun k => bool_decide (k ∈ extractKeywords input))
                                                   (extractKeywords (description s)))))%Z
                 then (Z.min 60 (Z.of_nat (length (filter (fun k => bool_decide (k ∈ extractKeywords input))
                                                          (extractKeywords (description s)))) * 15),
                       ("Matched keywords: "
                          +:+ JS.join ", " (filter (fun k => bool_decide (k ∈ extractKeywords input))
                                                   (extractKeywords (description s))))%string)
                 else st2
               else st2)
              = ((if (fst st1 =? 100)%Z then 100
                  else if JS.includes (JS.toLowerCase input) (JS.toLowerCase (name s)) then 80
                  else Z.min 60 (15 * Z.of_nat (length (filter (fun k => bool_decide (k ∈ extractKeywords input))
                                                               (extractKeywords (description s)))))),
                 reason)).
  { intros st1 [->| ->]; cbn [fst Z.eqb andb]; cbv zeta.
    - destruct (JS.includes _ _); cbn [fst Z.eqb]; [eauto|].
      destruct (0 <? Z.of_nat (length _))%Z eqn:Hlen; cbn [fst].
      + rewrite Z.mul_comm. eauto.
      + apply Z.ltb_ge in Hlen. eexists. f_equal. lia.
    - eauto. }
  destruct (trigger s) as [pattern|].
  - destruct (JS.is_empty pattern); cbn [negb andb].
    + destruct (Hrest (0, EmptyString) ltac:(left; reflexivity)) as [reason Hr].
      exists reason. f_equal. exact Hr.
    + destruct (RegExp_i pattern) as [error|triggerRegex]; [reflexivity|].
      destruct (triggerRegex input).
      * destruct (Hrest (100, "Trigger pattern matched"%string) ltac:(right; reflexivity))
          as [reason Hr].
        exists reason. f_equal. exact Hr.
      * destruct (Hrest (0, EmptyString) ltac:(left; reflexivity)) as [reason Hr].
        exists reason. f_equal. exact Hr.
  - destruct (Hrest (0, EmptyString) ltac:(left; reflexivity)) as [reason Hr].
    exists reason. f_equal. exact Hr.
Qed.

Lemma first_trigger_error_cons (s : Skill) (skills : list Skill) :
  first_trigger_error RegExp_i (s :: skills)
  = match trigger_error RegExp_i s with
    | Some error => Some error
    | None => first_trigger_error RegExp_i skills
    end.
Proof.
  unfold first_trigger_error. cbn [omap list_omap].
  destruct (trigger_error RegExp_i s); reflexivity.
Qed.

(** The loop throws the first error there is, and otherwise collects
    the skills with a positive score in input order. *)
Lemma collect_view (input : string) (skills : list Skill) :
  forall results,
    match first_trigger_error RegExp_i skills with
    | Some error => collect RegExp_i input skills results = inl error
    | None =>
        exists collected,
          collect RegExp_i input skills results = inr collected
          /\ view <$> collected = (view <$> results) ++ candidates RegExp_i input skills
    end.
Proof.
  unfold candidates.
  induction skills as [|s skills IH]; intros results.
  - cbn. exists results. rewrite app_nil_r. auto.
  - rewrite first_trigger_error_cons. cbn [collect fmap list_fmap].
    pose proof (rate_first_rule input s) as Hrate.
    destruct (trigger_error RegExp_i s) as [error|].
    + rewrite Hrate. reflexivity.
    + destruct Hrate as [reason ->]. rewrite filter_cons. cbn [snd].
      match goal with
      | |- context [collect _ _ _ ?rs] => specialize (IH rs)
      end.
      destruct (first_trigger_error RegExp_i skills) as [error|]; [exact IH|].
      destruct IH as (collected & Hc & Hv). exists collected. split; [exact Hc|].
      rewrite Hv.
      destruct (0 <? first_rule_score RegExp_i input s) eqn:Hpos.
      * apply Z.ltb_lt in Hpos. rewrite decide_True by exact Hpos.
        rewrite fmap_app, <- app_assoc. reflexivity.
      * apply Z.ltb_ge in Hpos. rewrite decide_False by lia. reflexivity.
Qed.

Lemma matchSkills_sorted_view (input : string) (skills : list Skill) :
  match first_trigger_error RegExp_i skills with
  | Some error => matchSkills RegExp_i input skills = inl error
  | None =>
      exists results,
        matchSkills RegExp_i input skills
        = inr (JS.sort (fun a b => score b - score a) results)
        /\ view <$> results = candidates RegExp_i input skills
  end.
Proof.
  unfold matchSkills. pose proof (collect_view input skills []) as H.
  destruct (first_trigger_error RegExp_i skills) as [error|].
  - rewrite H. reflexivity.
  - destruct H as (collected & -> & Hv). exists collected. split; [reflexivity|exact Hv].
Qed.

(** [matchSkills] throws exactly the first error there is. *)
Lemma matchSkills_throws (input : string) (skills : list Skill) (error : string) :
  matchSkills RegExp_i input skills = inl error
  <-> first_trigger_error RegExp_i skills = Some error.
Proof.
  pose proof (matchSkills_sorted_view input skills) as H.
  destruct (first_trigger_error RegExp_i skills) as [e|].
  - rewrite H. split; congruence.
  - destruct H as (results & -> & _). split; discriminate.
Qed.

Lemma size_list_to_set_cons (x : string) (l : list string) :
  size (list_to_set (C := gset string) (x :: l))
  = ((if decide (x ∈ l) then 0 else 1) + size (list_to_set (C := gset string) l))%nat.
Proof.
  cbn [list_to_set]. destruct (decide (x ∈ l)) as [Hin|Hout].
  - cbn [Nat.add]. f_equal. apply set_eq. intros y. rewrite elem_of_union, elem_of_singleton, elem_of_list_to_set.
    split; [intros [->|H]; assumption|auto].
  - rewrite size_union, size_singleton; [reflexivity|].
    intros y Hy Hy'. apply elem_of_singleton in Hy. subst y.
    apply elem_of_list_to_set in Hy'. exact (Hout Hy').
Qed.

Lemma size_list_to_set_length (l : list string) :
  (size (list_to_set (C := gset string) l) <= length l)%nat
  /\ (length l = size (list_to_set (C := gset string) l) <-> NoDup l).
Proof.
  induction l as [|x l [IHle IHiff]].
  - split; [cbn [list_to_set length]; rewrite size_empty; lia|].
    split; [constructor|intros _; cbn [list_to_set length]; rewrite size_empty; reflexivity].
  - rewrite size_list_to_set_cons. cbn [length].
    destruct (decide (x ∈ l)) as [Hin|Hout]; (split; [lia|]).
    + split; [lia|]. intros Hnd. apply NoDup_cons in Hnd as [Hx _]. contradiction.
    + rewrite NoDup_cons, <- IHiff. split; [intros H; split; [exact Hout|lia]|intros [_ H]; lia].
Qed.

(** The matched occurrences list the shared keywords, each as often as
    the description repeats it. *)
Lemma occurrences_shared (input : string) (s : Skill) :
  (size (shared_keywords input s) <= length (matched_occurrences input s))%nat
  /\ (length (matched_occurrences input s) = size (shared_keywords input s)
      <-> NoDup (matched_occurrences input s)).
Proof.
  assert (Hset : shared_keywords input s
                 = list_to_set (C := gset string) (matched_occurrences input s)).
  { unfold matched_occurrences, shared_keywords. apply set_eq. intros k.
    rewrite elem_of_list_to_set, list_elem_of_filter, elem_of_intersection,
      !elem_of_list_to_set, bool_decide_spec.
    tauto. }
  rewrite Hset. apply size_list_to_set_length.
Qed.

End MatcherClaims.

(** C5 (as amended).  [matchSkills] and [findBestSkill] throw exactly
    when a skill has a non-empty trigger that is no regular expression,
    and then the error of the first such skill.  Otherwise each entry of
    [matchSkills] carries the score of the first rule that fires for its
    skill: 100 for a non-empty trigger that matches, else 80 for the
    lower-cased name found in the lower-cased input, else [min 60 (15 * n)]
    where [n] counts the keyword occurrences of the description that are
    keywords of the input.  The entries are the skills with a positive
    score; they are sorted by descending score and entries of equal score
    keep their input order.  [findBestSkill] is the skill of the first
    entry, and is [null] exactly when there is no entry.  The count [n]
    is at least the number of keywords shared with the input, and is that
    number exactly when no shared keyword is repeated in the description;
    the score is then the one the claim gives. *)
Theorem C5_matchSkills_ranking
    (RegExp_i : string -> string + (string -> bool)) (input : string) (skills : list Skill) :
  (forall error,
      Matcher.matchSkills RegExp_i input skills = inl error
      <-> first_trigger_error RegExp_i skills = Some error)
  /\ (forall error,
        Matcher.findBestSkill RegExp_i input skills = inl error
        <-> first_trigger_error RegExp_i skills = Some error)
  /\ (first_trigger_error RegExp_i skills = None ->
      exists ranked,
        Matcher.matchSkills RegExp_i input skills = inr ranked
        /\ (forall r, r ∈ ranked ->
              Matcher.score r = first_rule_score RegExp_i input (Matcher.skill r)
              /\ 0 < Matcher.score r)
        /\ view <$> ranked ≡ₚ candidates RegExp_i input skills
        /\ descending Matcher.score ranked
        /\ (forall n : Z,
              view <$> filter (fun r => Matcher.score r = n) ranked
              = filter (fun c => snd c = n) (candidates RegExp_i input skills))
        /\ Matcher.findBestSkill RegExp_i input skills = inr (Matcher.skill <$> head ranked)
        /\ (Matcher.findBestSkill RegExp_i input skills = inr None <-> ranked = []))
  /\ (forall s : Skill,
        (size (shared_keywords input s) <= length (matched_occurrences input s))%nat
        /\ (length (matched_occurrences input s) = size (shared_keywords input s)
            <-> NoDup (matched_occurrences input s))
        /\ (NoDup (matched_occurrences input s) ->
            first_rule_score RegExp_i input s = claimed_score RegExp_i input s)).
Proof.
  split; [intros error; apply matchSkills_throws|].
  split.
  { intros error. rewrite <- matchSkills_throws with (input := input).
    unfold Matcher.findBestSkill.
    destruct (Matcher.matchSkills RegExp_i input skills) as [e|ms]; split; congruence. }
  split.
  - intros Hvalid.
    pose proof (matchSkills_sorted_view RegExp_i input skills) as Hsorted.
    rewrite Hvalid in Hsorted. destruct Hsorted as (results & Hsort & Hview).
    set (ranked := JS.sort (fun a b => Matcher.score b - Matcher.score a) results) in *.
    exists ranked. split; [exact Hsort|].
    assert (Hperm : view <$> ranked ≡ₚ candidates RegExp_i input skills).
    { subst ranked. rewrite <- Hview. apply fmap_Permutation, sort_perm. }
    split; [|split; [exact Hperm|split; [|split; [|split]]]].
    + intros r Hr.
      assert (Hin : view r ∈ candidates RegExp_i input skills).
      { rewrite <- Hperm. apply list_elem_of_fmap. exists r. split; [reflexivity|exact Hr]. }
      unfold candidates in Hin. apply list_elem_of_filter in Hin as [Hpos Hin].
      apply list_elem_of_fmap in Hin as (s & Heq & _).
      unfold view in Heq, Hpos. cbn [snd] in Hpos. injection Heq as Hs Hsc.
      split; [rewrite Hs; exact Hsc|exact Hpos].
    + subst ranked. apply sort_descending.
    + intros n. subst ranked. rewrite sort_stable, <- Hview.
      rewrite (filter_fmap view (fun c => snd c = n)). reflexivity.
    + unfold Matcher.findBestSkill. rewrite Hsort. destruct ranked; reflexivity.
    + unfold Matcher.findBestSkill. rewrite Hsort. destruct ranked; split; congruence.
  - intros s. destruct (occurrences_shared RegExp_i input s) as [Hle Hiff].
    split; [exact Hle|]. split; [exact Hiff|].
    intros Hnd. apply Hiff in Hnd. unfold first_rule_score, claimed_score.
    rewrite Hnd. reflexivity.
Qed.

(** Three skills against one input: the trigger of the first matches,
    the second shares a keyword twice, the third shares nothing. *)
Lemma C5_matchSkills_ranking_witness :
  exists first second,
    Matcher.matchSkills literal_engine "run the test workflow"
      [ review_skill; testing_skill; deploy_skill ] = inr [ first; second ]
    /\ Matcher.skill first = testing_skill /\ Matcher.score first = 100
    /\ Matcher.skill second = review_skill /\ Matcher.score second = 30
    /\ Matcher.findBestSkill literal_engine "run the test workflow"
         [ review_skill; testing_skill; deploy_skill ] = inr (Some testing_skill).
Proof.
  destruct (C5_matchSkills_ranking literal_engine "run the test workflow"
              [ review_skill; testing_skill; deploy_skill ])
    as (_ & _ & Hranked & _).
  destruct (Hranked eq_refl) as (ranked & Hmatch & _ & _ & _ & _ & Hbest & _).
  assert (Hcomputed : Matcher.matchSkills literal_engine "run the test workflow"
                        [ review_skill; testing_skill; deploy_skill ]
                      = inr [ Matcher.mkMatch testing_skill 100 "Trigger pattern matched";
                              Matcher.mkMatch review_skill 30
                                "Matched keywords: workflow, workflow" ])
    by (vm_compute; reflexivity).
  rewrite Hcomputed in Hmatch. injection Hmatch as <-.
  do 2 eexists. split; [exact Hcomputed|].
  do 4 (split; [reflexivity|]). exact Hbest.
Defined.

(** The keyword rule of the claim counts shared keywords; on a
    description that repeats one the code scores every occurrence.  And
    a trigger that is no regular expression makes [matchSkills] throw,
    where the claim has a ranking for every skill list. *)
Lemma C5_counterexample :
  (exists r,
     Matcher.matchSkills never_matches "check the workflow" [review_skill] = inr [r]
     /\ Matcher.score r = 30
     /\ claimed_score never_matches "check the workflow" (Matcher.skill r) = 15)
  /\ Matcher.matchSkills literal_engine "check the workflow" [review_skill; broken_skill]
     = inl "Invalid regular expression: /(/: Unterminated group"%string.
Proof. split; [eexists|]; vm_compute; repeat split. Qed.

(** ** The turn loop *)

Section RunnerFacts.

Import Runner.

Variable RegExp_i : string -> string + (string -> bool).
Variable clock : nat -> Z.
Variable initialPrompt : string.
Variable options : AgentRunnerOptions.

Local Abbreviation limit := (turn_limit options).
Local Abbreviation loop := (Runner.loop RegExp_i clock initialPrompt options).
Local Abbreviation turn := (Runner.turn RegExp_i initialPrompt options).



(** [turnCount] only grows, and never beyond the limit. *)
Lemma loop_turns (fuel : nat) :
  forall turnCount context stopWindow out run,
    loop fuel turnCount context stopWindow out = Some run ->
    (turnCount <= turns run <= Nat.max turnCount limit)%nat.
Proof.
  induction fuel as [|fuel IH]; intros turnCount context stopWindow out run; cbn [Runner.loop].
  - destruct (turnCount <? limit)%nat; [discriminate|].
    intros [= <-]. cbn. lia.
  - destruct (turnCount <? limit)%nat eqn:Hlt; [|intros [= <-]; cbn; lia].
    apply Nat.ltb_lt in Hlt.
    destruct (Runner.turn _ _ _ _ _) as [written [e|context']];
      [intros [= <-]; cbn; lia|].
    destruct (shouldContinue options) as [policy|]; [|intros [= <-]; cbn; lia].
    destruct (policy _ _) as [e|decision]; [intros [= <-]; cbn; lia|].
    destruct (continue decision); cbn [negb].
    + intros H. apply IH in H. lia.
    + destruct (3 <=? _)%nat; intros [= <-]; cbn; lia.
Qed.



(** With no turn allowed, none is run. *)
Lemma loop_no_turn (fuel turnCount : nat) context stopWindow out run :
  (limit <= turnCount)%nat ->
  loop fuel turnCount context stopWindow out = Some run ->
  turns run = turnCount /\ outcome run = inr context /\ output run = out.
Proof.
  intros Hge. apply Nat.ltb_ge in Hge.
  destruct fuel; cbn [Runner.loop]; rewrite Hge; intros [= <-]; cbn; auto.
Qed.



End RunnerFacts.





(** ** The subagent pool: the task map *)

Section TaskMap.

Import Pool.

Context {V : Type}.
Implicit Types (m : list (string * V)) (k : string) (v : V) (f : V -> V).

Lemma map_get_update_eq f m k :
  map_get (map_update f m k) k = f <$> map_get m k.
Proof.
  induction m as [|[k' v'] m IH]; [reflexivity|]. cbn.
  destruct (String.eqb k' k) eqn:E; cbn; rewrite E; [reflexivity|exact IH].
Qed.

Lemma map_get_update_ne f m k k' :
  k <> k' -> map_get (map_update f m k) k' = map_get m k'.
Proof.
  intros Hne. induction m as [|[k0 v0] m IH]; [reflexivity|]. cbn.
  destruct (String.eqb k0 k) eqn:E; cbn.
  - apply String.eqb_eq in E. subst k0.
    apply String.eqb_neq in Hne. rewrite Hne. reflexivity.
  - destruct (String.eqb k0 k'); [reflexivity|exact IH].
Qed.

Lemma map_keys_update f m k : map_keys (map_update f m k) = map_keys m.
Proof.
  unfold map_keys. induction m as [|[k' v'] m IH]; [reflexivity|]. cbn.
  destruct (String.eqb k' k); cbn; [reflexivity|]. f_equal. exact IH.
Qed.

Lemma length_map_update f m k : length (map_update f m k) = length m.
Proof.
  induction m as [|[k' v'] m IH]; [reflexivity|]. cbn.
  destruct (String.eqb k' k); cbn; [reflexivity|]. f_equal. exact IH.
Qed.

Lemma map_get_set_eq m k v : map_get (map_set m k v) k = Some v.
Proof.
  induction m as [|[k' v'] m IH]; cbn.
  - rewrite String.eqb_refl. reflexivity.
  - destruct (String.eqb k' k) eqn:E; cbn; rewrite E; [reflexivity|exact IH].
Qed.

Lemma map_get_set_ne m k k' v :
  k <> k' -> map_get (map_set m k v) k' = map_get m k'.
Proof.
  intros Hne. induction m as [|[k0 v0] m IH]; cbn.
  - apply String.eqb_neq in Hne. rewrite Hne. reflexivity.
  - destruct (String.eqb k0 k) eqn:E; cbn.
    + apply String.eqb_eq in E. subst k0.
      apply String.eqb_neq in Hne. rewrite Hne. reflexivity.
    + destruct (String.eqb k0 k'); [reflexivity|exact IH].
Qed.

Lemma map_get_None m k : map_get m k = None <-> k ∉ map_keys m.
Proof.
  unfold map_keys. induction m as [|[k' v'] m IH]; cbn.
  - split; [intros _; apply not_elem_of_nil|reflexivity].
  - destruct (String.eqb k' k) eqn:E.
    + apply String.eqb_eq in E. subst k'.
      split; [discriminate|]. intros H. exfalso. apply H. left.
    + apply String.eqb_neq in E. rewrite IH, not_elem_of_cons. intuition congruence.
Qed.

Lemma map_get_Some_elem m k v : map_get m k = Some v -> (k, v) ∈ m.
Proof.
  induction m as [|[k' v'] m IH]; cbn; [discriminate|].
  destruct (String.eqb k' k) eqn:E.
  - apply String.eqb_eq in E. intros [= <-]. subst k'. left.
  - intros H. right. apply IH, H.
Qed.

Lemma map_get_elem m k v :
  NoDup (map_keys m) -> (k, v) ∈ m -> map_get m k = Some v.
Proof.
  unfold map_keys. induction m as [|[k' v'] m IH]; cbn; intros Hnd Hin.
  - apply elem_of_nil in Hin. destruct Hin.
  - apply NoDup_cons in Hnd as [Hk' Hnd].
    apply elem_of_cons in Hin as [[= <- <-]|Hin].
    + rewrite String.eqb_refl. reflexivity.
    + destruct (String.eqb k' k) eqn:E; [|apply IH; assumption].
      apply String.eqb_eq in E. subst k'. exfalso. apply Hk'.
      apply list_elem_of_fmap. exists (k, v). split; [reflexivity|exact Hin].
Qed.

(** A fresh key is appended. *)
Lemma map_set_fresh m k v : map_get m k = None -> map_set m k v = m ++ [(k, v)].
Proof.
  induction m as [|[k' v'] m IH]; cbn; [reflexivity|].
  destruct (String.eqb k' k); [discriminate|]. intros H. rewrite IH by exact H. reflexivity.
Qed.

Lemma map_update_absent f m k : map_get m k = None -> map_update f m k = m.
Proof.
  induction m as [|[k' v'] m IH]; cbn; [reflexivity|].
  destruct (String.eqb k' k); [discriminate|]. intros H. rewrite IH by exact H. reflexivity.
Qed.

Lemma map_update_app_fresh f m k v :
  map_get m k = None -> map_update f (m ++ [(k, v)]) k = m ++ [(k, f v)].
Proof.
  induction m as [|[k' v'] m IH]; cbn.
  - rewrite String.eqb_refl. reflexivity.
  - destruct (String.eqb k' k); [discriminate|]. intros H. rewrite IH by exact H. reflexivity.
Qed.

(** The entry found under a key splits the map around it. *)
Lemma map_get_split m k v :
  map_get m k = Some v ->
  exists m1 m2, m = m1 ++ (k, v) :: m2 /\ map_get m1 k = None
    /\ forall f, map_update f m k = m1 ++ (k, f v) :: m2.
Proof.
  induction m as [|[k' v'] m IH]; cbn; [discriminate|].
  destruct (String.eqb k' k) eqn:E.
  - apply String.eqb_eq in E. subst k'. intros [= <-].
    exists [], m. repeat split.
  - intros H. destruct (IH H) as (m1 & m2 & -> & Hm1 & Hup).
    exists ((k', v') :: m1), m2. cbn. rewrite E. repeat split; [exact Hm1|].
    intros f. rewrite Hup. reflexivity.
Qed.

End TaskMap.

(** ** The subagent pool: what the nested calls amount to *)

Section PoolScheduler.

Import Pool.

Implicit Types (p : SubagentPool) (k taskId : string) (t task : SubagentTask).

Lemma getPendingCount_count p : getPendingCount p = count_status Pending p.
Proof. reflexivity. Qed.

Lemma count_where_update (P : SubagentTask -> bool) f m k t :
  map_get m k = Some t ->
  (count_where P (map_update f m k) + (if P t then 1 else 0)
   = count_where P m + (if P (f t) then 1 else 0))%nat.
Proof.
  intros Hget. destruct (map_get_split m k t Hget) as (m1 & m2 & -> & _ & Hup).
  rewrite Hup. unfold count_where.
  rewrite !fmap_app, !filter_app, !length_app. cbn [fmap list_fmap snd].
  rewrite !filter_cons.
  destruct (P t), (P (f t)); repeat case_decide; cbn [length]; try lia;
    try (exfalso; auto; fail).
Qed.

Lemma count_where_le (P : SubagentTask -> bool) m : (count_where P m <= length m)%nat.
Proof.
  unfold count_where. rewrite <- (length_fmap snd m). apply length_filter.
Qed.

Lemma pending_begin p k t :
  map_get (tasks p) k = Some t -> is_pending t = true ->
  S (getPendingCount (begin p k)) = getPendingCount p.
Proof.
  intros Hget Hp.
  pose proof (count_where_update (fun t => bool_decide (status t = Pending))
                (set_status Running) _ _ _ Hget) as H.
  unfold is_pending in Hp. cbv beta in H. rewrite Hp in H.
  change (status (set_status Running t)) with Running in H.
  rewrite (bool_decide_eq_false_2 (Running = Pending)) in H by discriminate.
  unfold getPendingCount, getAllTasks, is_pending.
  unfold count_where in H. cbn [tasks begin with_tasks with_running]. lia.
Qed.

Lemma pending_fail_release p k e :
  getPendingCount (release (fail (begin p k) k e) k) = getPendingCount (begin p k).
Proof.
  unfold getPendingCount, getAllTasks, is_pending.
  cbn [tasks release fail begin with_tasks with_running].
  destruct (map_get (tasks p) k) as [t|] eqn:Hget.
  - assert (Hget' : map_get (map_update (set_status Running) (tasks p) k) k
                    = Some (set_status Running t))
      by (rewrite map_get_update_eq, Hget; reflexivity).
    pose proof (count_where_update (fun t => bool_decide (status t = Pending))
                  (fun t => set_status Failed (set_error e t)) _ _ _ Hget') as H.
    cbv beta in H.
    change (status (set_status Running t)) with Running in H.
    change (status (set_status Failed (set_error e (set_status Running t))))
      with Failed in H.
    rewrite (bool_decide_eq_false_2 (Running = Pending)),
      (bool_decide_eq_false_2 (Failed = Pending)) in H by discriminate.
    unfold count_where in H. lia.
  - rewrite (map_update_absent (set_status Running)) by exact Hget.
    rewrite map_update_absent by exact Hget. reflexivity.
Qed.

(** *** Keys that need no attention *)

Lemma drain_settled run keys p :
  (forall k, k ∈ keys -> settled_key p k) -> drain run keys p = Some p.
Proof.
  induction keys as [|k keys IH]; intros H; [reflexivity|]. cbn [drain].
  pose proof (H k ltac:(left)) as Hk. unfold settled_key in Hk.
  destruct (map_get (tasks p) k) as [t|]; [rewrite Hk|];
    apply IH; intros k' Hk'; apply H; right; exact Hk'.
Qed.

Lemma drain_skip run pre keys p :
  (forall k, k ∈ pre -> settled_key p k) -> drain run (pre ++ keys) p = drain run keys p.
Proof.
  induction pre as [|k pre IH]; intros H; [reflexivity|]. cbn [app drain].
  pose proof (H k ltac:(left)) as Hk. unfold settled_key in Hk.
  destruct (map_get (tasks p) k) as [t|]; [rewrite Hk|];
    apply IH; intros k' Hk'; apply H; right; exact Hk'.
Qed.

Lemma sweep_skip pre keys p :
  (forall k, k ∈ pre -> settled_key p k) -> sweep (pre ++ keys) p = sweep keys p.
Proof.
  induction pre as [|k pre IH]; intros H; [reflexivity|]. cbn [app sweep].
  pose proof (H k ltac:(left)) as Hk. unfold settled_key in Hk.
  destruct (map_get (tasks p) k) as [t|]; [rewrite Hk|];
    apply IH; intros k' Hk'; apply H; right; exact Hk'.
Qed.

(** *** What [begin], [fail], [complete] and [release] do to an entry *)

Lemma getTask_begin_eq p k : getTask (begin p k) k = set_status Running <$> getTask p k.
Proof. apply map_get_update_eq. Qed.

Lemma getTask_begin_ne p k k' : k <> k' -> getTask (begin p k) k' = getTask p k'.
Proof. apply map_get_update_ne. Qed.

Lemma getTask_fail_eq p k e :
  getTask (fail p k e) k = (fun t => set_status Failed (set_error e t)) <$> getTask p k.
Proof. apply map_get_update_eq. Qed.

Lemma getTask_fail_ne p k k' e : k <> k' -> getTask (fail p k e) k' = getTask p k'.
Proof. apply map_get_update_ne. Qed.

Lemma getTask_complete_eq p k r :
  getTask (complete p k r) k = (fun t => set_status Completed (set_result r t)) <$> getTask p k.
Proof. apply map_get_update_eq. Qed.

Lemma getTask_complete_ne p k k' r : k <> k' -> getTask (complete p k r) k' = getTask p k'.
Proof. apply map_get_update_ne. Qed.

Lemma getTask_release p k k' : getTask (release p k) k' = getTask p k'.
Proof. reflexivity. Qed.

Lemma settled_begin p k k' : settled_key p k' -> settled_key (begin p k) k'.
Proof.
  unfold settled_key. fold (getTask p k') (getTask (begin p k) k').
  destruct (decide (k = k')) as [<-|Hne].
  - rewrite getTask_begin_eq. destruct (getTask p k); [reflexivity|auto].
  - rewrite getTask_begin_ne by exact Hne. auto.
Qed.

Lemma settled_begin_self p k : settled_key (begin p k) k.
Proof.
  unfold settled_key. fold (getTask (begin p k) k).
  rewrite getTask_begin_eq. destruct (getTask p k); [reflexivity|exact I].
Qed.

Lemma settled_fail_release p k k' e :
  settled_key p k' -> settled_key (release (fail p k e) k) k'.
Proof.
  unfold settled_key. fold (getTask p k') (getTask (release (fail p k e) k) k').
  rewrite getTask_release.
  destruct (decide (k = k')) as [<-|Hne].
  - rewrite getTask_fail_eq. destruct (getTask p k); [reflexivity|auto].
  - rewrite getTask_fail_ne by exact Hne. auto.
Qed.

Lemma settled_fail_release_self p k e : settled_key (release (fail p k e) k) k.
Proof.
  unfold settled_key. fold (getTask (release (fail p k e) k) k).
  rewrite getTask_release, getTask_fail_eq. destruct (getTask p k); [reflexivity|exact I].
Qed.

End PoolScheduler.

Section PoolRefinement.

Import Pool.

Implicit Types (p : SubagentPool) (k taskId : string) (t task : SubagentTask).

(** [sweep] touches only tasks that are pending and among its keys. *)
Lemma sweep_frame keys :
  forall p k, settled_key p k \/ k ∉ keys ->
    getTask (sweep keys p) k = getTask p k.
Proof.
  induction keys as [|h keys IH]; intros p k Hk; [reflexivity|].
  cbn [sweep].
  assert (Hk' : forall p', (settled_key p k -> settled_key p' k) ->
                           settled_key p' k \/ k ∉ keys).
  { intros p' Himp. destruct Hk as [Hk|Hk]; [left; auto|right].
    intros Hin. apply Hk. right. exact Hin. }
  destruct (map_get (tasks p) h) as [t|] eqn:Hget; [|apply IH, Hk'; auto].
  destruct (is_pending t) eqn:Hpend; [|apply IH, Hk'; auto].
  assert (Hne : h <> k).
  { intros ->. destruct Hk as [Hk|Hk].
    - unfold settled_key in Hk. rewrite Hget in Hk. congruence.
    - apply Hk. left. }
  destruct (start (config p) t) as [e|ok].
  - rewrite IH.
    + rewrite getTask_release, getTask_fail_ne, getTask_begin_ne by exact Hne. reflexivity.
    + apply Hk'. intros Hs. apply settled_fail_release, settled_begin, Hs.
  - destruct (full (begin p h)).
    + apply getTask_begin_ne, Hne.
    + rewrite IH; [apply getTask_begin_ne, Hne|].
      apply Hk'. intros Hs. apply settled_begin, Hs.
Qed.

Lemma sweep_settled keys p k : settled_key p k -> settled_key (sweep keys p) k.
Proof.
  intros H. unfold settled_key. fold (getTask (sweep keys p) k).
  rewrite sweep_frame by (left; exact H). exact H.
Qed.

Lemma sweep_static keys :
  forall p, map_keys (tasks (sweep keys p)) = map_keys (tasks p)
            /\ config (sweep keys p) = config p
            /\ maxConcurrent (sweep keys p) = maxConcurrent p
            /\ defaultModel (sweep keys p) = defaultModel p.
Proof.
  induction keys as [|h keys IH]; intros p; [auto|]. cbn [sweep].
  destruct (map_get (tasks p) h) as [t|]; [|apply IH].
  destruct (is_pending t); [|apply IH].
  destruct (start (config p) t) as [e|ok].
  - destruct (IH (release (fail (begin p h) h e) h)) as (-> & -> & -> & ->).
    cbn [tasks config maxConcurrent defaultModel release fail begin with_tasks with_running].
    rewrite !map_keys_update. auto.
  - destruct (full (begin p h)).
    + cbn [tasks config maxConcurrent defaultModel begin with_tasks with_running].
      rewrite map_keys_update. auto.
    + destruct (IH (begin p h)) as (-> & -> & -> & ->).
      cbn [tasks config maxConcurrent defaultModel begin with_tasks with_running].
      rewrite map_keys_update. auto.
Qed.

Lemma full_fail_release p k e :
  full p = false -> full (release (fail (begin p k) k e) k) = false.
Proof.
  unfold full. cbn [running maxConcurrent release fail begin with_tasks with_running].
  intros H. apply Nat.leb_gt in H. apply Nat.leb_gt.
  eapply Nat.le_lt_trans; [|exact H].
  apply subseteq_size. set_solver.
Qed.

(** A pass that leaves room has left nothing pending among its keys. *)
Lemma sweep_exhausts keys :
  forall p, full (sweep keys p) = false ->
    forall k, k ∈ keys -> settled_key (sweep keys p) k.
Proof.
  induction keys as [|h keys IH]; intros p Hfull k Hin.
  - apply elem_of_nil in Hin. destruct Hin.
  - cbn [sweep] in *.
    destruct (map_get (tasks p) h) as [t|] eqn:Hget.
    + destruct (is_pending t) eqn:Hpend.
      * destruct (start (config p) t) as [e|ok].
        -- apply elem_of_cons in Hin as [->|Hin]; [|apply IH; assumption].
           apply sweep_settled, settled_fail_release_self.
        -- destruct (full (begin p h)) eqn:Hf; [congruence|].
           apply elem_of_cons in Hin as [->|Hin]; [|apply IH; assumption].
           apply sweep_settled, settled_begin_self.
      * apply elem_of_cons in Hin as [->|Hin]; [|apply IH; assumption].
        apply sweep_settled. unfold settled_key. rewrite Hget. exact Hpend.
    + apply elem_of_cons in Hin as [->|Hin]; [|apply IH; assumption].
      apply sweep_settled. unfold settled_key. rewrite Hget. exact I.
Qed.

(** *** The fuelled functions compute [runTask_result] and [sweep] *)

Lemma drain_sweep (fuel : nat) :
  runTask_ok fuel ->
  forall keys pre p,
    map_keys (tasks p) = pre ++ keys ->
    (forall k, k ∈ pre -> settled_key p k) ->
    (getPendingCount p < fuel)%nat ->
    full p = false ->
    drain (runTask fuel) keys p = Some (sweep keys p).
Proof.
  intros Hrun. induction keys as [|h keys IH]; intros pre p Hkeys Hpre Hfuel Hfull;
    [reflexivity|].
  cbn [drain sweep].
  assert (Hnext : forall p', map_keys (tasks p') = map_keys (tasks p) ->
                    (forall k, settled_key p k -> settled_key p' k) ->
                    settled_key p' h ->
                    map_keys (tasks p') = (pre ++ [h]) ++ keys
                    /\ forall k, k ∈ pre ++ [h] -> settled_key p' k).
  { intros p' Hk Hs Hh. split; [rewrite Hk, Hkeys, <- app_assoc; reflexivity|].
    intros k Hin. apply elem_of_app in Hin as [Hin|Hin]; [apply Hs, Hpre, Hin|].
    apply list_elem_of_singleton in Hin. subst k. exact Hh. }
  destruct (map_get (tasks p) h) as [t|] eqn:Hget.
  - destruct (is_pending t) eqn:Hpend.
    + rewrite Hrun; [|exact Hfuel|left; unfold settled_key; rewrite Hget; congruence].
      unfold runTask_result. rewrite Hget.
      pose proof (pending_begin p h t Hget Hpend) as Hcount.
      destruct (start (config p) t) as [e|ok].
      * set (p2 := release (fail (begin p h) h e) h).
        assert (Hfull2 : full p2 = false) by (apply full_fail_release, Hfull).
        destruct (Hnext p2) as [Hkeys2 Hpre2].
        { unfold p2. cbn [tasks release fail begin with_tasks with_running].
          rewrite !map_keys_update. reflexivity. }
        { intros k Hs. apply settled_fail_release, settled_begin, Hs. }
        { apply settled_fail_release_self. }
        unfold refill. rewrite Hfull2, Hkeys2, (sweep_skip _ _ _ Hpre2).
        destruct (full (sweep keys p2)) eqn:Hfull3; [reflexivity|].
        apply drain_settled, sweep_exhausts, Hfull3.
      * destruct (full (begin p h)) eqn:Hfull1; [reflexivity|].
        destruct (Hnext (begin p h)) as [Hkeys1 Hpre1].
        { cbn [tasks begin with_tasks with_running].
          rewrite map_keys_update. reflexivity. }
        { intros k Hs. apply settled_begin, Hs. }
        { apply settled_begin_self. }
        eapply IH; [exact Hkeys1|exact Hpre1|lia|exact Hfull1].
    + destruct (Hnext p) as [Hkeys1 Hpre1]; [reflexivity|auto| |].
      { unfold settled_key. rewrite Hget. exact Hpend. }
      eapply IH; eassumption.
  - destruct (Hnext p) as [Hkeys1 Hpre1]; [reflexivity|auto| |].
    { unfold settled_key. rewrite Hget. exact I. }
    eapply IH; eassumption.
Qed.

Lemma runTask_ok_all (fuel : nat) : runTask_ok fuel.
Proof.
  induction fuel as [|fuel IH]; intros p taskId Hfuel Htask; [lia|].
  cbn [runTask]. unfold runTask_result. fold (getTask p taskId).
  destruct (getTask p taskId) as [t|] eqn:Hget; [|reflexivity].
  assert (Hpend : is_pending t = true).
  { destruct Htask as [Hns|Hnone]; [|discriminate].
    unfold settled_key in Hns. fold (getTask p taskId) in Hns. rewrite Hget in Hns.
    destruct (is_pending t); [reflexivity|]. exfalso. apply Hns. reflexivity. }
  change (config (begin p taskId)) with (config p).
  destruct (start (config p) t) as [e|ok]; [|reflexivity].
  set (p2 := release (fail (begin p taskId) taskId e) taskId).
  unfold processQueue_with, refill.
  destruct (full p2) eqn:Hfull2; [reflexivity|].
  apply (drain_sweep fuel IH _ []); [reflexivity| |  |exact Hfull2].
  - intros k Hin. apply elem_of_nil in Hin. destruct Hin.
  - pose proof (pending_begin p taskId t Hget Hpend) as Hcount.
    unfold p2. rewrite pending_fail_release. lia.
Qed.

Lemma getPendingCount_le p : (getPendingCount p < enough p)%nat.
Proof.
  rewrite getPendingCount_count. unfold enough, count_status.
  pose proof (count_where_le (fun t => bool_decide (status t = Pending)) (tasks p)). lia.
Qed.

(** [processQueue] with the fuel the entry points give it. *)
Lemma processQueue_refill p (fuel : nat) :
  (getPendingCount p < fuel)%nat -> processQueue fuel p = Some (refill p).
Proof.
  intros Hfuel. unfold processQueue, processQueue_with, refill.
  destruct (full p) eqn:Hfull; [reflexivity|].
  apply (drain_sweep fuel (runTask_ok_all fuel) _ []); [reflexivity| |exact Hfuel|exact Hfull].
  intros k Hin. apply elem_of_nil in Hin. destruct Hin.
Qed.

End PoolRefinement.

(** ** The subagent pool: entry points and invariants *)

Section PoolInvariants.

Import Pool.

Implicit Types (p : SubagentPool) (k taskId : string) (t task : SubagentTask).

(** [spawn] and [settle] always return: the fuel they pass is enough. *)
Lemma spawn_eq p taskId prompt model :
  spawn p taskId prompt model = Some (taskId, spawn_result p taskId prompt model).
Proof.
  unfold spawn, spawn_result. fold (new_task (defaultModel p) taskId prompt model).
  fold (enqueue p taskId prompt model).
  set (p1 := enqueue p taskId prompt model).
  destruct (size (running p1) <? maxConcurrent p1)%nat; [|reflexivity].
  rewrite runTask_ok_all; [reflexivity|apply getPendingCount_le|].
  left. unfold settled_key, p1, enqueue. cbn [tasks with_tasks].
  rewrite map_get_set_eq. discriminate.
Qed.

Lemma settle_eq p taskId w :
  settle p taskId w = Some (settle_result p taskId w).
Proof.
  unfold settle, settle_result. fold (finish p taskId w).
  apply processQueue_refill.
  apply (getPendingCount_le (release (finish p taskId w) taskId)).
Qed.

Lemma full_false p : full p = false <-> (size (running p) < maxConcurrent p)%nat.
Proof. unfold full. apply Nat.leb_gt. Qed.

Lemma Core_begin p k t :
  Core p -> full p = false -> getTask p k = Some t -> status t = Pending ->
  Core (begin p k)
  /\ size (running (begin p k)) = S (size (running p)).
Proof.
  intros [Hnd Hrun Hbound] Hfull Hget Hpend.
  assert (Hnotin : k ∉ running p).
  { rewrite Hrun. intros (t' & Ht' & Hs). congruence. }
  assert (Hsize : size (running (begin p k)) = S (size (running p))).
  { cbn [running begin with_tasks with_running].
    rewrite size_union by set_solver. rewrite size_singleton. reflexivity. }
  split; [|exact Hsize]. split.
  - cbn [tasks begin with_tasks with_running]. rewrite map_keys_update. exact Hnd.
  - intros k'. cbn [running begin with_tasks with_running].
    destruct (decide (k = k')) as [<-|Hne].
    + rewrite getTask_begin_eq, Hget. cbn. split; [eauto|set_solver].
    + rewrite getTask_begin_ne by exact Hne. rewrite <- Hrun. set_solver.
  - rewrite Hsize. apply full_false in Hfull.
    change (maxConcurrent (begin p k)) with (maxConcurrent p). lia.
Qed.

(** Taking a task out of [Running], or out of the pool's attention. *)
Lemma Core_finish_release p k (f : SubagentTask -> SubagentTask) :
  (forall t, status (f t) <> Running) ->
  Core p ->
  Core (release (with_tasks p (map_update f (tasks p) k)) k).
Proof.
  intros Hf [Hnd Hrun Hbound]. split.
  - cbn [tasks release with_tasks with_running]. rewrite map_keys_update. exact Hnd.
  - intros k'. cbn [running release with_tasks with_running].
    unfold getTask. cbn [tasks release with_tasks with_running].
    destruct (decide (k = k')) as [<-|Hne].
    + rewrite map_get_update_eq. split; [set_solver|].
      intros (t' & Ht' & Hs). destruct (map_get (tasks p) k); [|discriminate].
      injection Ht' as <-. exfalso. eapply Hf, Hs.
    + rewrite map_get_update_ne by exact Hne.
      fold (getTask p k'). rewrite <- Hrun. set_solver.
  - cbn [running maxConcurrent release with_tasks with_running].
    etransitivity; [|exact Hbound]. apply subseteq_size. set_solver.
Qed.

Lemma Core_fail_begin p k t e :
  Core p -> getTask p k = Some t -> status t = Pending ->
  Core (release (fail (begin p k) k e) k).
Proof.
  intros [Hnd Hrun Hbound] Hget Hpend. split.
  - cbn [tasks release fail begin with_tasks with_running].
    rewrite !map_keys_update. exact Hnd.
  - intros k'. rewrite getTask_release.
    cbn [running release fail begin with_tasks with_running].
    destruct (decide (k = k')) as [<-|Hne].
    + rewrite getTask_fail_eq, getTask_begin_eq, Hget. cbn.
      split; [set_solver|]. intros (t' & [= <-] & Hs). discriminate.
    + rewrite getTask_fail_ne, getTask_begin_ne by exact Hne.
      rewrite <- Hrun. set_solver.
  - cbn [running maxConcurrent release fail begin with_tasks with_running].
    etransitivity; [|exact Hbound]. apply subseteq_size. set_solver.
Qed.

Lemma sweep_Core keys :
  forall p, Core p -> full p = false -> Core (sweep keys p).
Proof.
  induction keys as [|h keys IH]; intros p Hcore Hfull; [exact Hcore|].
  cbn [sweep].
  destruct (map_get (tasks p) h) as [t|] eqn:Hget; [|apply IH; assumption].
  destruct (is_pending t) eqn:Hpend; [|apply IH; assumption].
  apply bool_decide_eq_true in Hpend.
  destruct (start (config p) t) as [e|ok].
  - apply IH; [eapply Core_fail_begin; eassumption|apply full_fail_release, Hfull].
  - destruct (Core_begin p h t Hcore Hfull Hget Hpend) as [Hcore1 _].
    destruct (full (begin p h)) eqn:Hfull1; [exact Hcore1|].
    apply IH; assumption.
Qed.

Lemma refill_Core p : Core p -> Core (refill p).
Proof.
  intros H. unfold refill. destruct (full p) eqn:Hfull; [exact H|].
  apply sweep_Core; assumption.
Qed.

Lemma refill_Busy p : Busy (refill p).
Proof.
  unfold Busy, refill. destruct (full p) eqn:Hfull; [congruence|].
  intros Hroom k.
  destruct (decide (k ∈ map_keys (tasks p))) as [Hin|Hout].
  - apply sweep_exhausts; assumption.
  - apply sweep_settled. unfold settled_key.
    apply map_get_None in Hout. rewrite Hout. exact I.
Qed.

Lemma refill_Inv p : Core p -> Inv (refill p).
Proof. intros H. split; [apply refill_Core, H|apply refill_Busy]. Qed.

Lemma Inv_create maxConcurrent defaultModel config :
  Inv (create maxConcurrent defaultModel config).
Proof.
  split; [split|].
  - constructor.
  - intros k. cbn. split; [set_solver|]. intros (t & [=] & _).
  - cbn. rewrite size_empty. lia.
  - intros _ k. exact I.
Qed.

Lemma Core_enqueue p taskId prompt model :
  Core p -> getTask p taskId = None -> Core (enqueue p taskId prompt model).
Proof.
  intros [Hnd Hrun Hbound] Hfresh. unfold enqueue. unfold getTask in Hfresh.
  rewrite map_set_fresh by exact Hfresh. split.
  - cbn [tasks with_tasks]. unfold map_keys. rewrite fmap_app. cbn.
    apply NoDup_app. split; [exact Hnd|]. split; [|apply NoDup_singleton].
    intros k Hin Hk. apply list_elem_of_singleton in Hk. subst k.
    apply map_get_None in Hfresh. apply Hfresh, Hin.
  - intros k. cbn [running with_tasks]. unfold getTask. cbn [tasks with_tasks].
    rewrite <- map_set_fresh by exact Hfresh.
    destruct (decide (taskId = k)) as [<-|Hne].
    + rewrite map_get_set_eq. split.
      * intros Hin. apply Hrun in Hin as (t & Ht & _).
        unfold getTask in Ht. congruence.
      * intros (t & [= <-] & Hs). discriminate.
    + rewrite map_get_set_ne by exact Hne. apply Hrun.
  - exact Hbound.
Qed.

Lemma spawn_Inv p taskId prompt model :
  Inv p -> getTask p taskId = None -> Inv (spawn_result p taskId prompt model).
Proof.
  intros [Hcore Hbusy] Hfresh. unfold spawn_result.
  pose proof (Core_enqueue p taskId prompt model Hcore Hfresh) as Hcore1.
  set (p1 := enqueue p taskId prompt model) in *.
  assert (Hget1 : getTask p1 taskId = Some (new_task (defaultModel p) taskId prompt model))
    by apply map_get_set_eq.
  destruct (size (running p1) <? maxConcurrent p1)%nat eqn:Hroom.
  - apply Nat.ltb_lt in Hroom. unfold runTask_result. fold (getTask p1 taskId).
    rewrite Hget1.
    destruct (start (config p1) _) as [e|ok].
    + apply refill_Inv. eapply Core_fail_begin; [exact Hcore1|exact Hget1|reflexivity].
    + assert (Hfull1 : full p1 = false) by (apply full_false, Hroom).
      destruct (Core_begin p1 taskId _ Hcore1 Hfull1 Hget1 eq_refl) as [Hcore2 _].
      split; [exact Hcore2|].
      intros _ k. destruct (decide (taskId = k)) as [<-|Hne];
        [apply settled_begin_self|].
      apply settled_begin. unfold settled_key, p1, enqueue. cbn [tasks with_tasks].
      rewrite map_get_set_ne by exact Hne. apply Hbusy. exact Hfull1.
  - split; [exact Hcore1|]. intros Hfull. apply full_false in Hfull.
    apply Nat.ltb_ge in Hroom. lia.
Qed.

Lemma settle_Inv p taskId w : Inv p -> Inv (settle_result p taskId w).
Proof.
  intros [Hcore _]. unfold settle_result. apply refill_Inv.
  destruct w as [e|last]; cbn [finish]; unfold fail, complete;
    apply Core_finish_release; [| exact Hcore | | exact Hcore]; intros t; discriminate.
Qed.

Lemma reachable_Inv p : reachable p -> Inv p.
Proof.
  induction 1 as [mc dm cfg|p taskId prompt model p' _ IH Hfresh Hspawn
                 |p taskId t w p' _ IH _ _ Hsettle].
  - apply Inv_create.
  - rewrite spawn_eq in Hspawn. injection Hspawn as <-. apply spawn_Inv; assumption.
  - rewrite settle_eq in Hsettle. injection Hsettle as <-. apply settle_Inv; assumption.
Qed.

End PoolInvariants.

(** ** The subagent pool: counting tasks by status *)

(** Decides the comparisons of two status constants in sight. *)
Ltac status_cases :=
  unfold has_status, indicator in *;
  repeat match goal with
    | H : context [bool_decide (?a = ?b)] |- _ =>
        first [ is_constructor a; is_constructor b; idtac ];
        first [ rewrite (bool_decide_eq_true_2 (a = b)) in H by reflexivity
              | rewrite (bool_decide_eq_false_2 (a = b)) in H by discriminate ]
    | |- context [bool_decide (?a = ?b)] =>
        first [ rewrite (bool_decide_eq_true_2 (a = b)) by reflexivity
              | rewrite (bool_decide_eq_false_2 (a = b)) by discriminate ]
    end.

Section PoolCounting.

Import Pool.

Implicit Types (p : SubagentPool) (k taskId : string) (t task : SubagentTask).

Lemma count_status_update (s : Status) p k t (f : SubagentTask -> SubagentTask) :
  getTask p k = Some t ->
  (count_status s (with_tasks p (map_update f (tasks p) k)) + indicator (has_status s t)
   = count_status s p + indicator (has_status s (f t)))%nat.
Proof.
  intros Hget. unfold count_status. cbn [tasks with_tasks].
  apply (count_where_update (fun t => bool_decide (status t = s)) f _ _ _ Hget).
Qed.

Lemma count_status_begin (s : Status) p k t :
  getTask p k = Some t ->
  (count_status s (begin p k) + indicator (has_status s t)
   = count_status s p + indicator (bool_decide (Running = s)))%nat.
Proof. intros Hget. apply (count_status_update s p k t (set_status Running) Hget). Qed.

Lemma count_status_finish_release (s : Status) p k t w :
  getTask p k = Some t ->
  (count_status s (release (finish p k w) k) + indicator (has_status s t)
   = count_status s p
     + indicator (bool_decide
         (match w with inl _ => Failed | inr _ => Completed end = s)))%nat.
Proof.
  intros Hget. destruct w as [e|last]; cbn [finish].
  - apply (count_status_update s p k t (fun t => set_status Failed (set_error e t)) Hget).
  - apply (count_status_update s p k t (fun t => set_status Completed (set_result last t)) Hget).
Qed.

Lemma count_status_enqueue (s : Status) p taskId prompt model :
  getTask p taskId = None ->
  count_status s (enqueue p taskId prompt model)
  = (count_status s p + indicator (bool_decide (Pending = s)))%nat.
Proof.
  intros Hfresh. unfold count_status, count_where, enqueue. cbn [tasks with_tasks].
  rewrite map_set_fresh by exact Hfresh.
  rewrite fmap_app, filter_app, length_app. cbn [fmap list_fmap snd].
  rewrite filter_cons, filter_nil. cbn [status new_task].
  destruct (bool_decide (Pending = s)) eqn:E; case_decide; cbn; try reflexivity;
    congruence.
Qed.

(** Under [Core], the size of the running set is the number of tasks in
    status [Running]. *)
Lemma count_running_size p : Core p -> count_status Running p = size (running p).
Proof.
  intros [Hnd Hrun _].
  set (rk := fst <$> filter (fun kv => status (snd kv) = Running) (tasks p)).
  assert (Hrk : NoDup rk).
  { eapply sublist_NoDup; [exact Hnd|]. apply fmap_sublist, sublist_filter. }
  assert (Hset : running p = list_to_set rk).
  { apply set_eq. intros k. rewrite Hrun, elem_of_list_to_set. unfold rk.
    rewrite list_elem_of_fmap. split.
    - intros (t & Ht & Hs). exists (k, t). split; [reflexivity|].
      apply list_elem_of_filter. split; [exact Hs|]. apply map_get_Some_elem, Ht.
    - intros ([k' t] & -> & Hin). apply list_elem_of_filter in Hin as [Hs Hin].
      exists t. split; [|exact Hs]. apply map_get_elem; assumption. }
  rewrite Hset, size_list_to_set by exact Hrk.
  unfold rk, count_status, count_where.
  rewrite length_fmap, (filter_fmap snd (fun t => bool_decide (status t = Running))), length_fmap.
  f_equal. apply list_filter_iff. intros [k t]. cbn. rewrite bool_decide_spec. reflexivity.
Qed.

(** One [spawn] whose start does not throw: the new task runs if there
    is room, and waits otherwise. *)
Lemma spawn_startable p taskId prompt model ok :
  Inv p ->
  getTask p taskId = None ->
  start (config p) (new_task (defaultModel p) taskId prompt model) = inr ok ->
  let p' := spawn_result p taskId prompt model in
  let room := (size (running p) <? maxConcurrent p)%nat in
  p' = (if room then begin (enqueue p taskId prompt model) taskId
        else enqueue p taskId prompt model)
  /\ count_status Running p' = (count_status Running p + indicator room)%nat
  /\ count_status Pending p' = (count_status Pending p + indicator (negb room))%nat.
Proof.
  intros [Hcore Hbusy] Hfresh Hstart p' room.
  assert (Heq : p' = (if room then begin (enqueue p taskId prompt model) taskId
                      else enqueue p taskId prompt model)).
  { unfold p', spawn_result, room, runTask_result.
    change (running (enqueue p taskId prompt model)) with (running p).
    change (maxConcurrent (enqueue p taskId prompt model)) with (maxConcurrent p).
    destruct (size (running p) <? maxConcurrent p)%nat; [|reflexivity].
    assert (Hget0 : map_get (tasks (enqueue p taskId prompt model)) taskId
                    = Some (new_task (defaultModel p) taskId prompt model))
      by apply map_get_set_eq.
    rewrite Hget0.
    change (config (enqueue p taskId prompt model)) with (config p).
    rewrite Hstart. reflexivity. }
  split; [exact Heq|]. rewrite Heq.
  assert (Hget1 : getTask (enqueue p taskId prompt model) taskId
                  = Some (new_task (defaultModel p) taskId prompt model))
    by apply map_get_set_eq.
  destruct room.
  - pose proof (count_status_begin Running _ _ _ Hget1) as HR.
    pose proof (count_status_begin Pending _ _ _ Hget1) as HP.
    rewrite !count_status_enqueue in HR, HP by exact Hfresh.
    cbn [status new_task negb] in *. status_cases. lia.
  - rewrite !count_status_enqueue by exact Hfresh. cbn [negb]. status_cases. lia.
Qed.

End PoolCounting.

(** ** The subagent pool: filling up and promotion *)

Section PoolPromotion.

Import Pool.

Implicit Types (p : SubagentPool) (k taskId : string) (t task : SubagentTask).

Lemma spawn_result_static p taskId prompt model ok :
  start (config p) (new_task (defaultModel p) taskId prompt model) = inr ok ->
  let p' := spawn_result p taskId prompt model in
  config p' = config p /\ defaultModel p' = defaultModel p
  /\ maxConcurrent p' = maxConcurrent p
  /\ forall k, k <> taskId -> getTask p' k = getTask p k.
Proof.
  intros Hstart p'. unfold p', spawn_result, runTask_result.
  set (p1 := enqueue p taskId prompt model).
  assert (Hother : forall k, k <> taskId -> getTask p1 k = getTask p k).
  { intros k Hne. apply map_get_set_ne. congruence. }
  destruct (size (running p1) <? maxConcurrent p1)%nat; [|auto].
  assert (Hget1 : map_get (tasks p1) taskId
                  = Some (new_task (defaultModel p) taskId prompt model))
    by apply map_get_set_eq.
  rewrite Hget1. change (config p1) with (config p). rewrite Hstart.
  split; [reflexivity|]. split; [reflexivity|]. split; [reflexivity|].
  intros k Hne. rewrite getTask_begin_ne by congruence. apply Hother, Hne.
Qed.

Lemma spawn_all_counts (requests : list (string * string * option string)) :
  forall p (j : nat),
    Inv p ->
    NoDup (fst <$> (fst <$> requests)) ->
    (forall r, r ∈ requests -> getTask p r.1.1 = None) ->
    (forall r, r ∈ requests -> startable (config p) (defaultModel p) r) ->
    count_status Running p = Nat.min j (maxConcurrent p) ->
    count_status Pending p = (j - Nat.min j (maxConcurrent p))%nat ->
    exists p',
      spawn_all p requests = Some p'
      /\ Inv p'
      /\ maxConcurrent p' = maxConcurrent p
      /\ count_status Running p'
         = Nat.min (j + length requests) (maxConcurrent p)
      /\ count_status Pending p'
         = (j + length requests - Nat.min (j + length requests) (maxConcurrent p))%nat.
Proof.
  induction requests as [|[[taskId prompt] model] rest IH];
    intros p j Hinv Hnd Hfresh Hstartable HR HP.
  - exists p. cbn [spawn_all length]. rewrite Nat.add_0_r. auto.
  - cbn [spawn_all]. rewrite spawn_eq.
    cbn [fmap list_fmap fst] in Hnd. apply NoDup_cons in Hnd as [Hhead Hnd].
    destruct (Hstartable (taskId, prompt, model) ltac:(left)) as [ok Hstart].
    cbn [fst snd] in Hstart.
    pose proof (Hfresh (taskId, prompt, model) ltac:(left)) as Hnew. cbn [fst] in Hnew.
    destruct (spawn_startable p taskId prompt model ok Hinv Hnew Hstart)
      as (_ & HR1 & HP1).
    destruct (spawn_result_static p taskId prompt model ok Hstart)
      as (Hcfg & Hdm & Hmax & Hother).
    pose proof (count_running_size p (proj1 Hinv)) as Hsize.
    set (p1 := spawn_result p taskId prompt model) in *.
    destruct (IH p1 (S j)) as (p' & Hall & Hinv' & Hmax' & HR' & HP').
    + apply spawn_Inv; assumption.
    + exact Hnd.
    + intros r Hr. rewrite Hother; [apply Hfresh; right; exact Hr|].
      intros Heq. apply Hhead. rewrite <- Heq.
      apply list_elem_of_fmap. exists r.1. split; [reflexivity|].
      apply list_elem_of_fmap. exists r. split; [reflexivity|exact Hr].
    + intros r Hr. rewrite Hcfg, Hdm. apply Hstartable. right. exact Hr.
    + rewrite HR1, Hmax, HR, <- Hsize, HR.
      destruct (Nat.min j (maxConcurrent p) <? maxConcurrent p)%nat eqn:Hroom;
        [apply Nat.ltb_lt in Hroom|apply Nat.ltb_ge in Hroom]; cbn [indicator]; lia.
    + rewrite HP1, Hmax, HP, <- Hsize, HR.
      destruct (Nat.min j (maxConcurrent p) <? maxConcurrent p)%nat eqn:Hroom;
        [apply Nat.ltb_lt in Hroom|apply Nat.ltb_ge in Hroom]; cbn [indicator negb]; lia.
    + exists p'. rewrite Hmax in *. cbn [length].
      replace (j + S (length rest))%nat with (S j + length rest)%nat by lia.
      auto.
Qed.

Lemma no_pending_settled p :
  count_status Pending p = 0%nat -> forall k, settled_key p k.
Proof.
  unfold count_status, count_where, settled_key. intros Hzero k.
  destruct (map_get (tasks p) k) as [t|] eqn:Hget; [|exact I].
  destruct (is_pending t) eqn:Hpend; [|reflexivity]. exfalso.
  apply length_zero_iff_nil in Hzero.
  assert (Hin : t ∈ filter (fun t => bool_decide (status t = Pending)) (snd <$> tasks p)).
  { apply list_elem_of_filter. split; [unfold is_pending in Hpend; rewrite Hpend; exact I|].
    apply list_elem_of_fmap. exists (k, t). split; [reflexivity|].
    apply map_get_Some_elem, Hget. }
  rewrite Hzero in Hin. apply elem_of_nil in Hin. exact Hin.
Qed.

Lemma refill_settled p : (forall k, settled_key p k) -> refill p = p.
Proof.
  intros H. unfold refill. destruct (full p); [reflexivity|].
  rewrite <- (app_nil_r (map_keys (tasks p))). apply sweep_skip. intros k _. apply H.
Qed.

(** When a running task settles, the first pending task, if its start
    does not throw, takes the free place and nothing else is started. *)
Lemma settle_promotes p taskId t w :
  Inv p -> getTask p taskId = Some t -> status t = Running ->
  let p' := settle_result p taskId w in
  (count_status Pending p = 0%nat ->
     p' = release (finish p taskId w) taskId
     /\ S (count_status Running p') = count_status Running p
     /\ count_status Pending p' = 0%nat)
  /\ (forall m1 k tk m2 ok,
        tasks p = m1 ++ (k, tk) :: m2 ->
        Forall (fun kv => status kv.2 <> Pending) m1 ->
        status tk = Pending ->
        start (config p) tk = inr ok ->
        p' = begin (release (finish p taskId w) taskId) k
        /\ getTask p' k = Some (set_status Running tk)
        /\ count_status Running p' = count_status Running p
        /\ S (count_status Pending p') = count_status Pending p).
Proof.
  intros [Hcore Hbusy] Hget Hrun p'. unfold p', settle_result.
  set (p2 := release (finish p taskId w) taskId).
  pose proof (count_status_finish_release Running p taskId t w Hget) as HR2.
  pose proof (count_status_finish_release Pending p taskId t w Hget) as HP2.
  fold p2 in HR2, HP2. unfold has_status in HR2, HP2. rewrite Hrun in HR2, HP2.
  assert (HR2' : S (count_status Running p2) = count_status Running p)
    by (destruct w; status_cases; lia).
  assert (HP2' : count_status Pending p2 = count_status Pending p)
    by (destruct w; status_cases; lia).
  assert (Hcore2 : Core p2).
  { unfold p2. destruct w as [e|last]; cbn [finish]; unfold fail, complete;
      apply Core_finish_release; [| exact Hcore | | exact Hcore]; intros t0; discriminate. }
  split.
  - intros Hzero. rewrite refill_settled by (apply no_pending_settled; lia).
    repeat split; [exact HR2'|lia].
  - intros m1 k tk m2 ok Htasks Hm1 Hpend Hstart.
    destruct Hcore as [Hnd Hrunning Hbound].
    assert (Hgetk : getTask p k = Some tk).
    { apply map_get_elem; [exact Hnd|]. rewrite Htasks. apply elem_of_app. right. left. }
    assert (Hne : taskId <> k) by (intros ->; congruence).
    assert (Hfull : full p = true).
    { destruct (full p) eqn:Hf; [reflexivity|]. exfalso.
      pose proof (Hbusy Hf k) as Hs. unfold settled_key in Hs.
      fold (getTask p k) in Hs. rewrite Hgetk in Hs.
      unfold is_pending in Hs. rewrite Hpend in Hs. discriminate. }
    assert (Hin : taskId ∈ running p) by (apply Hrunning; eauto).
    assert (Hmax2 : maxConcurrent p2 = maxConcurrent p)
      by (unfold p2; destruct w; reflexivity).
    assert (Hcfg2 : config p2 = config p)
      by (unfold p2; destruct w; reflexivity).
    assert (Hsize2 : S (size (running p2)) = size (running p)).
    { unfold p2. destruct w; cbn [running release finish fail complete with_tasks with_running];
        rewrite size_difference by set_solver; rewrite size_singleton;
        (assert (size (running p) <> 0)%nat
          by (intros Hz; apply size_empty_iff in Hz; set_solver)); lia. }
    assert (Hfull2 : full p2 = false).
    { apply full_false. unfold full in Hfull. apply Nat.leb_le in Hfull.
      rewrite Hmax2. lia. }
    assert (Hother : forall k', k' <> taskId -> getTask p2 k' = getTask p k').
    { intros k' Hk'. unfold p2. rewrite getTask_release.
      destruct w; cbn [finish];
        [apply getTask_fail_ne|apply getTask_complete_ne]; congruence. }
    assert (Hkeys : map_keys (tasks p2) = map_keys m1 ++ k :: map_keys m2).
    { unfold p2. destruct w; cbn [tasks release finish fail complete with_tasks with_running];
        rewrite map_keys_update, Htasks; unfold map_keys; rewrite fmap_app; reflexivity. }
    assert (Hgetk2 : getTask p2 k = Some tk) by (rewrite Hother by congruence; exact Hgetk).
    destruct (Core_begin p2 k tk Hcore2 Hfull2 Hgetk2 Hpend) as [_ Hsize3].
    assert (Heq : refill p2 = begin p2 k).
    { unfold refill. rewrite Hfull2, Hkeys, sweep_skip.
      - cbn [sweep]. fold (getTask p2 k). rewrite Hgetk2.
        unfold is_pending. rewrite Hpend. rewrite bool_decide_eq_true_2 by reflexivity.
        rewrite Hcfg2, Hstart.
        replace (full (begin p2 k)) with true; [reflexivity|].
        symmetry. unfold full. apply Nat.leb_le.
        unfold full in Hfull. apply Nat.leb_le in Hfull.
        change (maxConcurrent (begin p2 k)) with (maxConcurrent p2). lia.
      - intros k' Hk'. unfold settled_key. fold (getTask p2 k').
        destruct (decide (k' = taskId)) as [->|Hne'].
        + unfold p2. rewrite getTask_release.
          destruct w; cbn [finish];
            [rewrite getTask_fail_eq|rewrite getTask_complete_eq]; rewrite Hget; reflexivity.
        + rewrite Hother by exact Hne'.
          apply list_elem_of_fmap in Hk' as ([k0 t0] & -> & Hin0). cbn [fst] in *.
          assert (Hget0 : getTask p k0 = Some t0).
          { apply map_get_elem; [exact Hnd|]. rewrite Htasks. apply elem_of_app. left. exact Hin0. }
          rewrite Hget0. rewrite Forall_forall in Hm1. specialize (Hm1 _ Hin0). cbn in Hm1.
          unfold is_pending. apply bool_decide_eq_false_2. exact Hm1. }
    rewrite Heq. split; [reflexivity|].
    split; [rewrite getTask_begin_eq, Hgetk2; reflexivity|].
    pose proof (count_status_begin Running p2 k tk Hgetk2) as HR3.
    pose proof (count_status_begin Pending p2 k tk Hgetk2) as HP3.
    unfold has_status in HR3, HP3. rewrite Hpend in HR3, HP3.
    status_cases. lia.
Qed.

Lemma refill_frame p k : settled_key p k -> getTask (refill p) k = getTask p k.
Proof.
  intros H. unfold refill. destruct (full p); [reflexivity|].
  apply sweep_frame. left. exact H.
Qed.

(** The settled task keeps what [settle] wrote into it. *)
Lemma settle_result_self p taskId t w :
  getTask p taskId = Some t ->
  getTask (settle_result p taskId w) taskId
  = Some (match w with
          | inl e => set_status Failed (set_error e t)
          | inr last => set_status Completed (set_result last t)
          end).
Proof.
  intros Hget. unfold settle_result.
  assert (Hafter : getTask (release (finish p taskId w) taskId) taskId
                   = Some (match w with
                           | inl e => set_status Failed (set_error e t)
                           | inr last => set_status Completed (set_result last t)
                           end)).
  { rewrite getTask_release. destruct w; cbn [finish];
      [rewrite getTask_fail_eq|rewrite getTask_complete_eq]; rewrite Hget; reflexivity. }
  rewrite refill_frame; [exact Hafter|].
  unfold settled_key. fold (getTask (release (finish p taskId w) taskId) taskId).
  rewrite Hafter. destruct w; reflexivity.
Qed.

End PoolPromotion.

(** ** The subagent pool: draining the queue *)

Section PoolDrain.

Import Pool.

Implicit Types (p : SubagentPool) (k taskId : string) (t task : SubagentTask).

Lemma size_running_fail_begin p k t e :
  Core p -> getTask p k = Some t -> status t = Pending ->
  size (running (release (fail (begin p k) k e) k)) = size (running p).
Proof.
  intros [Hnd Hrun Hbound] Hget Hpend.
  assert (Hnotin : k ∉ running p).
  { rewrite Hrun. intros (t' & Ht' & Hs). congruence. }
  cbn [running release fail begin with_tasks with_running].
  f_equal. set_solver.
Qed.

(** A pass over [todo] with one place free: the pending tasks whose
    start throws are failed one after the other, the first one whose
    start does not throw takes the place, and the pass ends there. *)
Lemma sweep_drain (todo : list (string * SubagentTask)) :
  forall p (bad : list (string * SubagentTask)),
    NoDup (map_keys todo) ->
    (forall k t, (k, t) ∈ todo -> getTask p k = Some t) ->
    Core p -> S (size (running p)) = maxConcurrent p ->
    Forall (fun kv => exists e, start (config p) kv.2 = inl e) bad ->
    let p' := sweep (map_keys todo) p in
    (filter (fun kv => is_pending kv.2) todo = bad ->
       (forall k t e, (k, t) ∈ bad -> start (config p) t = inl e ->
          getTask p' k = Some (failed_at_start e t))
       /\ size (running p') = size (running p)
       /\ (getPendingCount p' + length bad = getPendingCount p)%nat)
    /\ (forall k tk rest ok,
          filter (fun kv => is_pending kv.2) todo = bad ++ (k, tk) :: rest ->
          start (config p) tk = inr ok ->
          (forall kb tb e, (kb, tb) ∈ bad -> start (config p) tb = inl e ->
             getTask p' kb = Some (failed_at_start e tb))
          /\ getTask p' k = Some (set_status Running tk)
          /\ (forall kr tr, (kr, tr) ∈ rest -> getTask p' kr = Some tr)
          /\ size (running p') = S (size (running p))
          /\ (getPendingCount p' + S (length bad) = getPendingCount p)%nat).
Proof.
  induction todo as [|[h th] todo IH]; intros p bad Hnd Hget Hcore Hslot Hbad p'.
  - subst p'. cbn [map_keys fmap list_fmap sweep]. rewrite filter_nil. split.
    + intros <-. split; [|split; [reflexivity|cbn; lia]].
      intros k t e Hin. apply elem_of_nil in Hin. destruct Hin.
    + intros k tk rest ok Heq. destruct bad; discriminate.
  - assert (Hgeth : getTask p h = Some th) by (apply Hget; left).
    cbn [map_keys fmap list_fmap fst] in Hnd. apply NoDup_cons in Hnd as [Hfresh Hnd].
    assert (Hne : forall k t, (k, t) ∈ todo -> h <> k).
    { intros k t Hin ->. apply Hfresh. apply list_elem_of_fmap. exists (k, t). auto. }
    assert (Hfull : full p = false) by (apply full_false; lia).
    subst p'. cbn [map_keys fmap list_fmap fst sweep].
    fold (map_keys todo). fold (getTask p h). rewrite Hgeth.
    rewrite filter_cons. cbn [snd].
    destruct (is_pending th) eqn:Hpend.
    2:{ rewrite decide_False by (intros H; exact H).
        apply IH; [exact Hnd| |exact Hcore|exact Hslot|exact Hbad].
        intros k t Hin. apply Hget. right. exact Hin. }
    rewrite decide_True by exact I.
    assert (Hstatus : status th = Pending) by (apply bool_decide_eq_true in Hpend; exact Hpend).
    pose proof (pending_begin p h th Hgeth Hpend) as Hcount.
    destruct (start (config p) th) as [e|ok] eqn:Hstart.
    + set (p2 := release (fail (begin p h) h e) h).
      assert (Hcore2 : Core p2) by (eapply Core_fail_begin; eassumption).
      assert (Hsize2 : size (running p2) = size (running p))
        by (eapply size_running_fail_begin; eassumption).
      assert (Hcount2 : getPendingCount p2 = getPendingCount (begin p h))
        by apply pending_fail_release.
      assert (Hslot2 : S (size (running p2)) = maxConcurrent p2)
        by (rewrite Hsize2; exact Hslot).
      assert (Hget2 : forall k t, (k, t) ∈ todo -> getTask p2 k = Some t).
      { intros k t Hin. unfold p2.
        rewrite getTask_release, getTask_fail_ne, getTask_begin_ne by (eapply Hne; exact Hin).
        apply Hget. right. exact Hin. }
      assert (Hself : getTask (sweep (map_keys todo) p2) h = Some (failed_at_start e th)).
      { rewrite sweep_frame by (left; apply settled_fail_release_self).
        unfold p2. rewrite getTask_release, getTask_fail_eq, getTask_begin_eq, Hgeth.
        reflexivity. }
      split.
      * intros Heq. destruct bad as [|b bad']; [discriminate|].
        injection Heq as <- Heq. apply Forall_cons in Hbad as [_ Hbad'].
        destruct (IH p2 bad' Hnd Hget2 Hcore2 Hslot2 Hbad') as [Hall _].
        destruct (Hall Heq) as (Hfailed & Hsz & Hpc).
        split; [|split; [lia|cbn [length]; lia]].
        intros k t e0 Hin He0. apply elem_of_cons in Hin as [[= -> ->]|Hin].
        -- rewrite Hstart in He0. injection He0 as <-. exact Hself.
        -- apply Hfailed; assumption.
      * intros k tk rest ok Heq Hok. destruct bad as [|b bad'].
        -- injection Heq as -> -> _. congruence.
        -- injection Heq as <- Heq. apply Forall_cons in Hbad as [_ Hbad'].
           destruct (IH p2 bad' Hnd Hget2 Hcore2 Hslot2 Hbad') as [_ Hone].
           destruct (Hone k tk rest ok Heq Hok) as (Hfailed & Hk & Hrest & Hsz & Hpc).
           split; [|split; [exact Hk|split; [exact Hrest|split; [lia|cbn [length]; lia]]]].
           intros kb tb e0 Hin He0. apply elem_of_cons in Hin as [[= -> ->]|Hin].
           ++ rewrite Hstart in He0. injection He0 as <-. exact Hself.
           ++ apply Hfailed; assumption.
    + destruct (Core_begin p h th Hcore Hfull Hgeth Hstatus) as [_ Hsize1].
      assert (Hfull1 : full (begin p h) = true).
      { unfold full. apply Nat.leb_le.
        change (maxConcurrent (begin p h)) with (maxConcurrent p). lia. }
      rewrite Hfull1. split.
      * intros Heq. destruct bad as [|b bad']; [discriminate|].
        injection Heq as <- _. apply Forall_cons in Hbad as [[e He] _].
        cbn [snd] in He. congruence.
      * intros k tk rest ok' Heq Hok. destruct bad as [|b bad'].
        -- injection Heq as <- <- <-.
           split; [intros kb tb e0 Hin; apply elem_of_nil in Hin; destruct Hin|].
           split; [rewrite getTask_begin_eq, Hgeth; reflexivity|].
           split; [|split; [exact Hsize1|cbn [length]; lia]].
           intros kr tr Hin. apply list_elem_of_filter in Hin as [_ Hin].
           rewrite getTask_begin_ne by (eapply Hne; exact Hin).
           apply Hget. right. exact Hin.
        -- injection Heq as <- _. apply Forall_cons in Hbad as [[e He] _].
           cbn [snd] in He. congruence.
Qed.

Lemma getPendingCount_waiting p : getPendingCount p = length (waiting p).
Proof.
  unfold getPendingCount, getAllTasks, waiting.
  rewrite (filter_fmap snd (fun t => is_pending t)), length_fmap. reflexivity.
Qed.

(** Finishing a running task and giving up its place leaves the queue
    as it is. *)
Lemma waiting_finish_release p taskId t w :
  getTask p taskId = Some t -> status t = Running ->
  waiting (release (finish p taskId w) taskId) = waiting p.
Proof.
  intros Hget Hrun. unfold waiting.
  destruct (map_get_split (tasks p) taskId t Hget) as (m1 & m2 & Htasks & _ & Hup).
  assert (Hnot : forall f, status (f t) <> Pending ->
            filter (fun kv : string * SubagentTask => is_pending kv.2)
                   (map_update f (tasks p) taskId)
            = filter (fun kv : string * SubagentTask => is_pending kv.2) (tasks p)).
  { intros f Hf. rewrite Hup, Htasks, !filter_app, !filter_cons. cbn [snd].
    unfold is_pending.
    rewrite (bool_decide_eq_false_2 (status (f t) = Pending)) by exact Hf.
    rewrite (bool_decide_eq_false_2 (status t = Pending)) by congruence.
    rewrite !decide_False by (intros H; exact H). reflexivity. }
  destruct w as [e|last]; cbn [finish tasks release fail complete with_tasks with_running];
    apply Hnot; discriminate.
Qed.

(** When a running task settles: the pending tasks are taken up in
    insertion order; each one whose start throws is failed with its
    error, the first one whose start does not throw takes the place of
    the settled task, and the others keep waiting. *)
Lemma settle_drains p taskId t w (bad : list (string * SubagentTask)) :
  Inv p -> getTask p taskId = Some t -> status t = Running ->
  Forall (fun kv => exists e, start (config p) kv.2 = inl e) bad ->
  let p' := settle_result p taskId w in
  (taskId ∉ running p')
  /\ (waiting p = bad ->
      (forall k tk e, (k, tk) ∈ bad -> start (config p) tk = inl e ->
         getTask p' k = Some (failed_at_start e tk))
      /\ S (getRunningCount p') = getRunningCount p
      /\ getPendingCount p' = 0%nat)
  /\ (forall k tk rest ok,
        waiting p = bad ++ (k, tk) :: rest ->
        start (config p) tk = inr ok ->
        (forall kb tb e, (kb, tb) ∈ bad -> start (config p) tb = inl e ->
           getTask p' kb = Some (failed_at_start e tb))
        /\ getTask p' k = Some (set_status Running tk)
        /\ k ∈ running p'
        /\ (forall kr tr, (kr, tr) ∈ rest -> getTask p' kr = Some tr)
        /\ getRunningCount p' = getRunningCount p
        /\ getPendingCount p' = length rest).
Proof.
  intros Hinv Hget Hrun Hbad p'.
  pose proof (settle_Inv p taskId w Hinv) as [Hcore' _]. fold p' in Hcore'.
  destruct Hinv as [Hcore Hbusy].
  set (p2 := release (finish p taskId w) taskId).
  assert (Hcore2 : Core p2).
  { unfold p2. destruct w as [e|last]; cbn [finish]; unfold fail, complete;
      apply Core_finish_release; [| exact Hcore | | exact Hcore]; intros t0; discriminate. }
  assert (Hcfg2 : config p2 = config p) by (unfold p2; destruct w; reflexivity).
  assert (Hmax2 : maxConcurrent p2 = maxConcurrent p) by (unfold p2; destruct w; reflexivity).
  assert (Hwait2 : waiting p2 = waiting p) by (apply (waiting_finish_release p taskId t w Hget Hrun)).
  assert (Hin : taskId ∈ running p) by (apply (core_running p Hcore); eauto).
  assert (Hsize2 : S (size (running p2)) = size (running p)).
  { unfold p2. destruct w; cbn [running release finish fail complete with_tasks with_running];
      rewrite size_difference by set_solver; rewrite size_singleton;
      (assert (size (running p) <> 0)%nat
        by (intros Hz; apply size_empty_iff in Hz; set_solver)); lia. }
  assert (Hget2 : forall k tk, (k, tk) ∈ tasks p2 -> getTask p2 k = Some tk).
  { intros k tk Hk. apply map_get_elem; [apply (core_nodup p2 Hcore2)|exact Hk]. }
  assert (Hself : taskId ∉ running p').
  { rewrite (core_running p' Hcore'). intros (t' & Ht' & Hs).
    unfold p' in Ht'. rewrite (settle_result_self p taskId t w Hget) in Ht'.
    injection Ht' as <-. destruct w; discriminate. }
  split; [exact Hself|].
  assert (Hslot : waiting p <> [] -> S (size (running p2)) = maxConcurrent p2).
  { intros Hne. rewrite Hsize2, Hmax2.
    destruct (full p) eqn:Hf.
    - unfold full in Hf. apply Nat.leb_le in Hf.
      pose proof (core_bound p Hcore). lia.
    - exfalso. apply Hne. unfold waiting. apply filter_none, Forall_forall.
      intros [k tk] Hk. cbn [snd].
      pose proof (Hbusy Hf k) as Hs. unfold settled_key in Hs.
      assert (Hgk : map_get (tasks p) k = Some tk)
        by (apply map_get_elem; [apply (core_nodup p Hcore)|exact Hk]).
      rewrite Hgk in Hs. rewrite Hs. intros []. }
  assert (Hrefill : waiting p <> [] -> p' = sweep (map_keys (tasks p2)) p2).
  { intros Hne. unfold p', settle_result. fold p2. unfold refill.
    replace (full p2) with false; [reflexivity|].
    symmetry. apply full_false. specialize (Hslot Hne). lia. }
  rewrite <- Hcfg2 in Hbad.
  split.
  - intros Hw. destruct bad as [|b bad'].
    + split; [intros k tk e Hk; apply elem_of_nil in Hk; destruct Hk|].
      assert (Hzero : count_status Pending p = 0%nat)
        by (rewrite <- getPendingCount_count, getPendingCount_waiting, Hw; reflexivity).
      destruct (settle_promotes p taskId t w (conj Hcore Hbusy) Hget Hrun) as [Hnone _].
      destruct (Hnone Hzero) as (Heq & _ & HP). fold p' in Heq, HP.
      split; [|rewrite getPendingCount_count; exact HP].
      unfold getRunningCount. rewrite Heq. fold p2. exact Hsize2.
    + assert (Hne : waiting p <> []) by (rewrite Hw; discriminate).
      destruct (sweep_drain (tasks p2) p2 (b :: bad') (core_nodup p2 Hcore2) Hget2 Hcore2
                  (Hslot Hne) Hbad) as [Hall _].
      rewrite <- (Hrefill Hne) in Hall. fold (waiting p2) in Hall. rewrite Hwait2 in Hall.
      destruct (Hall Hw) as (Hfailed & Hsz & Hpc).
      rewrite Hcfg2 in Hfailed. split; [exact Hfailed|].
      unfold getRunningCount. split; [lia|].
      pose proof (getPendingCount_waiting p2) as Hp2. rewrite Hwait2, Hw in Hp2. lia.
  - intros k tk rest ok Hw Hok.
    assert (Hne : waiting p <> []) by (rewrite Hw; destruct bad; discriminate).
    destruct (sweep_drain (tasks p2) p2 bad (core_nodup p2 Hcore2) Hget2 Hcore2
                (Hslot Hne) Hbad) as [_ Hone].
    rewrite <- (Hrefill Hne) in Hone. fold (waiting p2) in Hone. rewrite Hwait2, Hcfg2 in Hone.
    destruct (Hone k tk rest ok Hw Hok) as (Hfailed & Hk & Hrest & Hsz & Hpc).
    split; [exact Hfailed|]. split; [exact Hk|].
    split; [apply (core_running p' Hcore'); eauto|].
    split; [exact Hrest|]. unfold getRunningCount. split; [lia|].
    pose proof (getPendingCount_waiting p2) as Hp2. rewrite Hwait2, Hw in Hp2.
    rewrite length_app in Hp2. cbn [length] in Hp2. lia.
Qed.

End PoolDrain.

(** C2 (as amended).  (1) From a new pool, [N] spawns with distinct ids
    whose starts do not throw, nothing settling in between, leave
    [min N maxConcurrent] tasks running and the other
    [N - min N maxConcurrent] pending: [maxConcurrent] and
    [N - maxConcurrent] when [N > maxConcurrent].  (2) When a running task
    of a reachable pool settles, the queue is drained at once: with
    nothing pending one task less is running; otherwise, if the start of
    the first pending task in insertion order does not throw, that task
    and no other is promoted, so as many tasks are running as before and
    one less is pending.  (3) In general the drain takes up the pending
    tasks in insertion order: every one whose start throws is failed on
    the spot with the error thrown, and the next one is taken up; the
    first one whose start does not throw is promoted, and the tasks
    behind it keep waiting untouched, so as many tasks are running as
    before; when the start of every pending task throws, all of them are
    failed, none is pending and one task less is running.  (4) In every
    reachable pool the running set holds exactly the tasks in status
    [Running], and at most [maxConcurrent] of them. *)
Theorem C2_pool_concurrency :
  (forall maxConcurrent defaultModel config
          (requests : list (string * string * option string)),
      let p0 := Pool.create maxConcurrent defaultModel config in
      let N := length requests in
      NoDup (fst <$> (fst <$> requests)) ->
      (forall r, r ∈ requests -> startable (Pool.config p0) (Pool.defaultModel p0) r) ->
      exists p,
        spawn_all p0 requests = Some p
        /\ Pool.getRunningCount p = Nat.min N (Pool.maxConcurrent p0)
        /\ count_status Pool.Running p = Nat.min N (Pool.maxConcurrent p0)
        /\ Pool.getPendingCount p = (N - Nat.min N (Pool.maxConcurrent p0))%nat)
  /\ (forall p taskId t w,
        reachable p -> Pool.getTask p taskId = Some t -> Pool.status t = Pool.Running ->
        exists p',
          Pool.settle p taskId w = Some p'
          /\ (Pool.getPendingCount p = 0%nat ->
              S (count_status Pool.Running p') = count_status Pool.Running p
              /\ Pool.getPendingCount p' = 0%nat)
          /\ (forall m1 k tk m2 ok,
                Pool.tasks p = m1 ++ (k, tk) :: m2 ->
                Forall (fun kv => Pool.status kv.2 <> Pool.Pending) m1 ->
                Pool.status tk = Pool.Pending ->
                Pool.start (Pool.config p) tk = inr ok ->
                Pool.getTask p' k = Some (Pool.set_status Pool.Running tk)
                /\ count_status Pool.Running p' = count_status Pool.Running p
                /\ S (Pool.getPendingCount p') = Pool.getPendingCount p)
          /\ (forall bad : list (string * Pool.SubagentTask),
                Forall (fun kv => exists e, Pool.start (Pool.config p) kv.2 = inl e) bad ->
                (waiting p = bad ->
                 (forall k tk e,
                     (k, tk) ∈ bad -> Pool.start (Pool.config p) tk = inl e ->
                     Pool.getTask p' k = Some (failed_at_start e tk))
                 /\ S (Pool.getRunningCount p') = Pool.getRunningCount p
                 /\ Pool.getPendingCount p' = 0%nat)
                /\ (forall k tk rest ok,
                      waiting p = bad ++ (k, tk) :: rest ->
                      Pool.start (Pool.config p) tk = inr ok ->
                      (forall kb tb e,
                          (kb, tb) ∈ bad -> Pool.start (Pool.config p) tb = inl e ->
                          Pool.getTask p' kb = Some (failed_at_start e tb))
                      /\ Pool.getTask p' k = Some (Pool.set_status Pool.Running tk)
                      /\ (forall kr tr, (kr, tr) ∈ rest -> Pool.getTask p' kr = Some tr)
                      /\ Pool.getRunningCount p' = Pool.getRunningCount p
                      /\ Pool.getPendingCount p' = length rest)))
  /\ (forall p,
        reachable p ->
        Pool.getRunningCount p = count_status Pool.Running p
        /\ (Pool.getRunningCount p <= Pool.maxConcurrent p)%nat).
Proof.
  split; [|split].
  - intros maxc dm cfg requests p0 N Hnd Hstartable.
    destruct (spawn_all_counts requests p0 0 (Inv_create maxc dm cfg) Hnd)
      as (p & Hall & Hinv & Hmax & HR & HP).
    + intros r _. reflexivity.
    + exact Hstartable.
    + cbn. lia.
    + cbn. lia.
    + exists p. cbn [Nat.add] in HR, HP. fold N in HR, HP.
      split; [exact Hall|]. unfold Pool.getRunningCount.
      rewrite <- (count_running_size p (proj1 Hinv)).
      rewrite getPendingCount_count. auto.
  - intros p taskId t w Hreach Hget Hrun.
    exists (settle_result p taskId w). split; [apply settle_eq|].
    destruct (settle_promotes p taskId t w (reachable_Inv p Hreach) Hget Hrun)
      as [Hnone Hfirst].
    rewrite !getPendingCount_count. split; [|split].
    + intros Hzero. destruct (Hnone Hzero) as (_ & HR & HP). auto.
    + intros m1 k tk m2 ok Htasks Hm1 Hpend Hstart.
      destruct (Hfirst m1 k tk m2 ok Htasks Hm1 Hpend Hstart) as (_ & Hk & HR & HP).
      rewrite getPendingCount_count. auto.
    + intros bad Hbad.
      destruct (settle_drains p taskId t w bad (reachable_Inv p Hreach) Hget Hrun Hbad)
        as (_ & Hall & Hone).
      split; [exact Hall|].
      intros k tk rest ok Hw Hok.
      destruct (Hone k tk rest ok Hw Hok) as (Hfailed & Hk & _ & Hrest & HR & HP).
      auto.
  - intros p Hreach. destruct (reachable_Inv p Hreach) as [Hcore _].
    unfold Pool.getRunningCount. rewrite (count_running_size p Hcore).
    split; [reflexivity|apply Hcore].
Qed.

Lemma C2_pool_concurrency_witness :
  exists p,
    spawn_all (Pool.create (Some 2%nat) None ollama_only) three_requests = Some p
    /\ Pool.getRunningCount p = 2%nat
    /\ Pool.getPendingCount p = 1%nat.
Proof.
  destruct C2_pool_concurrency as [Hfill _].
  destruct (Hfill (Some 2%nat) None ollama_only three_requests)
    as (p & Hall & Hrun & _ & Hpend).
  - apply (bool_decide_unpack _). vm_compute. exact I.
  - intros r Hr. unfold three_requests in Hr.
    repeat (apply elem_of_cons in Hr as [->|Hr]); [| | |apply elem_of_nil in Hr; destruct Hr];
      eexists; vm_compute; reflexivity.
  - exists p. split; [exact Hall|]. split; [exact Hrun|exact Hpend].
Defined.

Lemma C2_counterexample :
  exists p p',
    spawn_all (Pool.create (Some 1%nat) None ollama_only) two_bad_requests = Some p
    /\ Pool.getRunningCount p = 1%nat
    /\ Pool.getPendingCount p = 2%nat
    /\ Pool.settle p "A" (inr (Some "done"%string)) = Some p'
    /\ Pool.getPendingCount p' = 0%nat
    /\ Pool.getRunningCount p' = 0%nat
    /\ (Pool.status <$> Pool.getTask p' "B") = Some Pool.Failed
    /\ (Pool.status <$> Pool.getTask p' "C") = Some Pool.Failed.
Proof. do 2 eexists. vm_compute. repeat split. Qed.

(** ** The subagent pool: failures stay with their task *)

Section PoolFailures.

Import Pool.

Implicit Types (p : SubagentPool) (k taskId : string) (t task : SubagentTask).

Lemma sweep_pending_fate keys :
  forall p k t, getTask p k = Some t -> status t = Pending ->
    pending_fate (config p) t (getTask (sweep keys p) k).
Proof.
  induction keys as [|h keys IH]; intros p k t Hget Hpend; [left; exact Hget|].
  cbn [sweep].
  destruct (map_get (tasks p) h) as [th|] eqn:Hgeth; [|apply IH; assumption].
  destruct (is_pending th) eqn:Hph; [|apply IH; assumption].
  destruct (decide (h = k)) as [->|Hne].
  - fold (getTask p k) in Hgeth. rewrite Hget in Hgeth. injection Hgeth as <-.
    destruct (start (config p) t) as [e|ok] eqn:Hstart.
    + right. right. exists e. split; [exact Hstart|].
      rewrite sweep_frame by (left; apply settled_fail_release_self).
      rewrite getTask_release, getTask_fail_eq, getTask_begin_eq, Hget. reflexivity.
    + right. left.
      destruct (full (begin p k)).
      * rewrite getTask_begin_eq, Hget. reflexivity.
      * rewrite sweep_frame by (left; apply settled_begin_self).
        rewrite getTask_begin_eq, Hget. reflexivity.
  - destruct (start (config p) th) as [e|ok].
    + apply (IH (release (fail (begin p h) h e) h)); [|exact Hpend].
      rewrite getTask_release, getTask_fail_ne, getTask_begin_ne by exact Hne. exact Hget.
    + destruct (full (begin p h)).
      * left. rewrite getTask_begin_ne by exact Hne. exact Hget.
      * apply (IH (begin p h)); [|exact Hpend].
        rewrite getTask_begin_ne by exact Hne. exact Hget.
Qed.

Lemma refill_pending_fate p k t :
  getTask p k = Some t -> status t = Pending ->
  pending_fate (config p) t (getTask (refill p) k).
Proof.
  intros Hget Hpend. unfold refill. destruct (full p); [left; exact Hget|].
  apply sweep_pending_fate; assumption.
Qed.

(** The other tasks: one that is not pending is left as it is, a pending
    one may be started. *)
Lemma settle_result_others p taskId w k tk :
  k <> taskId -> getTask p k = Some tk ->
  (status tk <> Pending -> getTask (settle_result p taskId w) k = Some tk)
  /\ (status tk = Pending ->
      pending_fate (config p) tk (getTask (settle_result p taskId w) k)).
Proof.
  intros Hne Hget. unfold settle_result.
  assert (Hafter : getTask (release (finish p taskId w) taskId) k = Some tk).
  { rewrite getTask_release. destruct w; cbn [finish];
      [rewrite getTask_fail_ne|rewrite getTask_complete_ne]; congruence. }
  assert (Hcfg : config (release (finish p taskId w) taskId) = config p)
    by (destruct w; reflexivity).
  split.
  - intros Hs. rewrite refill_frame; [exact Hafter|].
    unfold settled_key. fold (getTask (release (finish p taskId w) taskId) k).
    rewrite Hafter. apply bool_decide_eq_false_2, Hs.
  - intros Hs. rewrite <- Hcfg. apply refill_pending_fate; assumption.
Qed.

(** A [spawn] whose start throws returns the id all the same, with the
    task failed. *)
Lemma spawn_result_failed p taskId prompt model e :
  (size (running p) < maxConcurrent p)%nat ->
  start (config p) (new_task (defaultModel p) taskId prompt model) = inl e ->
  getTask (spawn_result p taskId prompt model) taskId
  = Some (set_status Failed (set_error e
            (set_status Running (new_task (defaultModel p) taskId prompt model)))).
Proof.
  intros Hroom Hstart. unfold spawn_result.
  set (p1 := enqueue p taskId prompt model).
  assert (Hget1 : getTask p1 taskId = Some (new_task (defaultModel p) taskId prompt model))
    by apply map_get_set_eq.
  apply Nat.ltb_lt in Hroom.
  change (running p1) with (running p). change (maxConcurrent p1) with (maxConcurrent p).
  rewrite Hroom. unfold runTask_result. fold (getTask p1 taskId). rewrite Hget1.
  change (config p1) with (config p). rewrite Hstart.
  rewrite refill_frame by apply settled_fail_release_self.
  rewrite getTask_release, getTask_fail_eq, getTask_begin_eq, Hget1. reflexivity.
Qed.

End PoolFailures.

(** A turn throws the first error of the triggers, if there is one, and
    otherwise the error of a provider that fails. *)
Lemma turn_error RegExp_i initialPrompt options k context :
  (forall error,
      first_trigger_error RegExp_i (skills context) = Some error ->
      Runner.turn RegExp_i initialPrompt options k context = ([], inl error))
  /\ (first_trigger_error RegExp_i (skills context) = None ->
      forall e,
        (forall messages opts, failure (Runner.provider options k messages opts) = Some e) ->
        snd (Runner.turn RegExp_i initialPrompt options k context) = inl e).
Proof.
  unfold Runner.turn.
  pose proof (matchSkills_sorted_view RegExp_i
                (Compaction.or_string (lastMessage context) initialPrompt) (skills context))
    as Hmatch.
  destruct (first_trigger_error RegExp_i (skills context)) as [error0|].
  - rewrite Hmatch. split; [intros error [= <-]; reflexivity|discriminate].
  - destruct Hmatch as (results & -> & _). split; [discriminate|].
    intros _ e Hfail.
    unfold Runner.skill_turn, Runner.chat_turn, SkillRunner.runSkill.
    destruct (JS.sort _ results) as [|m ms].
    + rewrite Hfail. reflexivity.
    + destruct (80 <=? Matcher.score m); rewrite Hfail; reflexivity.
Qed.

(** The awaited work of a task whose provider fails in the first turn
    throws: the first error of the triggers of the loaded skills, if
    there is one, and the provider's error otherwise. *)
Lemma work_error RegExp_i clock config task model skills chat e :
  (forall messages opts, failure (chat 1%nat messages opts) = Some e) ->
  Pool.work RegExp_i clock config task model (inr skills) chat
  = Some (inl (default e (first_trigger_error RegExp_i skills))).
Proof.
  intros Hfail. unfold Pool.work, Runner.runAgent, Runner.runAgent_fuel.
  change (Runner.turn_limit _) with 5%nat. cbn [Runner.loop].
  change (0 <? Runner.turn_limit _)%nat with true. cbv iota.
  match goal with
  | |- context [Runner.turn ?r ?i ?o ?k ?c] =>
      destruct (turn_error r i o k c) as [Hsyntax Hprovider];
      change (Types.skills c) with skills in Hsyntax, Hprovider;
      destruct (first_trigger_error RegExp_i skills) as [error|];
      [rewrite (Hsyntax error eq_refl)
      |specialize (Hprovider eq_refl e Hfail);
       destruct (Runner.turn r i o k c) as [written result];
       cbn [snd] in Hprovider; subst result]
  end; reflexivity.
Qed.

(** C6.  [spawn] always returns the task id; when the start of the new
    task throws, the error is in the task's [error] field and its status
    is [Failed].  When the awaited work of a task throws [e], the task
    gets status [Failed] and error [e]; every other task that is not
    pending is left exactly as it was, and a sibling that was running can
    still complete with its result.  In a reachable pool the failed task
    gives up its place, and the queue is drained: the pending siblings
    are taken up in insertion order, one whose start throws is failed
    with its own error, the first one whose start does not throw takes
    the place, runs and can complete with its result, and the ones behind
    it keep waiting; with nothing to promote one task less is running.
    A provider that throws in the first turn makes the work throw, the
    error of a trigger that is no regular expression coming first, so a
    resumed task ends [Failed] with that error; and so does a task whose
    skills cannot be loaded. *)
Theorem C6_task_failures_contained :
  (forall p taskId prompt model,
      exists p',
        Pool.spawn p taskId prompt model = Some (taskId, p')
        /\ forall e,
             (size (Pool.running p) < Pool.maxConcurrent p)%nat ->
             Pool.start (Pool.config p)
               (new_task (Pool.defaultModel p) taskId prompt model) = inl e ->
             exists t',
               Pool.getTask p' taskId = Some t'
               /\ Pool.status t' = Pool.Failed /\ Pool.error t' = Some e)
  /\ (forall p taskId t e,
        Pool.getTask p taskId = Some t ->
        exists p',
          Pool.settle p taskId (inl e) = Some p'
          /\ Pool.getTask p' taskId = Some (Pool.set_status Pool.Failed (Pool.set_error e t))
          /\ (forall k tk,
                k <> taskId -> Pool.getTask p k = Some tk ->
                (Pool.status tk <> Pool.Pending -> Pool.getTask p' k = Some tk)
                /\ (Pool.status tk = Pool.Pending ->
                    pending_fate (Pool.config p) tk (Pool.getTask p' k)))
          /\ (forall k tk last,
                k <> taskId -> Pool.getTask p k = Some tk ->
                Pool.status tk = Pool.Running ->
                exists p'',
                  Pool.settle p' k (inr last) = Some p''
                  /\ Pool.getTask p'' k
                     = Some (Pool.set_status Pool.Completed (Pool.set_result last tk))))
  /\ (forall p taskId t e (bad : list (string * Pool.SubagentTask)),
        reachable p ->
        Pool.getTask p taskId = Some t -> Pool.status t = Pool.Running ->
        Forall (fun kv => exists e', Pool.start (Pool.config p) kv.2 = inl e') bad ->
        exists p',
          Pool.settle p taskId (inl e) = Some p'
          /\ Pool.getTask p' taskId = Some (Pool.set_status Pool.Failed (Pool.set_error e t))
          /\ (taskId ∉ Pool.running p')
          /\ (waiting p = bad ->
              (forall k tk e',
                  (k, tk) ∈ bad -> Pool.start (Pool.config p) tk = inl e' ->
                  Pool.getTask p' k = Some (failed_at_start e' tk))
              /\ S (Pool.getRunningCount p') = Pool.getRunningCount p
              /\ Pool.getPendingCount p' = 0%nat)
          /\ (forall k tk rest ok,
                waiting p = bad ++ (k, tk) :: rest ->
                Pool.start (Pool.config p) tk = inr ok ->
                (forall kb tb e',
                    (kb, tb) ∈ bad -> Pool.start (Pool.config p) tb = inl e' ->
                    Pool.getTask p' kb = Some (failed_at_start e' tb))
                /\ Pool.getTask p' k = Some (Pool.set_status Pool.Running tk)
                /\ (k ∈ Pool.running p')
                /\ (forall kr tr, (kr, tr) ∈ rest -> Pool.getTask p' kr = Some tr)
                /\ Pool.getRunningCount p' = Pool.getRunningCount p
                /\ Pool.getPendingCount p' = length rest
                /\ (forall last,
                      exists p'',
                        Pool.settle p' k (inr last) = Some p''
                        /\ Pool.getTask p'' k
                           = Some (Pool.set_status Pool.Completed
                                     (Pool.set_result last
                                        (Pool.set_status Pool.Running tk))))))
  /\ (forall RegExp_i clock p taskId t provider model skills chat e,
        Pool.getTask p taskId = Some t ->
        Pool.start (Pool.config p) t = inr (provider, model) ->
        (forall messages opts, failure (chat 1%nat messages opts) = Some e) ->
        let thrown := default e (first_trigger_error RegExp_i skills) in
        Pool.work RegExp_i clock (Pool.config p) t model (inr skills) chat
          = Some (inl thrown)
        /\ exists p',
             Pool.resume RegExp_i clock p taskId (inr skills) chat = Some p'
             /\ Pool.getTask p' taskId
                = Some (Pool.set_status Pool.Failed (Pool.set_error thrown t)))
  /\ (forall RegExp_i clock p taskId t provider model chat e,
        Pool.getTask p taskId = Some t ->
        Pool.start (Pool.config p) t = inr (provider, model) ->
        exists p',
          Pool.resume RegExp_i clock p taskId (inl e) chat = Some p'
          /\ Pool.getTask p' taskId
             = Some (Pool.set_status Pool.Failed (Pool.set_error e t))).
Proof.
  split; [|split; [|split; [|split]]].
  - intros p taskId prompt model. exists (spawn_result p taskId prompt model).
    split; [apply spawn_eq|]. intros e Hroom Hstart.
    eexists. split; [apply spawn_result_failed; eassumption|]. split; reflexivity.
  - intros p taskId t e Hget. exists (settle_result p taskId (inl e)).
    split; [apply settle_eq|].
    split; [apply (settle_result_self p taskId t (inl e) Hget)|].
    split.
    + intros k tk Hne Hk. apply settle_result_others; assumption.
    + intros k tk last Hne Hk Hrun.
      exists (settle_result (settle_result p taskId (inl e)) k (inr last)).
      split; [apply settle_eq|].
      apply (settle_result_self _ k tk (inr last)).
      apply (settle_result_others p taskId (inl e) k tk Hne Hk).
      rewrite Hrun. discriminate.
  - intros p taskId t e bad Hreach Hget Hrun Hbad.
    exists (settle_result p taskId (inl e)).
    split; [apply settle_eq|].
    split; [apply (settle_result_self p taskId t (inl e) Hget)|].
    destruct (settle_drains p taskId t (inl e) bad (reachable_Inv p Hreach) Hget Hrun Hbad)
      as (Hfree & Hall & Hone).
    split; [exact Hfree|]. split; [exact Hall|].
    intros k tk rest ok Hw Hok.
    destruct (Hone k tk rest ok Hw Hok) as (Hfailed & Hk & Hin & Hrest & HR & HP).
    repeat (split; [assumption|]).
    intros last.
    exists (settle_result (settle_result p taskId (inl e)) k (inr last)).
    split; [apply settle_eq|].
    apply (settle_result_self _ k _ (inr last)). exact Hk.
  - intros RegExp_i clock p taskId t provider model skills chat e Hget Hstart Hfail thrown.
    pose proof (work_error RegExp_i clock (Pool.config p) t model skills chat e Hfail)
      as Hwork.
    fold thrown in Hwork. split; [exact Hwork|].
    exists (settle_result p taskId (inl thrown)).
    unfold Pool.resume. fold (Pool.getTask p taskId). rewrite Hget, Hstart, Hwork.
    split; [apply settle_eq|apply (settle_result_self p taskId t (inl thrown) Hget)].
  - intros RegExp_i clock p taskId t provider model chat e Hget Hstart.
    exists (settle_result p taskId (inl e)).
    unfold Pool.resume. fold (Pool.getTask p taskId). rewrite Hget, Hstart.
    split; [apply settle_eq|apply (settle_result_self p taskId t (inl e) Hget)].
Qed.

Lemma one_at_a_time_reachable : reachable one_at_a_time.
Proof.
  eapply (reach_spawn _ "B" "second task" None).
  - eapply (reach_spawn _ "A" "first task" None).
    + apply (reach_create (Some 1%nat) None ollama_only).
    + reflexivity.
    + vm_compute. reflexivity.
  - reflexivity.
  - vm_compute. reflexivity.
Qed.

(** A pool of one: [A] runs and [B] waits.  When the provider of [A]
    fails, [A] is failed with the error, its place is free, and [B]
    runs. *)
Lemma C6_task_failures_contained_witness :
  exists p',
    Pool.settle one_at_a_time "A" (inl "connection refused"%string) = Some p'
    /\ (Pool.error <$> Pool.getTask p' "A") = Some (Some "connection refused"%string)
    /\ ("A"%string ∉ Pool.running p')
    /\ (Pool.status <$> Pool.getTask p' "B") = Some Pool.Running
    /\ Pool.getRunningCount p' = 1%nat.
Proof.
  destruct C6_task_failures_contained as (_ & _ & Hdrain & _).
  destruct (Hdrain one_at_a_time "A"%string
              (Pool.mkTask "A" "first task" (Some "ollama/llama3.3:70b"%string)
                 Pool.Running None None)
              "connection refused"%string []
              one_at_a_time_reachable eq_refl eq_refl (Forall_nil_2 _))
    as (p' & Hp' & Hself & Hfree & _ & Hone).
  destruct (Hone "B"%string
              (Pool.mkTask "B" "second task" (Some "ollama/llama3.3:70b"%string)
                 Pool.Pending None None)
              []
              (Providers.mkHandle "ollama" (mkProviderConfig None None None),
               "llama3.3:70b"%string))
    as (_ & HB & _ & _ & HR & _).
  - reflexivity.
  - reflexivity.
  - exists p'. split; [exact Hp'|]. split; [rewrite Hself; reflexivity|].
    split; [exact Hfree|]. split; [rewrite HB; reflexivity|].
    rewrite HR. reflexivity.
Defined.

(** ** The subagent pool: waiting for a task *)

Section PoolWaiting.

Import Pool.

Implicit Types (p : SubagentPool) (k taskId : string) (t task : SubagentTask).

Lemma occur_total p (e : Event) : exists p', occur p e = Some p'.
Proof.
  destruct e as [taskId prompt model|taskId w]; cbn [occur].
  - rewrite spawn_eq. eexists. reflexivity.
  - rewrite settle_eq. eexists. reflexivity.
Qed.

Lemma occur_all_total (es : list Event) : forall p, exists p', occur_all p es = Some p'.
Proof.
  induction es as [|e es IH]; intros p; cbn [occur_all]; [eauto|].
  destruct (occur_total p e) as [p1 ->]. cbn. apply IH.
Qed.

Lemma occur_all_app (es1 es2 : list Event) :
  forall p, occur_all p (es1 ++ es2) = p' ← occur_all p es1; occur_all p' es2.
Proof.
  induction es1 as [|e es1 IH]; intros p; cbn [app occur_all]; [reflexivity|].
  destruct (occur p e) as [p1|]; cbn; [apply IH|reflexivity].
Qed.

Lemma poll_unfinished (startTime timeoutMs : Z) taskId early :
  forall p p1 rest,
    unfinished startTime timeoutMs taskId p early = Some p1 ->
    poll startTime timeoutMs taskId p (early ++ rest)
    = poll startTime timeoutMs taskId p1 rest.
Proof.
  induction early as [|[now during] early IH]; intros p p1 rest; cbn [unfinished app poll].
  - intros [= <-]. reflexivity.
  - unfold getTask. destruct (now - startTime <? timeoutMs); [|discriminate].
    destruct (map_get (tasks p) taskId) as [t|]; [|discriminate].
    destruct (is_terminal t); [discriminate|].
    destruct (occur_all p during) as [p'|]; cbn; [apply IH|discriminate].
Qed.

(** Polling changes nothing: the pool is what the events made of it. *)
Lemma unfinished_events (startTime timeoutMs : Z) taskId early :
  forall p p1,
    unfinished startTime timeoutMs taskId p early = Some p1 ->
    occur_all p (concat (snd <$> early)) = Some p1.
Proof.
  induction early as [|[now during] early IH]; intros p p1; cbn [unfinished fmap list_fmap concat snd].
  - intros [= <-]. reflexivity.
  - destruct (now - startTime <? timeoutMs); [|discriminate].
    destruct (getTask p taskId) as [t|]; [|discriminate].
    destruct (is_terminal t); [discriminate|].
    rewrite occur_all_app.
    destruct (occur_all p during) as [p'|]; cbn; [apply IH|discriminate].
Qed.

End PoolWaiting.

(** C7 (as amended).  Let the polls of [early] come before the deadline
    and find the task unfinished, and let [p1] be the pool they leave,
    which is the pool the events alone produce.  The next poll, at time
    [now]: before the deadline, it returns the task if it is [Completed]
    or [Failed], and throws task-not-found if the id names no task; at or
    after the deadline (always, when [timeoutMs <= 0]) it throws the
    timeout error without looking at the task, which is in the pool as
    the events left it and becomes terminal when it settles. *)
Theorem C7_waitFor
    (p p1 : Pool.SubagentPool) (taskId : string) (timeoutMs : option Z)
    (startTime now : Z) (early rest : list (Z * list Pool.Event))
    (during : list Pool.Event) :
  let timeout := default Pool.default_timeoutMs timeoutMs in
  let schedule := early ++ (now, during) :: rest in
  unfinished startTime timeout taskId p early = Some p1 ->
  Pool.occur_all p (concat (snd <$> early)) = Some p1
  /\ (now - startTime < timeout ->
      forall t, Pool.getTask p1 taskId = Some t -> Pool.is_terminal t = true ->
        Pool.waitFor p taskId timeoutMs startTime schedule = Some (inr t, p1))
  /\ (now - startTime < timeout ->
      Pool.getTask p1 taskId = None ->
      Pool.waitFor p taskId timeoutMs startTime schedule
      = Some (inl (Pool.TaskNotFound taskId), p1))
  /\ (timeout <= now - startTime ->
      Pool.waitFor p taskId timeoutMs startTime schedule
      = Some (inl (Pool.TaskTimedOut taskId), p1)
      /\ forall t w, Pool.getTask p1 taskId = Some t ->
           exists p2 t',
             Pool.settle p1 taskId w = Some p2
             /\ Pool.getTask p2 taskId = Some t'
             /\ Pool.is_terminal t' = true).
Proof.
  intros timeout schedule Hearly.
  split; [eapply unfinished_events; exact Hearly|].
  unfold Pool.waitFor, schedule. fold timeout.
  rewrite (poll_unfinished _ _ _ _ _ _ _ Hearly). cbn [Pool.poll].
  split; [|split].
  - intros Hnow t Hget Hterm. apply Z.ltb_lt in Hnow. rewrite Hnow.
    unfold Pool.getTask in Hget. rewrite Hget, Hterm. reflexivity.
  - intros Hnow Hget. apply Z.ltb_lt in Hnow. rewrite Hnow.
    unfold Pool.getTask in Hget. rewrite Hget. reflexivity.
  - intros Hlate. apply Z.ltb_ge in Hlate. rewrite Hlate.
    split; [reflexivity|]. intros t w Hget.
    exists (settle_result p1 taskId w). eexists.
    split; [apply settle_eq|].
    split; [apply (settle_result_self p1 taskId t w Hget)|].
    destruct w; reflexivity.
Qed.

Lemma C7_waitFor_witness :
  Pool.waitFor two_running "B" (Some 250) 1000
    [ (1000, []); (1100, [Pool.Settled "A" (inr (Some "done"%string))]); (1300, []) ]
  = Some (inl (Pool.TaskTimedOut "B"),
          settle_result two_running "A" (inr (Some "done"%string))).
Proof.
  apply (C7_waitFor two_running
           (settle_result two_running "A" (inr (Some "done"%string)))
           "B" (Some 250) 1000 1300
           [ (1000, []); (1100, [Pool.Settled "A" (inr (Some "done"%string))]) ]
           [] []).
  - vm_compute. reflexivity.
  - vm_compute. discriminate.
Defined.

(** With [timeoutMs = 0] the loop body is never entered: an id that
    names no task gets the timeout error, not task-not-found. *)
Lemma C7_counterexample :
  Pool.getTask (Pool.create None None ollama_only) "ghost" = None
  /\ Pool.waitFor (Pool.create None None ollama_only) "ghost" (Some 0) 1000 [ (1000, []) ]
     = Some (inl (Pool.TaskTimedOut "ghost"), Pool.create None None ollama_only)
  /\ Pool.message (Pool.TaskTimedOut "ghost") = "Task ghost timed out"%string.
Proof. repeat split. Qed.

(** ** Splitting and joining strings; model strings *)

Section StringFacts.

Local Open Scope string_scope.

Lemma append_cons (x : ascii) (a b : string) : String x a +:+ b = String x (a +:+ b).
Proof. reflexivity. Qed.

Lemma append_nil_l (b : string) : EmptyString +:+ b = b.
Proof. reflexivity. Qed.

Lemma append_assoc (a b c : string) : (a +:+ b) +:+ c = a +:+ (b +:+ c).
Proof.
  induction a as [|x a IH]; [reflexivity|].
  rewrite !append_cons, IH. reflexivity.
Qed.

Lemma append_nil_r (a : string) : a +:+ EmptyString = a.
Proof.
  induction a as [|x a IH]; [reflexivity|].
  rewrite append_cons, IH. reflexivity.
Qed.

Lemma includes_str1 (c d : ascii) (r : string) :
  JS.includes (String d r) (JS.str1 c) = Ascii.eqb c d || JS.includes r (JS.str1 c).
Proof.
  cbn. destruct (ascii_dec c d) as [->|Hne].
  - rewrite Ascii.eqb_refl. destruct r; reflexivity.
  - apply Ascii.eqb_neq in Hne. rewrite Hne. reflexivity.
Qed.

(** The text in front of the first occurrence of a character. *)
Lemma first_occurrence (c : ascii) (s : string) :
  JS.includes s (JS.str1 c) = true ->
  exists a b, s = a +:+ String c b /\ JS.includes a (JS.str1 c) = false.
Proof.
  induction s as [|d r IH]; [discriminate|].
  rewrite includes_str1. destruct (Ascii.eqb_spec c d) as [->|Hne].
  - intros _. exists EmptyString, r. split; reflexivity.
  - cbn [orb]. intros H. destruct (IH H) as (a & b & -> & Ha).
    exists (String d a), b. split; [reflexivity|].
    rewrite includes_str1, Ha. apply Ascii.eqb_neq in Hne. rewrite Hne. reflexivity.
Qed.

Lemma includes_append_char (c : ascii) (a b : string) :
  JS.includes (a +:+ String c b) (JS.str1 c) = true.
Proof.
  induction a as [|d a IH].
  - rewrite append_nil_l, includes_str1, Ascii.eqb_refl. reflexivity.
  - rewrite append_cons, includes_str1, IH. apply orb_true_r.
Qed.

Lemma split_on_nonempty (sep : ascii -> bool) (s cur : string) :
  JS.split_on sep cur s <> [].
Proof. revert cur. induction s as [|d r IH]; intros cur; cbn; [|destruct (sep d)]; auto; congruence. Qed.

Lemma concat_cons (sep x : string) (l : list string) :
  l <> [] -> String.concat sep (x :: l) = x +:+ sep +:+ String.concat sep l.
Proof. destruct l; [congruence|reflexivity]. Qed.

(** Joining the pieces of a split gives the text back. *)
Lemma join_split_char (c : ascii) (s cur : string) :
  JS.join (JS.str1 c) (JS.split_on (Ascii.eqb c) cur s) = cur +:+ s.
Proof.
  unfold JS.join. revert cur. induction s as [|d r IH]; intros cur.
  - cbn. rewrite append_nil_r. reflexivity.
  - cbn [JS.split_on]. destruct (Ascii.eqb_spec c d) as [->|Hne].
    + rewrite concat_cons by apply split_on_nonempty. rewrite IH. reflexivity.
    + rewrite IH, append_assoc. reflexivity.
Qed.

Lemma split_on_free (c : ascii) (s cur : string) :
  JS.includes s (JS.str1 c) = false ->
  JS.split_on (Ascii.eqb c) cur s = [cur +:+ s].
Proof.
  revert cur. induction s as [|d r IH]; intros cur.
  - intros _. cbn. rewrite append_nil_r. reflexivity.
  - rewrite includes_str1. intros H. apply orb_false_elim in H as [Hd Hr].
    cbn [JS.split_on]. rewrite Hd, (IH _ Hr), append_assoc. reflexivity.
Qed.

Lemma split_on_first (c : ascii) (a b cur : string) :
  JS.includes a (JS.str1 c) = false ->
  JS.split_on (Ascii.eqb c) cur (a +:+ String c b)
  = (cur +:+ a) :: JS.split_on (Ascii.eqb c) EmptyString b.
Proof.
  revert cur. induction a as [|d a IH]; intros cur.
  - intros _. rewrite append_nil_l, append_nil_r. cbn [JS.split_on].
    rewrite Ascii.eqb_refl. reflexivity.
  - rewrite includes_str1. intros H. apply orb_false_elim in H as [Hd Ha].
    rewrite append_cons. cbn [JS.split_on]. rewrite Hd, (IH _ Ha), append_assoc. reflexivity.
Qed.

Lemma slice_tail {A} (x : A) (l : list A) : JS.slice (x :: l) 1 None = l.
Proof.
  unfold JS.slice, JS.rel_index. cbn [length].
  replace (1 <? 0)%Z with false by reflexivity.
  rewrite Z.min_l by lia. change (Z.to_nat 1) with 1%nat. cbn [drop].
  apply take_ge. lia.
Qed.

End StringFacts.

(** X1.  [parseModelString] splits at the first slash and loses nothing:
    a string without a slash is refused with the invalid-model-string
    error; a result [(provider, model)] has no slash in [provider] and
    [provider/model] is the string that was parsed, so a model name may
    itself contain slashes; and every such string is parsed back into
    its two parts. *)
Theorem parseModelString_roundtrip (modelString : string) :
  (JS.includes modelString "/" = false ->
     Providers.parseModelString modelString
     = inl ("Invalid model string: " +:+ modelString
              +:+ ". Expected format: provider/model")%string)
  /\ (forall provider model,
        Providers.parseModelString modelString = inr (provider, model) ->
        JS.includes provider "/" = false
        /\ modelString = (provider +:+ "/" +:+ model)%string)
  /\ (forall provider model,
        JS.includes provider "/" = false ->
        Providers.parseModelString (provider +:+ "/" +:+ model) = inr (provider, model)).
Proof.
  assert (Hfree : forall s, JS.includes s "/" = false ->
            Providers.parseModelString s
            = inl ("Invalid model string: " +:+ s
                     +:+ ". Expected format: provider/model")%string).
  { intros s H. unfold Providers.parseModelString, JS.split_char.
    rewrite (split_on_free "/"%char s EmptyString H). reflexivity. }
  assert (Hok : forall a b, JS.includes a "/" = false ->
            Providers.parseModelString (a +:+ "/" +:+ b) = inr (a, b)).
  { intros a b H. unfold Providers.parseModelString, JS.split_char.
    change (a +:+ "/" +:+ b)%string with (a +:+ String "/"%char b)%string.
    rewrite (split_on_first "/"%char a b EmptyString H).
    cbn [length hd]. rewrite append_nil_l.
    replace (2 <=? S (length (JS.split_on (Ascii.eqb "/"%char) EmptyString b)))%nat with true.
    - pose proof (join_split_char "/"%char b EmptyString) as Hjoin.
      unfold JS.str1 in Hjoin. rewrite slice_tail, Hjoin. reflexivity.
    - symmetry. apply Nat.leb_le.
      pose proof (split_on_nonempty (Ascii.eqb "/"%char) b EmptyString) as Hne.
      destruct (JS.split_on _ _ b); [congruence|cbn; lia]. }
  split; [apply Hfree|]. split; [|apply Hok].
  intros provider model Hparse.
  destruct (JS.includes modelString "/") eqn:Hin.
  - destruct (first_occurrence "/"%char modelString Hin) as (a & b & -> & Ha).
    change (a +:+ String "/"%char b)%string with (a +:+ "/" +:+ b)%string in Hparse.
    rewrite (Hok a b Ha) in Hparse. injection Hparse as <- <-. split; [exact Ha|reflexivity].
  - rewrite (Hfree _ Hin) in Hparse. discriminate.
Qed.

(** ** The provider map *)

Section ProviderMapFacts.

Import ProviderMap.

Lemma omap_keys (entries : list (string * option ProviderConfig)) :
  forall k, k ∈ Pool.map_keys (omap usable entries) -> k ∈ (fst <$> entries).
Proof.
  induction entries as [|[name cfg] entries IH]; intros k; [cbn; auto|].
  cbn [omap list_omap usable]. unfold Pool.map_keys in *.
  destruct cfg as [config|]; [destruct (bool_decide (name ∈ Providers.known))|];
    cbn [fmap list_fmap fst]; rewrite ?elem_of_cons; intros H.
  - destruct H as [->|H]; [left; reflexivity|right; apply IH, H].
  - right. apply IH, H.
  - right. apply IH, H.
Qed.

Lemma createProviders_fold (entries : list (string * option ProviderConfig)) :
  forall (done : list (string * option ProviderConfig)) warnings,
    NoDup (fst <$> (done ++ entries)) ->
    fold_left add entries (omap usable done, warnings)
    = (omap usable (done ++ entries), warnings ++ omap refused entries).
Proof.
  induction entries as [|[name cfg] entries IH]; intros done warnings Hnd.
  - cbn. rewrite !app_nil_r. reflexivity.
  - cbn [fold_left].
    replace (done ++ (name, cfg) :: entries) with ((done ++ [(name, cfg)]) ++ entries) in *
      by (rewrite <- app_assoc; reflexivity).
    assert (Hfresh : Pool.map_get (omap usable done) name = None).
    { apply map_get_None. intros Hin. apply omap_keys in Hin.
      rewrite !fmap_app in Hnd. apply NoDup_app in Hnd as [Hnd _].
      apply NoDup_app in Hnd as (_ & Hdisj & _).
      apply (Hdisj _ Hin). cbn. left. }
    unfold add at 2. cbn [omap list_omap refused].
    destruct cfg as [config|].
    + unfold Providers.createProvider.
      destruct (bool_decide (name ∈ Providers.known)) eqn:Hknown.
      * rewrite (map_set_fresh _ _ _ Hfresh).
        replace (omap usable done ++ [(name, {| Providers.kind := name; Providers.settings := config |})])
          with (omap usable (done ++ [(name, Some config)])).
        -- rewrite (IH _ _ Hnd). reflexivity.
        -- rewrite omap_app. cbn. rewrite Hknown. reflexivity.
      * replace (omap usable done) with (omap usable (done ++ [(name, Some config)])).
        -- rewrite (IH _ _ Hnd). f_equal. rewrite <- app_assoc. reflexivity.
        -- rewrite omap_app. cbn. rewrite Hknown. apply app_nil_r.
    + replace (omap usable done) with (omap usable (done ++ [(name, None)])).
      * rewrite (IH _ _ Hnd). reflexivity.
      * rewrite omap_app. cbn. apply app_nil_r.
Qed.

End ProviderMapFacts.

(** X2.  [createProviders] never throws.  On the entries of a
    configuration object (distinct names), the Map it returns holds, in
    the order of the entries, a provider for each name that has a
    configuration and is one of the five known names, built from that
    configuration; an entry whose configuration is [undefined] is
    skipped silently, and one with an unknown name is reported by
    [console.warn] and skipped. *)
Theorem createProviders_known_only (entries : list (string * option ProviderConfig)) :
  NoDup (fst <$> entries) ->
  ProviderMap.createProviders entries = (omap usable entries, omap refused entries)
  /\ (forall name handle,
        Pool.map_get (ProviderMap.createProviders entries).1 name = Some handle <->
        exists config,
          (name, Some config) ∈ entries /\ name ∈ Providers.known
          /\ handle = Providers.mkHandle name config).
Proof.
  intros Hnd.
  assert (Heq : ProviderMap.createProviders entries = (omap usable entries, omap refused entries)).
  { unfold ProviderMap.createProviders.
    apply (createProviders_fold entries [] [] Hnd). }
  split; [exact Heq|]. rewrite Heq. cbn [fst].
  assert (Hkeys : NoDup (Pool.map_keys (omap usable entries))).
  { clear Heq. unfold Pool.map_keys. induction entries as [|[n c] entries IH]; [constructor|].
    cbn [fmap list_fmap fst] in Hnd. apply NoDup_cons in Hnd as [Hn Hnd].
    cbn [omap list_omap usable].
    destruct c as [config|]; [destruct (bool_decide (n ∈ Providers.known))|];
      cbn [fmap list_fmap fst]; auto.
    apply NoDup_cons. split; [|auto].
    intros Hin. apply Hn. apply (omap_keys entries n Hin). }
  intros name handle. split.
  - intros Hget. apply map_get_Some_elem in Hget.
    apply list_elem_of_omap in Hget as ([n c] & Hin & Huse).
    unfold usable in Huse. destruct c as [config|]; [|discriminate].
    destruct (bool_decide (n ∈ Providers.known)) eqn:Hknown; [|discriminate].
    injection Huse as -> <-. exists config.
    apply bool_decide_eq_true in Hknown.
    split; [exact Hin|]. split; [exact Hknown|reflexivity].
  - intros (config & Hin & Hknown & ->).
    apply map_get_elem; [exact Hkeys|].
    apply list_elem_of_omap. exists (name, Some config). split; [exact Hin|].
    cbn. rewrite bool_decide_eq_true_2 by exact Hknown. reflexivity.
Qed.

Lemma createProviders_known_only_witness :
  Pool.map_keys
    (ProviderMap.createProviders
       [ ("ollama", Some (mkProviderConfig None None None));
         ("acme", Some (mkProviderConfig None None None));
         ("groq", None) ]%string).1
  = [ "ollama"%string ].
Proof.
  destruct (createProviders_known_only
              [ ("ollama", Some (mkProviderConfig None None None));
                ("acme", Some (mkProviderConfig None None None));
                ("groq", None) ]%string) as [-> _].
  - apply (bool_decide_unpack _). vm_compute. exact I.
  - reflexivity.
Defined.

(** ** Token estimates by length *)

Section TokenFacts.

Lemma estimateTokens_formula (text model : string) :
  Tokens.estimateTokens text model =
    (JS.len text + 3) / 4 + ((JS.len text + 3) / 4 + 9) / 10.
Proof.
  destruct text as [|c r]; [reflexivity|].
  apply estimateTokens_closed. discriminate.
Qed.

Lemma fold_left_estimate (model : string) (ms : list Message) (acc : Z) :
  fold_left (fun total msg => total + Tokens.estimateMessageTokens msg model) ms acc
  = acc + fold_left (fun total msg => total + Tokens.estimateMessageTokens msg model) ms 0.
Proof.
  revert acc. induction ms as [|m ms IH]; intros acc; cbn [fold_left]; [lia|].
  rewrite (IH (acc + _)), (IH (0 + _)). lia.
Qed.

Lemma estimateMessageTokens_min (m : Message) (model : string) :
  4 <= Tokens.estimateMessageTokens m model.
Proof.
  unfold Tokens.estimateMessageTokens. rewrite estimateTokens_formula.
  assert (0 <= JS.len (content m)) by (unfold JS.len; lia).
  pose proof (Z.div_pos (JS.len (content m) + 3) 4 ltac:(lia) ltac:(lia)).
  pose proof (Z.div_pos ((JS.len (content m) + 3) / 4 + 9) 10 ltac:(lia) ltac:(lia)).
  lia.
Qed.

End TokenFacts.

(** X3.  The estimate of a text depends on its length only, not on the
    model; it grows with the length, and it is 11/40 of a token per
    character, up to less than two tokens. *)
Theorem estimateTokens_by_length (text1 text2 model1 model2 : string) :
  (JS.len text1 <= JS.len text2 ->
   Tokens.estimateTokens text1 model1 <= Tokens.estimateTokens text2 model2)
  /\ 11 * JS.len text1 <= 40 * Tokens.estimateTokens text1 model1 <= 11 * JS.len text1 + 69.
Proof.
  rewrite !estimateTokens_formula.
  assert (H1 : 0 <= JS.len text1) by (unfold JS.len; lia).
  split.
  - intros Hle.
    pose proof (Z.div_le_mono (JS.len text1 + 3) (JS.len text2 + 3) 4 ltac:(lia) ltac:(lia)) as Hb.
    pose proof (Z.div_le_mono ((JS.len text1 + 3) / 4 + 9) ((JS.len text2 + 3) / 4 + 9) 10
                  ltac:(lia) ltac:(lia)) as Ho.
    lia.
  - pose proof (Z.div_mod (JS.len text1 + 3) 4 ltac:(lia)) as Hb.
    pose proof (Z.mod_pos_bound (JS.len text1 + 3) 4 ltac:(lia)) as Hbr.
    pose proof (Z.div_mod ((JS.len text1 + 3) / 4 + 9) 10 ltac:(lia)) as Ho.
    pose proof (Z.mod_pos_bound ((JS.len text1 + 3) / 4 + 9) 10 ltac:(lia)) as Hor.
    lia.
Qed.

Lemma estimateTokens_by_length_witness :
  Tokens.estimateTokens "hello" "gpt-4" <= Tokens.estimateTokens "hello world" "llama3".
Proof.
  destruct (estimateTokens_by_length "hello" "hello world" "gpt-4" "llama3") as [Hmono _].
  apply Hmono. vm_compute. discriminate.
Defined.

(** X4.  The estimate of a conversation is 3 tokens plus the estimates
    of its messages: it is 3 for no message, additive over
    concatenation up to the 3 tokens counted twice, and at least 4
    tokens per message above 3. *)
Theorem estimateConversationTokens_additive (ms1 ms2 : list Message) (model : string) :
  Tokens.estimateConversationTokens [] model = 3
  /\ Tokens.estimateConversationTokens (ms1 ++ ms2) model
     = Tokens.estimateConversationTokens ms1 model
       + Tokens.estimateConversationTokens ms2 model - 3
  /\ 3 + 4 * Z.of_nat (length ms1) <= Tokens.estimateConversationTokens ms1 model.
Proof.
  unfold Tokens.estimateConversationTokens.
  split; [reflexivity|]. split.
  - rewrite fold_left_app, fold_left_estimate. lia.
  - induction ms1 as [|m ms IH]; [cbn; lia|].
    cbn [fold_left length]. rewrite fold_left_estimate.
    pose proof (estimateMessageTokens_min m model). lia.
Qed.

(** ** The context-limit and pricing tables *)

(** X5.  For a model name that is no inherited property name,
    [getContextLimit] returns a limit of the table: between 4096 and
    200000 tokens, so the default compaction target, half of it, is at
    least 2048. *)
Theorem getContextLimit_range (model : string) :
  JS.toLowerCase model ∉ inherited_lower ->
  (exists key, (key, Tokens.getContextLimit model) ∈ Tokens.MODEL_CONTEXT_LIMITS)
  /\ 4096 <= Tokens.getContextLimit model <= 200000.
Proof.
  intros _.
  assert (Hin : exists key, (key, Tokens.getContextLimit model) ∈ Tokens.MODEL_CONTEXT_LIMITS).
  { unfold Tokens.getContextLimit. set (m := JS.toLowerCase model).
    destruct (Tokens.table_get Tokens.MODEL_CONTEXT_LIMITS m) as [limit|] eqn:Hdirect.
    - unfold Tokens.table_get in Hdirect.
      destruct (find (fun e => String.eqb (fst e) m) Tokens.MODEL_CONTEXT_LIMITS)
        as [[k v]|] eqn:Hfind; [|discriminate].
      injection Hdirect as <-. apply find_some in Hfind as [Hin _].
      exists k. apply list_elem_of_In, Hin.
    - destruct (find (fun e => JS.includes m (fst e) || JS.includes (fst e) m)
                     Tokens.MODEL_CONTEXT_LIMITS) as [[k v]|] eqn:Hpartial.
      + apply find_some in Hpartial as [Hin _]. exists k. apply list_elem_of_In, Hin.
      + exists "default"%string. apply (bool_decide_unpack _). vm_compute. exact I. }
  split; [exact Hin|].
  destruct Hin as [key Hin].
  assert (Hall : Forall (fun e => 4096 <= snd e <= 200000) Tokens.MODEL_CONTEXT_LIMITS).
  { unfold Tokens.MODEL_CONTEXT_LIMITS. repeat (constructor; [cbn; lia|]). constructor. }
  rewrite Forall_forall in Hall. apply (Hall _ Hin).
Qed.

Lemma getContextLimit_range_witness :
  4096 <= Tokens.getContextLimit "mixtral-8x7b-instruct" <= 200000.
Proof.
  apply (getContextLimit_range "mixtral-8x7b-instruct").
  apply (bool_decide_unpack _). vm_compute. exact I.
Defined.

(** X6.  Partial matching takes the first key of the table that the
    name contains, and [gpt-4] is the first key: every name that
    contains [gpt-4] and is not itself a key gets the limit of [gpt-4],
    8192, also where a longer key such as [gpt-4o] or [gpt-4-turbo]
    is contained as well. *)
Theorem getContextLimit_gpt4_family (model : string) :
  Tokens.table_get Tokens.MODEL_CONTEXT_LIMITS (JS.toLowerCase model) = None ->
  JS.includes (JS.toLowerCase model) "gpt-4" = true ->
  Tokens.getContextLimit model = 8192.
Proof.
  intros Hdirect Hfamily. unfold Tokens.getContextLimit. rewrite Hdirect.
  unfold Tokens.MODEL_CONTEXT_LIMITS. cbn [find fst snd]. rewrite Hfamily. reflexivity.
Qed.

Lemma getContextLimit_gpt4_family_witness :
  JS.includes (JS.toLowerCase "GPT-4o-mini") "gpt-4o" = true
  /\ Tokens.table_get Tokens.MODEL_CONTEXT_LIMITS "gpt-4o" = Some 128000
  /\ Tokens.getContextLimit "GPT-4o-mini" = 8192.
Proof.
  split; [reflexivity|]. split; [reflexivity|].
  apply (getContextLimit_gpt4_family "GPT-4o-mini"); reflexivity.
Defined.

(** X7.  With the provider [ollama] every model is priced at zero.  With
    another provider, a name that is no key of the table is priced by
    the first key it contains, and [gpt-4o] is the first key: every such
    name that contains [gpt-4o], a dated [gpt-4o-mini] release for one,
    is priced as [gpt-4o]. *)
Theorem getModelPricing_first_key (model : string) (provider : option string) :
  (provider = Some "ollama"%string ->
   Pricing.getModelPricing model provider = Pricing.mkPricing 0 0)
  /\ (provider <> Some "ollama"%string ->
      Pricing.pricing_get (JS.toLowerCase model) = None ->
      JS.includes (JS.toLowerCase model) "gpt-4o" = true ->
      Pricing.getModelPricing model provider = Pricing.mkPricing (250 # 100) 10).
Proof.
  unfold Pricing.getModelPricing. split.
  - intros ->. reflexivity.
  - intros Hp Hdirect Hfamily.
    rewrite bool_decide_eq_false_2 by exact Hp. rewrite Hdirect.
    unfold Pricing.MODEL_PRICING. cbn [find fst snd]. rewrite Hfamily. reflexivity.
Qed.

Lemma getModelPricing_first_key_witness :
  Pricing.pricing_get "gpt-4o-mini" = Some (Pricing.mkPricing (15 # 100) (60 # 100))
  /\ Pricing.getModelPricing "gpt-4o-mini-2024-07-18" (Some "openai"%string)
     = Pricing.mkPricing (250 # 100) 10.
Proof.
  split; [reflexivity|].
  destruct (getModelPricing_first_key "gpt-4o-mini-2024-07-18" (Some "openai"%string))
    as [_ Hfirst].
  apply Hfirst; [discriminate|reflexivity|reflexivity].
Defined.

(** ** The token tracker *)

Section TrackerFacts.

Import TokenTracker.

Lemma total_of_app (l1 l2 : list Z) : total_of (l1 ++ l2) = total_of l1 + total_of l2.
Proof.
  induction l1 as [|x l IH]; [reflexivity|].
  change (total_of ((x :: l) ++ l2)) with (x + total_of (l ++ l2)).
  change (total_of (x :: l)) with (x + total_of l).
  rewrite IH. lia.
Qed.

Lemma slice0_length (n : nat) (s : string) : (String.length (JS.slice0 n s) <= n)%nat.
Proof.
  unfold JS.slice0. revert s. induction n as [|n IH]; intros s.
  - destruct s; cbn; lia.
  - destruct s as [|c r]; cbn; [lia|]. specialize (IH r). lia.
Qed.

Lemma estimateTokens_nonneg (text model : string) : 0 <= Tokens.estimateTokens text model.
Proof.
  rewrite estimateTokens_formula.
  assert (0 <= JS.len text) by (unfold JS.len; lia).
  pose proof (Z.div_pos (JS.len text + 3) 4 ltac:(lia) ltac:(lia)).
  pose proof (Z.div_pos ((JS.len text + 3) / 4 + 9) 10 ltac:(lia) ltac:(lia)).
  lia.
Qed.

Lemma calls_ok (cs : list Call) :
  forall returned t, tracker_ok returned t ->
    tracker_ok (calls cs returned t).1 (calls cs returned t).2.
Proof.
  induction cs as [|c cs IH]; intros returned t Hok; [exact Hok|].
  cbn [calls]. destruct Hok as (Hsum & Hin & Hout & Hall & Hbreak).
  destruct c as [now m|now m|chunk|model'|]; cbn [call trackInput trackOutput
    trackStreamingOutput option_list]; apply IH; unfold tracker_ok, setModel, reset;
    cbn [totalInput totalOutput messages].
  - pose proof (estimateMessageTokens_min m (model t)).
    rewrite total_of_app, fmap_app, total_of_app. cbn. repeat split; try lia.
    apply Forall_app. split; [exact Hall|]. constructor; [|constructor].
    cbn [mt_content tokens].
    split; [|lia]. unfold JS.len. pose proof (slice0_length 100 (content m)). lia.
  - pose proof (estimateMessageTokens_min m (model t)).
    rewrite total_of_app, fmap_app, total_of_app. cbn. repeat split; try lia.
    apply Forall_app. split; [exact Hall|]. constructor; [|constructor].
    cbn [mt_content tokens].
    split; [|lia]. unfold JS.len. pose proof (slice0_length 100 (content m)). lia.
  - pose proof (estimateTokens_nonneg chunk (model t)).
    rewrite total_of_app. cbn. repeat split; try lia. exact Hall.
  - rewrite app_nil_r. repeat split; try lia. exact Hall.
  - cbn. repeat split; try lia. constructor.
Qed.

End TrackerFacts.

(** X8.  After any sequence of calls on a new tracker, the total of
    [getStats] is the sum of the numbers the [track] calls returned
    since the last [reset]; the token counts of the message breakdown
    add up to at most that (streamed chunks are counted but not listed);
    and every entry of the breakdown keeps at most 100 characters of its
    message and counts at least 4 tokens. *)
Theorem TokenTracker_accounting (model : option string) (cs : list Call) :
  let '(returned, t) := calls cs [] (TokenTracker.create model) in
  let stats := TokenTracker.getStats t in
  TokenTracker.total stats = total_of returned
  /\ TokenTracker.total stats = TokenTracker.st_totalInput stats + TokenTracker.st_totalOutput stats
  /\ 0 <= TokenTracker.st_totalInput stats
  /\ 0 <= TokenTracker.st_totalOutput stats
  /\ total_of (TokenTracker.tokens <$> TokenTracker.messageBreakdown stats) <= TokenTracker.total stats
  /\ Forall (fun e => JS.len (TokenTracker.mt_content e) <= 100 /\ 4 <= TokenTracker.tokens e)
            (TokenTracker.messageBreakdown stats).
Proof.
  pose proof (calls_ok cs [] (TokenTracker.create model)) as Hok.
  destruct (calls cs [] (TokenTracker.create model)) as [returned t].
  cbn [fst snd] in Hok.
  destruct Hok as (Hsum & Hin & Hout & Hall & Hbreak).
  - unfold tracker_ok. cbn. repeat split; try lia. constructor.
  - unfold TokenTracker.getStats.
    cbn [TokenTracker.total TokenTracker.st_totalInput TokenTracker.st_totalOutput
         TokenTracker.messageBreakdown].
    split; [exact Hsum|]. split; [reflexivity|]. split; [exact Hin|].
    split; [exact Hout|]. split; [lia|exact Hall].
Qed.

(** ** Skill files *)

Section ParserFacts.

Import SkillParser.

Lemma length_append (a b : string) :
  String.length (a +:+ b)%string = (String.length a + String.length b)%nat.
Proof.
  induction a as [|x a IH]; [reflexivity|].
  rewrite append_cons. cbn [String.length]. rewrite IH. reflexivity.
Qed.

Lemma keep_new_fold (found : list Skill) :
  forall skills (seen : gset string),
    (forall n, n ∈ seen <-> n ∈ (name <$> skills)) ->
    NoDup (name <$> skills) ->
    let r := fold_left keep_new found (skills, seen) in
    (forall n, n ∈ r.2 <-> n ∈ (name <$> r.1))
    /\ NoDup (name <$> r.1)
    /\ (forall s, s ∈ found -> name s ∈ (name <$> r.1))
    /\ exists added,
         r.1 = (skills ++ added)%list
         /\ sublist added found
         /\ forall s, s ∈ added ->
              exists before after,
                found = (before ++ s :: after)%list
                /\ (name s ∉ (name <$> skills)) /\ (name s ∉ (name <$> before)).
Proof.
  induction found as [|s found IH]; intros skills seen Hseen Hnd; cbn zeta.
  - cbn [fold_left fst snd]. split; [exact Hseen|]. split; [exact Hnd|].
    split; [intros s Hs; apply elem_of_nil in Hs; destruct Hs|].
    exists []. rewrite app_nil_r. split; [reflexivity|]. split; [constructor|].
    intros s Hs. apply elem_of_nil in Hs. destruct Hs.
  - cbn [fold_left].
    destruct (bool_decide (name s ∈ seen)) eqn:Hin.
    + replace (keep_new (skills, seen) s) with (skills, seen)
        by (unfold keep_new; rewrite Hin; reflexivity).
      apply bool_decide_eq_true in Hin.
      destruct (IH skills seen Hseen Hnd) as (H1 & H2 & H4 & added & Hadd & Hsub & Hfirst).
      split; [exact H1|]. split; [exact H2|]. split.
      * intros s' Hs'. apply elem_of_cons in Hs' as [->|Hs']; [|apply H4, Hs'].
        rewrite Hadd, fmap_app. apply elem_of_app. left. apply Hseen, Hin.
      * exists added. split; [exact Hadd|]. split; [apply sublist_cons, Hsub|].
        intros s' Hs'. destruct (Hfirst s' Hs') as (before & after & -> & Hnew & Hb).
        exists (s :: before), after. split; [reflexivity|]. split; [exact Hnew|].
        cbn [fmap list_fmap]. rewrite not_elem_of_cons. split; [|exact Hb].
        intros Heq. apply Hnew. rewrite Heq. apply Hseen, Hin.
    + replace (keep_new (skills, seen) s) with ((skills ++ [s])%list, {[ name s ]} ∪ seen)
        by (unfold keep_new; rewrite Hin; reflexivity).
      apply bool_decide_eq_false in Hin.
      destruct (IH (skills ++ [s])%list ({[ name s ]} ∪ seen))
        as (H1 & H2 & H4 & added & Hadd & Hsub & Hfirst).
      * intros n. rewrite fmap_app, elem_of_app, elem_of_union, elem_of_singleton, Hseen.
        cbn. rewrite list_elem_of_singleton. tauto.
      * rewrite fmap_app. apply NoDup_app. split; [exact Hnd|]. split.
        -- intros n Hn Hn'. cbn in Hn'. apply list_elem_of_singleton in Hn' as ->.
           apply Hin, Hseen, Hn.
        -- cbn. apply NoDup_singleton.
      * split; [exact H1|]. split; [exact H2|]. split.
        -- intros s' Hs'. apply elem_of_cons in Hs' as [->|Hs']; [|apply H4, Hs'].
           rewrite Hadd, !fmap_app, !elem_of_app. left. right. cbn. left.
        -- exists (s :: added). split; [rewrite Hadd, <- app_assoc; reflexivity|].
           split; [apply sublist_skip, Hsub|].
           intros s' Hs'. apply elem_of_cons in Hs' as [->|Hs'].
           ++ exists [], found. split; [reflexivity|].
              split; [intros Hn; apply Hin, Hseen, Hn|cbn; apply not_elem_of_nil].
           ++ destruct (Hfirst s' Hs') as (before & after & -> & Hnew & Hb).
              rewrite fmap_app, not_elem_of_app in Hnew. destruct Hnew as [Hnew Hne].
              exists (s :: before), after. split; [reflexivity|]. split; [exact Hnew|].
              cbn [fmap list_fmap]. rewrite not_elem_of_cons. split; [|exact Hb].
              intros Heq. apply Hne. cbn. rewrite Heq. left.
Qed.

Lemma load_fold (loadSkillsFromDirectory : string -> list Skill) (paths : list string) :
  forall skills (seen : gset string),
    (forall n, n ∈ seen <-> n ∈ (name <$> skills)) ->
    NoDup (name <$> skills) ->
    let found := concat (loadSkillsFromDirectory <$> paths) in
    let r := fold_left
               (fun acc path => fold_left keep_new (loadSkillsFromDirectory path) acc)
               paths (skills, seen) in
    NoDup (name <$> r.1)
    /\ (forall s, s ∈ found -> name s ∈ (name <$> r.1))
    /\ exists added,
         r.1 = (skills ++ added)%list
         /\ sublist added found
         /\ forall s, s ∈ added ->
              exists before after,
                found = (before ++ s :: after)%list
                /\ (name s ∉ (name <$> skills)) /\ (name s ∉ (name <$> before)).
Proof.
  induction paths as [|path paths IH]; intros skills seen Hseen Hnd; cbn zeta.
  - cbn. split; [exact Hnd|].
    split; [intros s Hs; apply elem_of_nil in Hs; destruct Hs|].
    exists []. rewrite app_nil_r. split; [reflexivity|]. split; [constructor|].
    intros s Hs. apply elem_of_nil in Hs. destruct Hs.
  - cbn [fold_left fmap list_fmap concat].
    destruct (keep_new_fold (loadSkillsFromDirectory path) skills seen Hseen Hnd)
      as (H1 & H2 & H4 & added & Hadd & Hsub & Hfirst).
    destruct (fold_left keep_new (loadSkillsFromDirectory path) (skills, seen))
      as [skills1 seen1] eqn:Hstep.
    cbn [fst snd] in *.
    destruct (IH skills1 seen1 H1 H2) as (G1 & G3 & added' & Hadd' & Hsub' & Hfirst').
    split; [exact G1|]. split.
    + intros s Hs. apply elem_of_app in Hs as [Hs|Hs]; [|apply G3, Hs].
      rewrite Hadd', fmap_app, elem_of_app. left. apply H4, Hs.
    + exists (added ++ added')%list. split; [rewrite Hadd', Hadd, <- app_assoc; reflexivity|].
      split; [apply sublist_app; assumption|].
      intros s Hs. apply elem_of_app in Hs as [Hs|Hs].
      * destruct (Hfirst s Hs) as (before & after & Hsplit & Hnew & Hb).
        exists before, (after ++ concat (loadSkillsFromDirectory <$> paths))%list.
        split; [rewrite Hsplit, <- app_assoc; reflexivity|]. split; assumption.
      * destruct (Hfirst' s Hs) as (before & after & Hsplit & Hnew & Hb).
        exists (loadSkillsFromDirectory path ++ before)%list, after.
        split; [rewrite Hsplit, <- app_assoc; reflexivity|].
        rewrite Hadd, fmap_app, not_elem_of_app in Hnew. destruct Hnew as [Hnew Hne].
        split; [exact Hnew|].
        rewrite fmap_app, not_elem_of_app. split; [|exact Hb].
        intros Hin. apply list_elem_of_fmap in Hin as (s' & Heq & Hs').
        specialize (H4 s' Hs'). rewrite <- Heq in H4.
        rewrite Hadd, fmap_app, elem_of_app in H4. tauto.
Qed.

End ParserFacts.

Section DescriptionFacts.

Local Open Scope string_scope.

Lemma includes_append (c : ascii) (a b : string) :
  JS.includes (a +:+ b) (JS.str1 c) = JS.includes a (JS.str1 c) || JS.includes b (JS.str1 c).
Proof.
  induction a as [|d a IH].
  - rewrite append_nil_l. destruct b; reflexivity.
  - rewrite append_cons, !includes_str1, IH, orb_assoc. reflexivity.
Qed.

Lemma marks_no_newline (marks : string) :
  all_chars (Ascii.eqb "#") marks = true -> JS.includes marks JS.nl = false.
Proof.
  unfold JS.nl. induction marks as [|d r IH]; [reflexivity|].
  cbn [all_chars]. intros [Hd Hr]%andb_prop.
  rewrite includes_str1, (IH Hr), orb_false_r.
  apply Ascii.eqb_eq in Hd. subst d. reflexivity.
Qed.

Lemma trimEnd_nonspace (c : ascii) (r : string) :
  JS.is_space c = false -> JS.is_empty (JS.trimEnd (String c r)) = false.
Proof.
  intros Hc. cbn [JS.trimEnd]. destruct (JS.trimEnd r); [rewrite Hc|]; reflexivity.
Qed.

Lemma trimStart_idem (s : string) : JS.trimStart (JS.trimStart s) = JS.trimStart s.
Proof.
  induction s as [|c r IH]; [reflexivity|].
  cbn [JS.trimStart]. destruct (JS.is_space c) eqn:Hc; [exact IH|].
  cbn [JS.trimStart]. rewrite Hc. reflexivity.
Qed.

Lemma trim_nonempty (s : string) :
  s <> EmptyString -> JS.trim s = s -> JS.is_empty (JS.trim s) = false.
Proof. intros Hs ->. destruct s; [congruence|reflexivity]. Qed.

Lemma drop_marks (marks rest : string) :
  all_chars (Ascii.eqb "#") marks = true ->
  SkillParser.drop_hashes (marks +:+ String " " rest) = String " " rest.
Proof.
  induction marks as [|d r IH]; [reflexivity|].
  cbn [all_chars]. intros [Hd Hr]%andb_prop.
  apply Ascii.eqb_eq in Hd. subst d. rewrite append_cons.
  cbn [SkillParser.drop_hashes]. apply IH, Hr.
Qed.

(** The heading line [marks title]: cleaned, it is the title. *)
Lemma heading_cleaned (marks title : string) :
  all_chars (Ascii.eqb "#") marks = true ->
  title <> EmptyString -> JS.trim title = title ->
  JS.is_empty (JS.trim (marks +:+ String " " title)) = false
  /\ JS.trim (SkillParser.strip_heading (marks +:+ String " " title)) = title.
Proof.
  intros Hmarks Hne Htrim. destruct marks as [|d r].
  - rewrite append_nil_l. unfold SkillParser.strip_heading.
    assert (H : JS.trim (String " " title) = title) by exact Htrim.
    rewrite H. split; [destruct title; [congruence|reflexivity]|reflexivity].
  - cbn [all_chars] in Hmarks. apply andb_prop in Hmarks as [Hd Hr].
    apply Ascii.eqb_eq in Hd. subst d. rewrite append_cons. split.
    + unfold JS.trim. cbn [JS.trimStart].
      change (JS.is_space "#") with false. cbv iota.
      apply trimEnd_nonspace. reflexivity.
    + unfold SkillParser.strip_heading.
      change (SkillParser.drop_hashes (String "#" (r +:+ String " " title)))
        with (SkillParser.drop_hashes (r +:+ String " " title)).
      rewrite (drop_marks r title Hr).
      unfold JS.trim. rewrite trimStart_idem. exact Htrim.
Qed.

End DescriptionFacts.

(** X9.  [extractDescription] returns at most 200 characters.  For a
    text that starts with a heading line, any number of [#] marks, a
    space and a title, it returns the title, and for a title of more
    than 200 characters its first 197 characters followed by three
    dots. *)
Theorem extractDescription_bounded (content : string) :
  (JS.len (SkillParser.extractDescription content) <= 200)%Z
  /\ (forall marks title body,
        all_chars (Ascii.eqb "#") marks = true ->
        title <> EmptyString -> JS.trim title = title ->
        JS.includes title JS.nl = false ->
        content = (marks +:+ " " +:+ title +:+ JS.nl +:+ body)%string ->
        SkillParser.extractDescription content
        = if (200 <? JS.len title)%Z
          then (JS.slice0 197 title +:+ "...")%string else title).
Proof.
  split.
  - unfold SkillParser.extractDescription.
    set (cleaned := JS.trim _).
    destruct (200 <? JS.len cleaned)%Z eqn:Hlong.
    + apply Z.ltb_lt in Hlong. unfold JS.len in *. rewrite length_append. cbn [String.length].
      assert (String.length (JS.slice0 197 cleaned) = 197%nat); [|lia].
      assert (Hlen : (197 <= String.length cleaned)%nat) by lia.
      clear Hlong. unfold JS.slice0. generalize dependent cleaned. generalize 197%nat as n.
      induction n as [|n IH]; intros s Hs.
      * destruct s; reflexivity.
      * destruct s as [|c r]; cbn in *; [lia|]. rewrite IH by lia. reflexivity.
    + apply Z.ltb_ge in Hlong. exact Hlong.
  - intros marks title body Hmarks Hne Htrim Hnl ->.
    destruct (heading_cleaned marks title Hmarks Hne Htrim) as [Hkeep Hclean].
    unfold SkillParser.extractDescription, JS.split_char.
    change (" " +:+ title +:+ JS.nl +:+ body)%string
      with (String " " (title +:+ String (JS.chr 10) body))%string.
    replace (marks +:+ String " " (title +:+ String (JS.chr 10) body))%string
      with ((marks +:+ String " " title) +:+ String (JS.chr 10) body)%string
      by (rewrite append_assoc, append_cons; reflexivity).
    rewrite split_on_first.
    2:{ rewrite includes_append. fold JS.nl. rewrite (marks_no_newline marks Hmarks).
        unfold JS.nl. rewrite includes_str1. fold JS.nl. rewrite Hnl. reflexivity. }
    rewrite append_nil_l.
    rewrite filter_cons_True by (rewrite Hkeep; exact I).
    cbn [hd]. rewrite Hclean. reflexivity.
Qed.

(** X10.  [loadAllSkills] returns skills with distinct names, in the
    order in which the directories list them, the given paths before
    the default ones: of the skills with one name it keeps the first,
    so a skill of a given path shadows a default skill of that name,
    and every name found in a directory is the name of a returned
    skill. *)
Theorem loadAllSkills_first_wins
    (loadSkillsFromDirectory : string -> list Skill) (defaultPaths skillPaths : list string) :
  let found := concat (loadSkillsFromDirectory <$> (skillPaths ++ defaultPaths)) in
  let skills := SkillParser.loadAllSkills loadSkillsFromDirectory defaultPaths skillPaths in
  NoDup (name <$> skills)
  /\ sublist skills found
  /\ (forall s, s ∈ found -> name s ∈ (name <$> skills))
  /\ (forall s, s ∈ skills ->
        exists before after,
          found = before ++ s :: after /\ name s ∉ (name <$> before)).
Proof.
  intros found skills.
  destruct (load_fold loadSkillsFromDirectory (skillPaths ++ defaultPaths) [] ∅)
    as (Hnd & Hall & added & Hadd & Hsub & Hfirst).
  - intros n. cbn. rewrite elem_of_nil. set_solver.
  - constructor.
  - fold found in Hsub, Hall, Hfirst.
    change (fold_left _ _ _).1 with skills in Hnd, Hadd, Hall.
    cbn [app] in Hadd. subst added.
    split; [exact Hnd|]. split; [exact Hsub|]. split; [exact Hall|].
    intros s Hs. destruct (Hfirst s Hs) as (before & after & Hsplit & _ & Hb).
    exists before, after. split; assumption.
Qed.

(** ** Templates *)

Section TemplateFacts.

Import SkillRunner.

Local Open Scope string_scope.

Lemma span_word_length (s : string) :
  (String.length (span_word s).2 <= String.length s)%nat.
Proof.
  induction s as [|c r IH]; cbn [span_word]; [cbn; lia|].
  destruct (JS.is_word c); [|cbn; lia].
  destruct (span_word r) as [w rest]. cbn [snd String.length] in *. lia.
Qed.

Lemma match_placeholder_none (c : ascii) (r : string) :
  c <> "{"%char -> match_placeholder (String c r) = None.
Proof.
  intros Hne. unfold match_placeholder.
  destruct c as [[] [] [] [] [] [] [] []]; try reflexivity. congruence.
Qed.

Lemma match_placeholder_none2 (c : ascii) (r : string) :
  c <> "{"%char -> match_placeholder (String "{"%char (String c r)) = None.
Proof.
  intros Hne. unfold match_placeholder.
  destruct c as [[] [] [] [] [] [] [] []]; try reflexivity. congruence.
Qed.

Lemma match_placeholder_shorter (s w rest : string) :
  match_placeholder s = Some (w, rest) ->
  (String.length rest < String.length s)%nat.
Proof.
  destruct s as [|c1 s1]; [discriminate|].
  destruct (Ascii.eqb_spec c1 "{"%char) as [->|Hne1];
    [|rewrite match_placeholder_none by exact Hne1; discriminate].
  destruct s1 as [|c2 r]; [discriminate|].
  destruct (Ascii.eqb_spec c2 "{"%char) as [->|Hne2];
    [|rewrite match_placeholder_none2 by exact Hne2; discriminate].
  cbn [match_placeholder].
  pose proof (span_word_length r) as Hlen.
  destruct (span_word r) as [w' rest']. cbn [snd] in Hlen.
  destruct (JS.is_empty w'); [discriminate|].
  destruct rest' as [|d1 rest']; [discriminate|].
  destruct (Ascii.eqb_spec d1 "}"%char) as [->|Hd1].
  2: { destruct d1 as [[] [] [] [] [] [] [] []]; try discriminate; congruence. }
  destruct rest' as [|d2 rest']; [discriminate|].
  destruct (Ascii.eqb_spec d2 "}"%char) as [->|Hd2].
  2: { destruct d2 as [[] [] [] [] [] [] [] []]; try discriminate; congruence. }
  intros [= <- <-]. cbn [String.length] in *. lia.
Qed.

Lemma replace_placeholders_match (f : string -> string) (n : nat) (s w rest : string) :
  match_placeholder s = Some (w, rest) ->
  replace_placeholders (S n) f s = f w +:+ replace_placeholders n f rest.
Proof. intros H. cbn [replace_placeholders]. rewrite H. reflexivity. Qed.

(** Enough steps are as good as more. *)
Lemma replace_placeholders_steps (f : string -> string) (n : nat) :
  forall m s, (String.length s < n)%nat -> (String.length s < m)%nat ->
    replace_placeholders n f s = replace_placeholders m f s.
Proof.
  induction n as [|n IH]; intros m s Hn Hm; [lia|].
  destruct m as [|m]; [lia|]. cbn [replace_placeholders].
  destruct (match_placeholder s) as [[w rest]|] eqn:Hmatch.
  - apply match_placeholder_shorter in Hmatch. rewrite (IH m rest) by lia. reflexivity.
  - destruct s as [|c r]; [reflexivity|]. cbn [String.length] in *.
    rewrite (IH m r) by lia. reflexivity.
Qed.

Lemma span_word_name (w rest : string) :
  all_chars JS.is_word w = true ->
  span_word (w +:+ String "}"%char rest) = (w, String "}"%char rest).
Proof.
  induction w as [|c w IH]; intros Hw.
  - reflexivity.
  - cbn [all_chars] in Hw. apply andb_true_iff in Hw as [Hc Hw].
    rewrite append_cons. cbn [span_word]. rewrite Hc, (IH Hw). reflexivity.
Qed.

Lemma match_placeholder_at (w post : string) :
  w <> EmptyString -> all_chars JS.is_word w = true ->
  match_placeholder ("{{" +:+ w +:+ "}}" +:+ post) = Some (w, post).
Proof.
  intros Hne Hw.
  change ("{{" +:+ w +:+ "}}" +:+ post)
    with (String "{"%char (String "{"%char (w +:+ String "}"%char (String "}"%char post)))).
  cbn [match_placeholder]. rewrite (span_word_name w _ Hw).
  destruct w; [congruence|reflexivity].
Qed.

Lemma replace_placeholders_prefix (f : string -> string) (pre : string) :
  forall n s, JS.includes pre "{" = false ->
    replace_placeholders (String.length pre + n) f (pre +:+ s)
    = pre +:+ replace_placeholders n f s.
Proof.
  induction pre as [|c pre IH]; intros n s Hfree; [reflexivity|].
  change "{" with (JS.str1 "{"%char) in Hfree.
  rewrite includes_str1 in Hfree. apply orb_false_elim in Hfree as [Hc Hfree].
  apply Ascii.eqb_neq in Hc.
  rewrite append_cons. cbn [String.length Nat.add replace_placeholders].
  rewrite match_placeholder_none by congruence.
  rewrite (IH n s Hfree), append_cons. reflexivity.
Qed.

End TemplateFacts.

(** X11.  [interpolateTemplate] replaces placeholders from left to right
    in one pass.  A template without an opening brace is returned as it
    is.  Where the text [pre] in front of a placeholder [{{w}}] has no
    opening brace, the result is [pre], then the value of [w] if [vars]
    gives one that is not empty and the placeholder itself if not, then
    the interpolation of the rest: an inserted value is not scanned
    again.  (A name that [vars] does not list must not be a property
    every object inherits.) *)
Theorem interpolateTemplate_one_pass
    (pre w post : string) (vars : gmap string string) :
  JS.includes pre "{" = false ->
  SkillRunner.interpolateTemplate pre vars = pre
  /\ (w <> EmptyString -> all_chars JS.is_word w = true ->
      is_Some (vars !! w) \/ w ∉ Object_prototype_names ->
      SkillRunner.interpolateTemplate (pre +:+ "{{" +:+ w +:+ "}}" +:+ post)%string vars
      = (pre +:+ filled vars w +:+ SkillRunner.interpolateTemplate post vars)%string).
Proof.
  intros Hfree. unfold SkillRunner.interpolateTemplate.
  set (f := fun w0 : string => _).
  split.
  - pose proof (replace_placeholders_prefix f pre 1 EmptyString Hfree) as H.
    rewrite append_nil_r in H. cbn [SkillRunner.replace_placeholders] in H.
    change (SkillRunner.match_placeholder EmptyString) with (@None (string * string)) in H.
    cbv iota in H. rewrite append_nil_r in H.
    rewrite (replace_placeholders_steps f _ (String.length pre + 1)) by lia. exact H.
  - intros Hne Hw _.
    set (tail := ("{{" +:+ w +:+ "}}" +:+ post)%string).
    rewrite (replace_placeholders_steps f _ (String.length pre + S (String.length tail)))
      by (rewrite length_append; lia).
    rewrite (replace_placeholders_prefix f pre _ tail Hfree). f_equal.
    rewrite (replace_placeholders_match f _ tail w post (match_placeholder_at w post Hne Hw)).
    f_equal. apply replace_placeholders_steps; [|lia].
    unfold tail. rewrite !length_append. cbn [String.length]. lia.
Qed.

Lemma interpolateTemplate_one_pass_witness :
  SkillRunner.interpolateTemplate "Review: {{input}} for {{who}}"
    {[ "input"%string := "{{who}} wrote it"%string ]}
  = "Review: {{who}} wrote it for {{who}}"%string.
Proof.
  destruct (interpolateTemplate_one_pass "Review: " "input" " for {{who}}"
              {[ "input"%string := "{{who}} wrote it"%string ]} eq_refl) as [_ H].
  etransitivity; [apply H|reflexivity].
  - discriminate.
  - reflexivity.
  - left. eexists. reflexivity.
Defined.

(** ** Keywords and scores *)

Section KeywordFacts.

Import Matcher.

Lemma all_chars_append (q : ascii -> bool) (a b : string) :
  all_chars q (a +:+ b)%string = all_chars q a && all_chars q b.
Proof.
  induction a as [|c a IH]; [reflexivity|].
  rewrite append_cons. cbn [all_chars]. rewrite IH, andb_assoc. reflexivity.
Qed.

Lemma all_chars_map (q : ascii -> bool) (f : ascii -> ascii) (s : string) :
  (forall c, q (f c) = true) -> all_chars q (JS.map_chars f s) = true.
Proof.
  intros H. induction s as [|c s IH]; [reflexivity|].
  cbn [JS.map_chars all_chars]. rewrite H, IH. reflexivity.
Qed.

(** The pieces of a split at white space consist of the characters of
    the text that are not white space. *)
Lemma split_ws_pieces (q : ascii -> bool) (s : string) :
  forall skipping cur,
    all_chars q cur = true ->
    all_chars (fun c => JS.is_space c || q c) s = true ->
    Forall (fun piece => all_chars q piece = true) (JS.split_ws skipping cur s).
Proof.
  induction s as [|c s IH]; intros skipping cur Hcur Hs; cbn [JS.split_ws].
  - constructor; [exact Hcur|constructor].
  - cbn [all_chars] in Hs. apply andb_true_iff in Hs as [Hc Hs].
    destruct (JS.is_space c) eqn:Hsp.
    + destruct skipping; [apply IH; assumption|].
      constructor; [exact Hcur|]. apply IH; [reflexivity|exact Hs].
    + apply IH; [|exact Hs]. cbn [orb] in Hc.
      change (String.append cur (JS.str1 c)) with (cur +:+ JS.str1 c)%string.
      rewrite all_chars_append, Hcur. unfold JS.str1. cbn [all_chars andb]. rewrite Hc. reflexivity.
Qed.

End KeywordFacts.

(** X12.  Every keyword of [extractKeywords] is longer than two
    characters, is no stop word, and consists of lower-case letters,
    digits and underscores only: no upper-case letter, no white space
    and no punctuation survives. *)
Theorem extractKeywords_wellformed (text keyword : string) :
  keyword ∈ Matcher.extractKeywords text ->
  2 < JS.len keyword
  /\ (keyword ∉ Matcher.stopWords)
  /\ all_chars (fun c => JS.is_lower c || JS.is_digit c || Ascii.eqb c "_"%char) keyword = true.
Proof.
  unfold Matcher.extractKeywords. intros Hin.
  apply list_elem_of_filter in Hin as [Hkeep Hin].
  apply Is_true_true, andb_true_iff in Hkeep as [Hlen Hstop].
  split; [apply Z.ltb_lt, Hlen|]. split.
  - apply negb_true_iff, bool_decide_eq_false in Hstop. exact Hstop.
  - clear Hlen Hstop. revert keyword Hin. apply Forall_forall.
    apply split_ws_pieces; [reflexivity|].
    unfold Matcher.blank_punctuation, JS.toLowerCase.
    induction text as [|c text IH]; [reflexivity|].
    cbn [JS.map_chars all_chars]. rewrite IH, andb_true_r. clear.
    destruct c as [[] [] [] [] [] [] [] []]; reflexivity.
Qed.

Lemma extractKeywords_wellformed_witness :
  Matcher.extractKeywords "Fix the TDD_flow, now!" = [ "fix"; "tdd_flow"; "now" ]%string
  /\ 2 < JS.len "tdd_flow".
Proof.
  split; [reflexivity|].
  apply (extractKeywords_wellformed "Fix the TDD_flow, now!" "tdd_flow").
  apply (bool_decide_unpack _). vm_compute. exact I.
Defined.

Section RankingFacts.

Import Matcher.

Variable RegExp_i : string -> string + (string -> bool).

Lemma first_rule_score_values (input : string) (s : Skill) :
  0 < first_rule_score RegExp_i input s ->
  first_rule_score RegExp_i input s ∈ [15; 30; 45; 60; 80; 100].
Proof.
  unfold first_rule_score.
  destruct (trigger_fires RegExp_i input s); [intros _; set_solver|].
  destruct (name_found input s); [intros _; set_solver|].
  set (n := Z.of_nat (length (matched_occurrences input s))).
  assert (0 <= n) by (unfold n; lia). intros Hpos.
  assert (n = 1 \/ n = 2 \/ n = 3 \/ 4 <= n) as [->|[->|[->|Hn]]] by lia.
  - set_solver.
  - set_solver.
  - set_solver.
  - rewrite Z.min_l by lia. set_solver.
Qed.

Lemma first_rule_score_keywords (input : string) (s : Skill) :
  trigger_fires RegExp_i input s = false -> name_found input s = false ->
  first_rule_score RegExp_i input s <= 60.
Proof.
  unfold first_rule_score. intros -> ->. lia.
Qed.

Lemma first_rule_score_direct (input : string) (s : Skill) :
  trigger_fires RegExp_i input s = true \/ name_found input s = true ->
  80 <= first_rule_score RegExp_i input s.
Proof.
  unfold first_rule_score. intros [->| ->]; [lia|].
  destruct (trigger_fires RegExp_i input s); lia.
Qed.

(** A ranking is there exactly when no trigger throws, and is sorted. *)
Lemma ranked_sorted (input : string) (skills : list Skill) (ranked : list MatchResult) :
  matchSkills RegExp_i input skills = inr ranked ->
  first_trigger_error RegExp_i skills = None
  /\ view <$> ranked ≡ₚ candidates RegExp_i input skills
  /\ descending score ranked.
Proof.
  intros Heq. pose proof (matchSkills_sorted_view RegExp_i input skills) as H.
  destruct (first_trigger_error RegExp_i skills) as [error|]; [congruence|].
  destruct H as (results & Hsort & Hview). rewrite Hsort in Heq. injection Heq as <-.
  split; [reflexivity|]. split.
  - rewrite <- Hview. apply fmap_Permutation, sort_perm.
  - apply sort_descending.
Qed.

(** The entries of the ranking and the skills with a positive score. *)
Lemma ranked_iff (input : string) (skills : list Skill) (ranked : list MatchResult)
    (s : Skill) (n : Z) :
  matchSkills RegExp_i input skills = inr ranked ->
  (exists r, r ∈ ranked /\ skill r = s /\ score r = n)
  <-> s ∈ skills /\ n = first_rule_score RegExp_i input s /\ 0 < n.
Proof.
  intros Heq. destruct (ranked_sorted input skills ranked Heq) as (_ & Hperm & _).
  assert (Hin : (s, n) ∈ candidates RegExp_i input skills
                <-> s ∈ skills /\ n = first_rule_score RegExp_i input s /\ 0 < n).
  { unfold candidates. rewrite list_elem_of_filter, list_elem_of_fmap. cbn [snd]. split.
    - intros (Hpos & s' & [= -> ->] & Hs). auto.
    - intros (Hs & -> & Hpos). split; [exact Hpos|]. exists s. auto. }
  rewrite <- Hin, <- Hperm, list_elem_of_fmap. unfold view. split.
  - intros (r & Hr & <- & <-). exists r. auto.
  - intros (r & [= -> ->] & Hr). exists r. auto.
Qed.

Lemma ranked_head_max (input : string) (skills : list Skill) (m r : MatchResult)
    (rest : list MatchResult) :
  matchSkills RegExp_i input skills = inr (m :: rest) ->
  r ∈ m :: rest -> score r <= score m.
Proof.
  intros Heq Hr.
  destruct (ranked_sorted input skills _ Heq) as (_ & _ & Hsorted).
  apply elem_of_cons in Hr as [->|Hr]; [lia|].
  unfold descending in Hsorted. apply StronglySorted_inv in Hsorted as [_ Hall].
  rewrite Forall_forall in Hall. apply Hall, Hr.
Qed.

End RankingFacts.

(** X13.  When a trigger is no regular expression, [matchSkills] throws
    its error.  Otherwise every entry of the ranking has one of six
    scores: 100 or 80 for a trigger or a name found, and 15, 30, 45 or
    60 for keywords; the first entry has the highest score of all, and
    the ranking is empty exactly when no skill has a positive score. *)
Theorem matchSkills_scores
    (RegExp_i : string -> string + (string -> bool)) (input : string) (skills : list Skill) :
  (forall error,
      first_trigger_error RegExp_i skills = Some error ->
      Matcher.matchSkills RegExp_i input skills = inl error)
  /\ (first_trigger_error RegExp_i skills = None ->
      exists ranked,
        Matcher.matchSkills RegExp_i input skills = inr ranked
        /\ (forall r, r ∈ ranked ->
              Matcher.skill r ∈ skills /\ Matcher.score r ∈ [15; 30; 45; 60; 80; 100])
        /\ (forall r, r ∈ ranked ->
              Matcher.score r <= Matcher.score (default r (head ranked)))
        /\ (ranked = [] <->
            forall s, s ∈ skills -> first_rule_score RegExp_i input s <= 0)).
Proof.
  pose proof (matchSkills_sorted_view RegExp_i input skills) as Hview.
  split.
  { intros error Herr. rewrite Herr in Hview. exact Hview. }
  intros Hvalid. rewrite Hvalid in Hview. destruct Hview as (results & Heq & _).
  set (ranked := JS.sort _ results) in Heq.
  exists ranked. split; [exact Heq|]. split; [|split].
  - intros r Hr.
    destruct (proj1 (ranked_iff RegExp_i input skills ranked
                       (Matcher.skill r) (Matcher.score r) Heq))
      as (Hs & Hsc & Hpos); [exists r; auto|].
    split; [exact Hs|]. rewrite Hsc in *. apply first_rule_score_values, Hpos.
  - intros r Hr. destruct ranked as [|m rest] eqn:Hranked;
      [apply elem_of_nil in Hr; destruct Hr|].
    cbn [head default]. eapply ranked_head_max; eassumption.
  - split.
    + intros Hnil s Hs.
      destruct (Z_lt_le_dec 0 (first_rule_score RegExp_i input s)) as [Hpos|]; [|assumption].
      destruct (proj2 (ranked_iff RegExp_i input skills ranked s _ Heq)
                  (conj Hs (conj eq_refl Hpos)))
        as (r & Hr & _).
      rewrite Hnil in Hr. apply elem_of_nil in Hr. destruct Hr.
    + intros Hall. destruct ranked as [|m rest] eqn:Hranked; [reflexivity|].
      destruct (proj1 (ranked_iff RegExp_i input skills (m :: rest)
                         (Matcher.skill m) (Matcher.score m) Heq))
        as (Hs & Hsc & Hpos); [exists m; split; [left|auto]|].
      specialize (Hall _ Hs). lia.
Qed.

(** X14.  A turn whose skills include a trigger that is no regular
    expression throws that error before anything is written.  Otherwise
    it runs a skill exactly when some skill of the context has a trigger
    that matches the last message or a name found in it: then it runs
    such a skill, one with a matching trigger if there is any; skills
    that only share keywords with the message (at most 60 points) are
    never run, and the turn is a regular chat completion. *)
Theorem turn_skill_dispatch
    (RegExp_i : string -> string + (string -> bool)) (initialPrompt : string)
    (options : Runner.AgentRunnerOptions) (turnCount : nat) (context : AgentContext) :
  let input := Compaction.or_string (lastMessage context) initialPrompt in
  let direct s := trigger_fires RegExp_i input s || name_found input s in
  (forall error,
      first_trigger_error RegExp_i (skills context) = Some error ->
      Runner.turn RegExp_i initialPrompt options turnCount context = ([], inl error))
  /\ (first_trigger_error RegExp_i (skills context) = None ->
      ((forall s, s ∈ skills context -> direct s = false) ->
       Runner.turn RegExp_i initialPrompt options turnCount context
       = Runner.chat_turn options turnCount context)
      /\ (forall s, s ∈ skills context -> direct s = true ->
          exists best,
            best ∈ skills context /\ direct best = true
            /\ (trigger_fires RegExp_i input s = true ->
                trigger_fires RegExp_i input best = true)
            /\ Runner.turn RegExp_i initialPrompt options turnCount context
               = Runner.skill_turn initialPrompt options turnCount context best)).
Proof.
  intros input direct.
  split; [apply (turn_error RegExp_i initialPrompt options turnCount context)|].
  intros Hvalid. unfold Runner.turn. fold input.
  pose proof (matchSkills_sorted_view RegExp_i input (skills context)) as Hview.
  rewrite Hvalid in Hview. destruct Hview as (results & Heq & _).
  rewrite Heq. clear Hvalid.
  generalize dependent (JS.sort (fun a b => Matcher.score b - Matcher.score a) results).
  intros [|m rest] Heq.
  - split; [reflexivity|]. intros s Hs Hdirect.
    apply orb_true_iff in Hdirect.
    pose proof (first_rule_score_direct RegExp_i input s Hdirect) as Hge.
    assert (Hpos : 0 < first_rule_score RegExp_i input s) by lia.
    destruct (proj2 (ranked_iff RegExp_i input (skills context) [] s _ Heq)
                (conj Hs (conj eq_refl Hpos))) as (r & Hr & _).
    apply elem_of_nil in Hr. destruct Hr.
  - destruct (proj1 (ranked_iff RegExp_i input (skills context) (m :: rest)
                       (Matcher.skill m) (Matcher.score m) Heq))
      as (Hm & Hsc & Hpos); [exists m; split; [left|auto]|].
    split.
    + intros Hnone. specialize (Hnone _ Hm). apply orb_false_elim in Hnone as [Ht Hn].
      pose proof (first_rule_score_keywords RegExp_i input _ Ht Hn) as Hle.
      rewrite <- Hsc in Hle.
      replace (80 <=? Matcher.score m) with false by (symmetry; apply Z.leb_gt; lia).
      reflexivity.
    + intros s Hs Hdirect. apply orb_true_iff in Hdirect.
      pose proof (first_rule_score_direct RegExp_i input s Hdirect) as Hge.
      assert (Hpos' : 0 < first_rule_score RegExp_i input s) by lia.
      destruct (proj2 (ranked_iff RegExp_i input (skills context) (m :: rest) s _ Heq)
                  (conj Hs (conj eq_refl Hpos'))) as (r & Hr & Hrs & Hrsc).
      pose proof (ranked_head_max RegExp_i input _ m r rest Heq Hr) as Hmax.
      exists (Matcher.skill m). split; [exact Hm|].
      assert (Hdm : direct (Matcher.skill m) = true).
      { unfold direct.
        destruct (trigger_fires RegExp_i input (Matcher.skill m)) eqn:Ht; [reflexivity|].
        destruct (name_found input (Matcher.skill m)) eqn:Hn; [reflexivity|].
        pose proof (first_rule_score_keywords RegExp_i input _ Ht Hn). lia. }
      split; [exact Hdm|]. split.
      * intros Htrig. unfold first_rule_score in Hrsc, Hsc. rewrite Htrig in Hrsc.
        destruct (trigger_fires RegExp_i input (Matcher.skill m)); [reflexivity|].
        destruct (name_found input (Matcher.skill m)); lia.
      * replace (80 <=? Matcher.score m) with true by (symmetry; apply Z.leb_le; lia).
        reflexivity.
Qed.

(** ** The message log of a run *)

Section RunnerLog.

Import Runner.

Variable RegExp_i : string -> string + (string -> bool).
Variable clock : nat -> Z.
Variable initialPrompt : string.
Variable options : AgentRunnerOptions.

Lemma turn_adds (k : nat) (context context' : AgentContext) (written : list Output) :
  turn RegExp_i initialPrompt options k context = (written, inr context') ->
  exists reply, context' = Context.addMessage context (mkMessage assistant reply).
Proof.
  unfold turn, skill_turn, chat_turn.
  destruct (Matcher.matchSkills _ _ _) as [error|[|m ms]].
  - intros [=].
  - destruct (failure _); intros [= _ <-]. eexists. reflexivity.
  - destruct (80 <=? Matcher.score m)%Z.
    + destruct (SkillRunner.runSkill _ _ _ _ _) as [w [e|o]]; intros [= _ <-].
      eexists. reflexivity.
    + destruct (failure _); intros [= _ <-]. eexists. reflexivity.
Qed.

(** A run that returns a context has added one assistant message per
    turn and touched nothing else but the progress. *)
Lemma loop_log (fuel : nat) :
  forall turnCount context stopWindow out run context',
    loop RegExp_i clock initialPrompt options fuel turnCount context stopWindow out
      = Some run ->
    outcome run = inr context' ->
    exists replies,
      messages context' = messages context ++ (mkMessage assistant <$> replies)
      /\ length replies = (turns run - turnCount)%nat
      /\ lastMessage context' = from_option Some (lastMessage context) (last replies)
      /\ skills context' = skills context
      /\ config context' = config context.
Proof.
  induction fuel as [|fuel IH]; intros turnCount context stopWindow out run context';
    cbn [loop].
  - destruct (turnCount <? turn_limit options)%nat; [discriminate|].
    intros [= <-] [= <-]. exists []. cbn. rewrite app_nil_r, Nat.sub_diag. auto.
  - destruct (turnCount <? turn_limit options)%nat eqn:Hlt.
    2: { intros [= <-] [= <-]. exists []. cbn. rewrite app_nil_r, Nat.sub_diag. auto. }
    destruct (turn _ _ _ _ _) as [written [e|context1]] eqn:Hturn;
      [intros [= <-]; discriminate|].
    destruct (turn_adds _ _ _ _ Hturn) as [reply ->].
    assert (Hone : forall c : AgentContext,
              c = Context.updateProgress
                    (Context.addMessage context (mkMessage assistant reply))
                    (progress_of options (S turnCount)) ->
              exists replies,
                messages c = messages context ++ (mkMessage assistant <$> replies)
                /\ length replies = (S turnCount - turnCount)%nat
                /\ lastMessage c = from_option Some (lastMessage context) (last replies)
                /\ skills c = skills context
                /\ config c = config context).
    { intros c ->. exists [reply]. cbn. replace (S turnCount - turnCount)%nat with 1%nat by lia.
      auto. }
    destruct (shouldContinue options) as [policy|];
      [|intros [= <-] [= <-]; apply Hone; reflexivity].
    destruct (policy _ _) as [e|decision]; [intros [= <-]; discriminate|].
    destruct (continue decision); cbn [negb].
    + intros H Hout. pose proof (loop_turns _ _ _ _ _ _ _ _ _ _ H) as Hle.
      destruct (IH _ _ _ _ _ _ H Hout) as (replies & Hm & Hlen & Hlast & Hs & Hc).
      exists (reply :: replies).
      cbn [messages Context.updateProgress Context.addMessage lastMessage skills config] in *.
      split; [rewrite Hm, <- app_assoc; reflexivity|].
      split; [cbn [length]; lia|].
      split; [|auto].
      rewrite Hlast, last_cons. destruct (last replies); reflexivity.
    + destruct (3 <=? _)%nat; intros [= <-] [= <-]; apply Hone; reflexivity.
Qed.

End RunnerLog.

(** X15.  [runAgent] only appends to the message log.  A run that returns
    a context returns the log of the context it was given, followed by
    the system prompt (when one is given and not empty) and the user's
    prompt, followed by one assistant message per turn; [lastMessage] is
    the content of the last of these messages, and the skills and the
    configuration are those of the context given. *)
Theorem runAgent_appends_only
    (RegExp_i : string -> string + (string -> bool)) (clock : nat -> Z)
    (initialPrompt : string) (options : Runner.AgentRunnerOptions)
    (context context' : AgentContext) (run : Runner.Run) :
  Runner.runAgent RegExp_i clock initialPrompt options context = Some run ->
  Runner.outcome run = inr context' ->
  exists replies,
    messages context'
    = messages context ++ prompt_messages initialPrompt options
        ++ (mkMessage assistant <$> replies)
    /\ length replies = Runner.turns run
    /\ lastMessage context' = Some (default initialPrompt (last replies))
    /\ skills context' = skills context
    /\ config context' = config context.
Proof.
  unfold Runner.runAgent, Runner.runAgent_fuel. intros Hrun Hout.
  destruct (loop_log _ _ _ _ _ _ _ _ _ _ _ Hrun Hout) as (replies & Hm & Hlen & Hlast & Hs & Hc).
  exists replies. rewrite Hm, Hlast, Hs, Hc, Hlen.
  unfold Runner.initial_context, prompt_messages.
  destruct (Compaction.given (Runner.systemPrompt options)) as [p|];
    cbn [messages Context.addMessage lastMessage skills config];
    rewrite <- ?app_assoc; (split; [reflexivity|]); (split; [lia|]);
    (split; [destruct (last replies); reflexivity|]); auto.
Qed.

Lemma runAgent_appends_only_witness :
  exists run context' replies,
    Runner.runAgent never_matches fixed_clock "hello" stop_at_once sample_context = Some run
    /\ Runner.outcome run = inr context'
    /\ messages context'
       = messages sample_context ++ prompt_messages "hello" stop_at_once
           ++ (mkMessage assistant <$> replies)
    /\ length replies = Runner.turns run.
Proof.
  assert (Hrun : { run : Runner.Run & { context' : AgentContext |
            Runner.runAgent never_matches fixed_clock "hello" stop_at_once sample_context
              = Some run
            /\ Runner.outcome run = inr context' } }).
  { eexists. eexists. split; [vm_compute; reflexivity|reflexivity]. }
  destruct Hrun as (run & context' & Hrun & Hout).
  destruct (runAgent_appends_only _ _ _ _ _ _ _ Hrun Hout) as (replies & Hm & Hlen & _).
  exists run, context', replies. auto.
Defined.

(** ** Errors during a run *)

(** A turn whose triggers compile and whose provider does not fail
    returns a context. *)
Lemma turn_returns RegExp_i initialPrompt options k context :
  first_trigger_error RegExp_i (skills context) = None ->
  (forall messages opts, failure (Runner.provider options k messages opts) = None) ->
  exists written context',
    Runner.turn RegExp_i initialPrompt options k context = (written, inr context').
Proof.
  intros Hvalid Hok. unfold Runner.turn.
  pose proof (matchSkills_sorted_view RegExp_i
                (Compaction.or_string (lastMessage context) initialPrompt) (skills context))
    as Hview.
  rewrite Hvalid in Hview. destruct Hview as (results & -> & _).
  unfold Runner.skill_turn, Runner.chat_turn, SkillRunner.runSkill.
  destruct (JS.sort _ results) as [|m ms].
  - rewrite Hok. eauto.
  - destruct (80 <=? Matcher.score m); rewrite Hok; eauto.
Qed.

(** X16.  [runAgent] does not catch.  When a skill of the context has a
    trigger that is no regular expression, the run throws that error in
    its first turn, before the provider is called.  Otherwise, when the
    provider fails during the first turn, the run throws the provider's
    error after that one turn, whatever the continuation policy; and
    when the policy itself throws after a turn that went well, the run
    throws the policy's error. *)
Theorem runAgent_propagates_errors
    (RegExp_i : string -> string + (string -> bool)) (clock : nat -> Z)
    (initialPrompt : string) (options : Runner.AgentRunnerOptions)
    (context : AgentContext) (e : string) :
  (1 <= Runner.turn_limit options)%nat ->
  (first_trigger_error RegExp_i (skills context) = Some e ->
   exists run,
     Runner.runAgent RegExp_i clock initialPrompt options context = Some run
     /\ Runner.outcome run = inl e /\ Runner.turns run = 1%nat
     /\ Runner.output run = [])
  /\ (first_trigger_error RegExp_i (skills context) = None ->
      (forall messages opts, failure (Runner.provider options 1%nat messages opts) = Some e) ->
      exists run,
        Runner.runAgent RegExp_i clock initialPrompt options context = Some run
        /\ Runner.outcome run = inl e /\ Runner.turns run = 1%nat)
  /\ (first_trigger_error RegExp_i (skills context) = None ->
      forall policy,
        Runner.shouldContinue options = Some policy ->
        (forall messages opts, failure (Runner.provider options 1%nat messages opts) = None) ->
        (forall c, policy 1%nat c = inl e) ->
        exists run,
          Runner.runAgent RegExp_i clock initialPrompt options context = Some run
          /\ Runner.outcome run = inl e /\ Runner.turns run = 1%nat).
Proof.
  intros Hlimit. unfold Runner.runAgent, Runner.runAgent_fuel.
  destruct (Runner.turn_limit options) as [|n] eqn:Hn; [lia|].
  cbn [Runner.loop]. rewrite Hn. change (0 <? S n)%nat with true. cbv iota.
  set (context0 := Runner.initial_context initialPrompt options context).
  assert (Hskills : skills context0 = skills context).
  { unfold context0, Runner.initial_context.
    destruct (Compaction.given (Runner.systemPrompt options)); reflexivity. }
  destruct (turn_error RegExp_i initialPrompt options 1 context0) as [Hsyntax Hprovider].
  rewrite Hskills in Hsyntax, Hprovider.
  split; [|split].
  - intros Herror. rewrite (Hsyntax e Herror).
    eexists. split; [reflexivity|]. repeat split.
  - intros Hvalid Hfail. specialize (Hprovider Hvalid e Hfail).
    destruct (Runner.turn _ _ _ _ _) as [written result]. cbn [snd] in Hprovider. subst result.
    eexists. split; [reflexivity|]. split; reflexivity.
  - intros Hvalid policy Hpol Hok Hthrow. rewrite Hpol.
    destruct (turn_returns RegExp_i initialPrompt options 1 context0) as (w & c' & ->);
      [rewrite Hskills; exact Hvalid|exact Hok|].
    rewrite Hthrow. eexists. split; [reflexivity|]. split; reflexivity.
Qed.

(** Two skills whose triggers compile, and a provider that breaks off. *)
Lemma runAgent_propagates_errors_witness :
  exists run,
    Runner.runAgent literal_engine fixed_clock "hello"
      (Runner.mkRunnerOptions (fun _ _ _ => mkStream ["par"%string] (Some "HTTP 500"%string))
         "llama3" None None None None)
      (Context.createAgentContext (mkConfig ∅ None) [ review_skill; testing_skill ])
    = Some run
    /\ Runner.outcome run = inl "HTTP 500"%string /\ Runner.turns run = 1%nat.
Proof.
  destruct (runAgent_propagates_errors literal_engine fixed_clock "hello"
              (Runner.mkRunnerOptions
                 (fun _ _ _ => mkStream ["par"%string] (Some "HTTP 500"%string))
                 "llama3" None None None None)
              (Context.createAgentContext (mkConfig ∅ None) [ review_skill; testing_skill ])
              "HTTP 500") as (_ & Hprovider & _).
  - vm_compute. lia.
  - apply Hprovider; reflexivity.
Defined.

(** ** What compaction keeps *)

Section SliceFacts.

Context {A : Type}.

Lemma slice_last (a : list A) (k : Z) :
  0 < k -> JS.slice a (- k) None = drop (length a - Z.to_nat k) a.
Proof.
  intros Hk. unfold JS.slice, JS.rel_index.
  replace (- k <? 0) with true by (symmetry; apply Z.ltb_lt; lia).
  replace (Z.to_nat (Z.max (Z.of_nat (length a) + - k) 0)) with (length a - Z.to_nat k)%nat by lia.
  apply take_ge. rewrite length_drop. lia.
Qed.

Lemma slice_front (a : list A) (k : Z) :
  0 < k -> JS.slice a 0 (Some (- k)) = take (length a - Z.to_nat k) a.
Proof.
  intros Hk. unfold JS.slice, JS.rel_index.
  replace (- k <? 0) with true by (symmetry; apply Z.ltb_lt; lia).
  replace (0 <? 0) with false by reflexivity.
  rewrite Z.min_l by lia. change (Z.to_nat 0) with 0%nat. rewrite drop_0. f_equal. lia.
Qed.

Lemma slice_last_0 (a : list A) : JS.slice a (- 0) None = a.
Proof.
  change (- 0) with 0. unfold JS.slice, JS.rel_index.
  replace (0 <? 0) with false by reflexivity.
  rewrite Z.min_l by lia. change (Z.to_nat 0) with 0%nat. rewrite drop_0.
  apply take_ge. lia.
Qed.

Lemma slice_front_0 (a : list A) : JS.slice a 0 (Some (- 0)) = [].
Proof.
  change (- 0) with 0. unfold JS.slice, JS.rel_index.
  replace (0 <? 0) with false by reflexivity.
  rewrite Z.min_l by lia. reflexivity.
Qed.

End SliceFacts.

(** X17.  What [simpleCompact] keeps when it compacts, with [keepRecent]
    (4 by default) at least 0.  For a positive [keepRecent] the result
    is the first system message, a summary message if more than
    [keepRecent] non-system messages exist, and the last [keepRecent]
    non-system messages: at most [keepRecent + 2] messages.  With
    [keepRecent: 0] nothing is summarised and every non-system message
    is kept. *)
Theorem simpleCompact_keeps_recent (ms : list Message) (options : Compaction.CompactionOptions) :
  let k := default Compaction.default_keepRecent (Compaction.keepRecent options) in
  let nonSystem := filter (fun m => non_system m) ms in
  let compacted := Compaction.messages (Compaction.simpleCompact ms options) in
  over_target ms options ->
  (0 < k ->
   exists synthetic,
     compacted = option_list (find is_system ms) ++ synthetic
                   ++ drop (length nonSystem - Z.to_nat k) nonSystem
     /\ (synthetic = [] <-> (length nonSystem <= Z.to_nat k)%nat)
     /\ (length synthetic <= 1)%nat
     /\ Z.of_nat (length compacted) <= k + 2)
  /\ (k = 0 ->
      compacted = option_list (find is_system ms) ++ nonSystem
      /\ Compaction.summary (Compaction.simpleCompact ms options) = Some EmptyString).
Proof.
  intros k nonSystem compacted Hover.
  destruct (simpleCompact_compacts ms options Hover) as [Hm Hs].
  unfold compacted. rewrite Hm, Hs. unfold compacted_of. fold k nonSystem. cbn [fst snd].
  split.
  - intros Hk. rewrite (slice_last nonSystem k Hk), (slice_front nonSystem k Hk).
    set (old := take (length nonSystem - Z.to_nat k) nonSystem).
    assert (Hold : length old = (length nonSystem - Z.to_nat k)%nat)
      by (unfold old; rewrite length_take; lia).
    eexists. split; [reflexivity|].
    destruct (0 <? Z.of_nat (length old)) eqn:Hpos.
    + apply Z.ltb_lt in Hpos. rewrite createLocalSummary_nonempty.
      split; [split; [discriminate|lia]|]. split; [cbn; lia|].
      rewrite !length_app, length_drop. cbn [length].
      destruct (find is_system ms); (change (length (option_list (Some _))) with 1%nat || change (length (option_list None)) with 0%nat); lia.
    + apply Z.ltb_ge in Hpos. cbn [JS.is_empty].
      split; [split; [lia|reflexivity]|]. split; [cbn; lia|].
      rewrite !length_app, length_drop. cbn [length].
      destruct (find is_system ms); (change (length (option_list (Some _))) with 1%nat || change (length (option_list None)) with 0%nat); lia.
  - intros Hk. rewrite Hk, slice_last_0, slice_front_0. split; reflexivity.
Qed.

Lemma simpleCompact_keeps_recent_witness :
  exists synthetic,
    Compaction.messages (Compaction.simpleCompact (messages (long_talk "x")) tight)
    = option_list (find is_system (messages (long_talk "x"))) ++ synthetic
        ++ drop 2 (filter (fun m => non_system m) (messages (long_talk "x")))
    /\ length synthetic = 1%nat.
Proof.
  destruct (simpleCompact_keeps_recent (messages (long_talk "x")) tight) as [Hpos _].
  - unfold over_target. vm_compute. reflexivity.
  - destruct Hpos as (synthetic & Hm & Hnil & Hlen & _); [reflexivity|].
    exists synthetic. split; [exact Hm|].
    destruct synthetic as [|s synthetic]; [|cbn [length] in *; lia].
    exfalso. pose proof (proj1 Hnil eq_refl) as H. revert H. vm_compute. lia.
Defined.

(** X18.  [llmCompact] with a provider, a model and more than
    [keepRecent] non-system messages ([keepRecent] positive) asks the
    provider to summarise exactly the older messages and never throws:
    when the stream fails, the chunks received are dropped and the local
    summary of the older messages is used.  The result is the first
    system message, one summary message, also for an empty summary, and
    the last [keepRecent] non-system messages; the token counts are the
    estimates of the input and of that result. *)
Theorem llmCompact_summarises
    (ms : list Message) (options : Compaction.CompactionOptions)
    (chat : Provider) (model : string) :
  let k := default Compaction.default_keepRecent (Compaction.keepRecent options) in
  let nonSystem := filter (fun m => non_system m) ms in
  let old := take (length nonSystem - Z.to_nat k) nonSystem in
  let recent := drop (length nonSystem - Z.to_nat k) nonSystem in
  let prompt :=
    Compaction.summarization_prompt
      (JS.join (JS.nl +:+ JS.nl) (Compaction.transcript_line <$> old))
      (Compaction.focus options) in
  let stream := chat [ mkMessage user prompt ]
                     (mkChatOptions (Some model) (Some (3 # 10)%Q) (Some 500)) in
  let summary :=
    match failure stream with
    | None => JS.join EmptyString (chunks stream)
    | Some _ => Compaction.createLocalSummary old (Compaction.focus options)
    end in
  let result := Compaction.llmCompact ms options in
  Compaction.provider options = Some chat ->
  Compaction.given (Compaction.model options) = Some model ->
  0 < k -> (Z.to_nat k < length nonSystem)%nat ->
  Compaction.messages result
  = option_list (find is_system ms)
      ++ [ mkMessage system ("[Conversation Summary]:" +:+ JS.nl +:+ summary) ]
      ++ recent
  /\ Compaction.summary result = Some summary
  /\ Compaction.originalTokens result = Tokens.estimateConversationTokens ms model
  /\ Compaction.compactedTokens result
     = Tokens.estimateConversationTokens (Compaction.messages result) model
  /\ Compaction.savedTokens result
     = Compaction.originalTokens result - Compaction.compactedTokens result.
Proof.
  intros k nonSystem old recent prompt stream summary result Hp Hm Hk Hn.
  unfold result, Compaction.llmCompact. rewrite Hp, Hm. fold k nonSystem.
  rewrite (slice_last nonSystem k Hk), (slice_front nonSystem k Hk).
  fold old recent.
  assert (Hold : length old = (length nonSystem - Z.to_nat k)%nat)
    by (unfold old; rewrite length_take; lia).
  replace (Z.of_nat (length old) =? 0) with false by (symmetry; apply Z.eqb_neq; lia).
  fold prompt. fold stream. fold summary.
  cbn [Compaction.messages Compaction.summary Compaction.originalTokens
       Compaction.compactedTokens Compaction.savedTokens].
  destruct (find is_system ms); repeat split; reflexivity.
Qed.

Lemma llmCompact_summarises_witness :
  Compaction.summary
    (Compaction.llmCompact five_questions
       (Compaction.mkOptions None None None
          (Some (fun _ _ => mkStream ["partial"%string] (Some "connection reset"%string)))
          (Some "gpt-4"%string)))
  = Some "Previous conversation context."%string.
Proof.
  destruct (llmCompact_summarises five_questions
              (Compaction.mkOptions None None None
                 (Some (fun _ _ => mkStream ["partial"%string] (Some "connection reset"%string)))
                 (Some "gpt-4"%string))
              (fun _ _ => mkStream ["partial"%string] (Some "connection reset"%string))
              "gpt-4") as (_ & Hs & _).
  - reflexivity.
  - reflexivity.
  - reflexivity.
  - vm_compute. lia.
  - rewrite Hs. reflexivity.
Defined.

(** ** The size of the local summary *)

Section SummaryFacts.

Import Compaction.

Lemma slice0_len (n : nat) (s : string) : JS.len (JS.slice0 n s) <= Z.of_nat n.
Proof. unfold JS.len. pose proof (slice0_length n s). lia. Qed.

Lemma len_append (a b : string) : JS.len (a +:+ b)%string = JS.len a + JS.len b.
Proof. unfold JS.len. rewrite length_append. lia. Qed.

Lemma len_nonneg (s : string) : 0 <= JS.len s.
Proof. unfold JS.len. lia. Qed.

(** The length of a joined list. *)
Lemma join_len_bound (sep : string) (bound : Z) (parts : list string) :
  Forall (fun s => JS.len s <= bound) parts ->
  JS.len (JS.join sep parts)
  <= Z.of_nat (length parts) * bound + (Z.of_nat (length parts) - 1) * JS.len sep
     \/ parts = [].
Proof.
  unfold JS.join. induction 1 as [|x l Hx Hl IH]; [right; reflexivity|left].
  destruct l as [|y l].
  - cbn [String.concat length]. lia.
  - rewrite concat_cons by discriminate. rewrite !len_append.
    destruct IH as [IH|IH]; [|discriminate].
    cbn [length] in *. lia.
Qed.

Lemma note_bounds (acc : list string * list string) (msg : Message) :
  Forall (fun s => JS.len s <= 100) acc.1 -> Forall (fun s => JS.len s <= 80) acc.2 ->
  Forall (fun s => JS.len s <= 100) (note acc msg).1
  /\ Forall (fun s => JS.len s <= 80) (note acc msg).2.
Proof.
  destruct acc as [u a]. cbn [fst snd]. intros Hu Ha. unfold note.
  destruct (role msg).
  - split; assumption.
  - destruct (10 <? _); cbn [fst snd]; [|split; assumption].
    split; [|assumption]. apply Forall_app. split; [assumption|].
    constructor; [|constructor]. apply (slice0_len 100).
  - cbn [fst snd]. split; [assumption|]. apply Forall_app. split; [assumption|].
    apply Forall_fmap, Forall_forall. intros line _. apply (slice0_len 80).
Qed.

Lemma fold_note_bounds (ms : list Message) :
  forall acc,
    Forall (fun s => JS.len s <= 100) acc.1 -> Forall (fun s => JS.len s <= 80) acc.2 ->
    Forall (fun s => JS.len s <= 100) (fold_left note ms acc).1
    /\ Forall (fun s => JS.len s <= 80) (fold_left note ms acc).2.
Proof.
  induction ms as [|m ms IH]; intros acc Hu Ha; [split; assumption|].
  cbn [fold_left]. destruct (note_bounds acc m Hu Ha). apply IH; assumption.
Qed.

Lemma fold_set_add_Forall (P : string -> Prop) (a : list string) :
  forall seen, Forall P a -> Forall P seen -> Forall P (fold_left JS.set_add a seen).
Proof.
  induction a as [|x a IH]; intros seen Ha Hs; [exact Hs|].
  cbn [fold_left]. apply Forall_cons in Ha as [Hx Ha]. apply IH; [exact Ha|].
  unfold JS.set_add. destruct (bool_decide _); [exact Hs|].
  apply Forall_app. split; [exact Hs|]. constructor; [exact Hx|constructor].
Qed.

Lemma dedup_Forall (P : string -> Prop) (a : list string) :
  Forall P a -> Forall P (JS.dedup a).
Proof. intros Ha. apply fold_set_add_Forall; [exact Ha|constructor]. Qed.

Lemma slice_first_Forall {A} (P : A -> Prop) (a : list A) (n : Z) :
  0 <= n -> Forall P a ->
  Forall P (JS.slice a 0 (Some n)) /\ Z.of_nat (length (JS.slice a 0 (Some n))) <= n.
Proof.
  intros Hn Ha. unfold JS.slice, JS.rel_index.
  replace (0 <? 0) with false by reflexivity.
  replace (n <? 0) with false by (symmetry; apply Z.ltb_ge; lia).
  replace (Z.min 0 (Z.of_nat (length a))) with 0 by lia.
  change (Z.to_nat 0) with 0%nat. rewrite drop_0, Z.sub_0_r.
  split; [apply Forall_take, Ha|]. rewrite length_take. lia.
Qed.

(** A part of the summary: a heading and at most five items. *)
Lemma part_bound (heading : string) (bound : Z) (items : list string) :
  0 <= bound ->
  Forall (fun s => JS.len s <= bound) items ->
  Z.of_nat (length items) <= 5 ->
  JS.len (heading +:+ JS.join "; " items)%string <= JS.len heading + 5 * bound + 8.
Proof.
  intros Hb Hall Hlen. rewrite len_append.
  destruct (join_len_bound "; " bound items Hall) as [H| ->].
  - change (JS.len "; ") with 2 in H. nia.
  - change (JS.len (JS.join "; " [])) with 0. lia.
Qed.

End SummaryFacts.

(** X19.  The local summary is short whatever the conversation: it is
    never empty and has at most 963 characters plus the length of the
    focus (five topics of at most 100 characters, five points of at most
    80, the headings and the separators). *)
Theorem createLocalSummary_bounded (ms : list Message) (focus : option string) :
  1 <= JS.len (Compaction.createLocalSummary ms focus)
    <= 963 + JS.len (default EmptyString focus).
Proof.
  split.
  - pose proof (createLocalSummary_nonempty ms focus) as Hne.
    destruct (Compaction.createLocalSummary ms focus); [discriminate|].
    unfold JS.len. cbn [String.length]. lia.
  - unfold Compaction.createLocalSummary.
    destruct (fold_note_bounds ms ([], [])) as [Hu Ha]; [constructor|constructor|].
    destruct (fold_left Compaction.note ms ([], [])) as [u a]. cbn [fst snd] in Hu, Ha.
    destruct (slice_first_Forall _ (JS.dedup u) 5 ltac:(lia) (dedup_Forall _ u Hu)) as [Hu5 Hulen].
    destruct (slice_first_Forall _ (JS.dedup a) 5 ltac:(lia) (dedup_Forall _ a Ha)) as [Ha5 Halen].
    set (topics := JS.slice (JS.dedup u) 0 (Some 5)) in *.
    set (points := JS.slice (JS.dedup a) 0 (Some 5)) in *.
    pose proof (part_bound "Topics discussed: " 100 topics ltac:(lia) Hu5 Hulen) as Ht.
    pose proof (part_bound "Key points: " 80 points ltac:(lia) Ha5 Halen) as Hp.
    change (JS.len "Topics discussed: ") with 18 in Ht.
    change (JS.len "Key points: ") with 12 in Hp.
    set (part1 := ("Topics discussed: " +:+ JS.join "; " topics)%string) in *.
    set (part2 := ("Key points: " +:+ JS.join "; " points)%string) in *.
    assert (Hf : forall f, Compaction.given focus = Some f ->
                   JS.len "Current focus: " + JS.len f
                   = 15 + JS.len (default EmptyString focus)).
    { intros f Hgiven. change (JS.len "Current focus: ") with 15.
      unfold Compaction.given in Hgiven. destruct focus as [s|]; [|discriminate].
      destruct (JS.is_empty s); [discriminate|]. injection Hgiven as <-. reflexivity. }
    pose proof (len_nonneg (default EmptyString focus)) as Hfocus.
    clearbody part1 part2.
    destruct (Compaction.given focus) as [f|]; [specialize (Hf f eq_refl)|clear Hf];
      destruct (0 <? Z.of_nat (length topics)); destruct (0 <? Z.of_nat (length points));
      cbn [app JS.join String.concat];
      repeat match goal with
             | |- context [if JS.is_empty ?s then _ else _] => destruct (JS.is_empty s)
             end;
      rewrite ?len_append; change (JS.len JS.nl) with 1;
      change (JS.len "Previous conversation context.") with 30;
      change (JS.len EmptyString) with 0; lia.
Qed.

(** ** The history window under no pressure *)

Section HistoryFacts.

Local Open Scope Q_scope.

Lemma quarter_le (a b : Z) : (a <= b)%Z -> quarter a <= quarter b.
Proof.
  intros H. unfold quarter, Context.estimatedTokensPerChar.
  apply Qmult_le_compat_r; [|discriminate].
  rewrite <- Zle_Qle. exact H.
Qed.

Lemma exceeds_mono (q q' : Q) (maxTokens : JS.Number) :
  q <= q' -> exceeds q' maxTokens = false -> exceeds q maxTokens = false.
Proof.
  unfold exceeds. destruct maxTokens as [b| | |]; cbn; try (intros; reflexivity || assumption).
  rewrite !negb_false_iff, !Qle_bool_iff. intros H1 H2. eapply Qle_trans; eassumption.
Qed.

Lemma chars_nonneg (ms : list Message) : (0 <= chars ms)%Z.
Proof. induction ms as [|m ms IH]; cbn; [lia|]. unfold JS.len. lia. Qed.

Lemma chars_filter_le (ms : list Message) :
  (system_chars ms + chars (filter (fun m => non_system m) ms) <= chars ms)%Z.
Proof.
  unfold system_chars. induction ms as [|m ms IH]; [cbn; lia|].
  cbn [find chars].
  pose proof (chars_nonneg (filter (fun m => non_system m) ms)) as Hnn.
  assert (0 <= JS.len (content m))%Z by (unfold JS.len; lia).
  destruct (is_system m) eqn:Hsys.
  - rewrite filter_cons_False by (unfold non_system; rewrite Hsys; intros []).
    assert (chars (filter (fun m => non_system m) ms) <= chars ms)%Z; [|lia].
    destruct (find is_system ms); [|lia].
    assert (0 <= JS.len (content m0))%Z by (unfold JS.len; lia). lia.
  - rewrite filter_cons_True by (unfold non_system; rewrite Hsys; exact I).
    cbn [chars]. lia.
Qed.

End HistoryFacts.

(** X20.  When the whole log fits the budget and no message after the
    first is a system message, [getConversationHistory] returns the log
    as it is: nothing is dropped and nothing is moved. *)
Theorem getConversationHistory_whole_log (ctx : AgentContext) (maxTokens : JS.Number) :
  Forall (fun m => is_system m = false) (tail (messages ctx)) ->
  exceeds (quarter (chars (messages ctx))) maxTokens = false ->
  Context.getConversationHistory ctx maxTokens = messages ctx.
Proof.
  intros Htail Hfits.
  destruct (getConversationHistory_spec ctx maxTokens)
    as (dropped & included & Hsplit & -> & _ & Hout).
  assert (Hdropped : dropped = []).
  { destruct dropped as [|d0 dropped0] using rev_ind; [reflexivity|]. rename dropped0 into older, d0 into msg. clear IHdropped0.
    specialize (Hout older msg eq_refl).
    assert (Hle : (system_chars (messages ctx) + chars included + JS.len (content msg)
                   <= chars (messages ctx))%Z).
    { pose proof (chars_filter_le (messages ctx)) as H. rewrite Hsplit in H.
      rewrite !chars_app in H. cbn [chars] in H. pose proof (chars_nonneg older). lia. }
    rewrite (exceeds_mono _ _ maxTokens (quarter_le _ _ Hle) Hfits) in Hout. discriminate. }
  subst dropped. cbn [app] in Hsplit. rewrite <- Hsplit.
  destruct (messages ctx) as [|m rest]; [reflexivity|]. cbn [tail] in Htail.
  assert (Hrest : filter (fun m => non_system m) rest = rest /\ find is_system rest = None).
  { clear Hsplit Hout Hfits. induction Htail as [|x l Hx _ [IH1 IH2]]; [split; reflexivity|].
    rewrite filter_cons_True by (unfold non_system; rewrite Hx; exact I).
    cbn [find]. rewrite IH1, Hx. auto. }
  destruct Hrest as [Hf Hnone].
  cbn [find]. destruct (is_system m) eqn:Hsys.
  - rewrite filter_cons_False by (unfold non_system; rewrite Hsys; intros []).
    rewrite Hf. reflexivity.
  - rewrite filter_cons_True by (unfold non_system; rewrite Hsys; exact I).
    rewrite Hnone, Hf. reflexivity.
Qed.

(** A system prompt and three messages, 49 characters in all, against a
    budget of 13 tokens: the four messages come back in their order. *)
Lemma getConversationHistory_whole_log_witness :
  Context.getConversationHistory short_talk (JS.Num 13)
  = [ mkMessage system "be brief";
      mkMessage user "first question";
      mkMessage assistant "first answer";
      mkMessage user "second question" ].
Proof.
  apply (getConversationHistory_whole_log short_talk (JS.Num 13)).
  - repeat constructor.
  - reflexivity.
Defined.

(** ** The life of a pool *)

Section PoolLife.

Import Pool.

Implicit Types (p : SubagentPool) (k taskId : string) (t task : SubagentTask).

Lemma refill_keys p : map_keys (tasks (refill p)) = map_keys (tasks p).
Proof. unfold refill. destruct (full p); [reflexivity|]. apply sweep_static. Qed.

Lemma settle_result_keys p taskId w :
  map_keys (tasks (settle_result p taskId w)) = map_keys (tasks p).
Proof.
  unfold settle_result. rewrite refill_keys.
  destruct w; cbn [finish release fail complete with_running with_tasks tasks];
    apply map_keys_update.
Qed.

Lemma spawn_result_keys p taskId prompt model :
  getTask p taskId = None ->
  map_keys (tasks (spawn_result p taskId prompt model)) = map_keys (tasks p) ++ [taskId].
Proof.
  intros Hfresh. unfold spawn_result.
  assert (Hkeys : map_keys (tasks (enqueue p taskId prompt model)) = map_keys (tasks p) ++ [taskId]).
  { unfold enqueue. cbn [tasks with_tasks]. rewrite (map_set_fresh _ _ _ Hfresh).
    unfold map_keys. rewrite fmap_app. reflexivity. }
  set (p1 := enqueue p taskId prompt model) in *.
  destruct (size (running p1) <? maxConcurrent p1)%nat; [|exact Hkeys].
  unfold runTask_result. destruct (map_get (tasks p1) taskId) as [task|]; [|exact Hkeys].
  destruct (start (config p1) task) as [e|ok].
  - rewrite refill_keys. cbn [release fail begin with_running with_tasks tasks].
    rewrite !map_keys_update. exact Hkeys.
  - cbn [begin with_running with_tasks tasks]. rewrite map_keys_update. exact Hkeys.
Qed.

Lemma spawn_result_others p taskId prompt model k tk :
  k <> taskId -> getTask p k = Some tk -> status tk <> Pending ->
  getTask (spawn_result p taskId prompt model) k = Some tk.
Proof.
  intros Hne Hget Hstatus. unfold spawn_result.
  set (p1 := enqueue p taskId prompt model).
  assert (Hget1 : getTask p1 k = Some tk).
  { unfold p1, enqueue, getTask. cbn [tasks with_tasks].
    rewrite map_get_set_ne by congruence. exact Hget. }
  destruct (size (running p1) <? maxConcurrent p1)%nat; [|exact Hget1].
  unfold runTask_result. destruct (map_get (tasks p1) taskId) as [task|]; [|exact Hget1].
  destruct (start (config p1) task) as [e|ok].
  - assert (Hafter : getTask (release (fail (begin p1 taskId) taskId e) taskId) k = Some tk).
    { rewrite getTask_release, getTask_fail_ne, getTask_begin_ne by congruence. exact Hget1. }
    rewrite refill_frame; [exact Hafter|].
    unfold settled_key. fold (getTask (release (fail (begin p1 taskId) taskId e) taskId) k).
    rewrite Hafter. unfold is_pending. apply bool_decide_eq_false_2. exact Hstatus.
  - rewrite getTask_begin_ne by congruence. exact Hget1.
Qed.

Lemma is_terminal_status t :
  is_terminal t = true -> status t <> Pending /\ status t <> Running.
Proof.
  unfold is_terminal. destruct (status t); intros H; split; try discriminate;
    exfalso; revert H; vm_compute; discriminate.
Qed.

Lemma pool_step_keeps p p' :
  pool_step p p' ->
  (forall k t, getTask p k = Some t -> is_terminal t = true -> getTask p' k = Some t)
  /\ exists added, map_keys (tasks p') = map_keys (tasks p) ++ added.
Proof.
  intros [p0 taskId prompt model p1 Hfresh Hspawn|p0 taskId t0 w p1 Hget0 Hrun Hsettle].
  - rewrite spawn_eq in Hspawn. injection Hspawn as <-. split.
    + intros k t Hget Hterm. apply spawn_result_others; [congruence|exact Hget|].
      apply is_terminal_status, Hterm.
    + exists [taskId]. apply spawn_result_keys, Hfresh.
  - rewrite settle_eq in Hsettle. injection Hsettle as <-. split.
    + intros k t Hget Hterm. destruct (is_terminal_status t Hterm) as [Hp Hr].
      apply settle_result_others; [|exact Hget|exact Hp].
      intros ->. rewrite Hget0 in Hget. injection Hget as Heq. subst. exact (Hr Hrun).
    + exists []. rewrite app_nil_r. apply settle_result_keys.
Qed.

Lemma all_settled_no_pending p :
  NoDup (map_keys (tasks p)) -> (forall k, settled_key p k) -> getPendingCount p = 0%nat.
Proof.
  intros Hnd Hall. unfold getPendingCount.
  apply length_zero_iff_nil. apply filter_none, Forall_forall.
  intros t Ht Hpend. apply list_elem_of_fmap in Ht as ([k t'] & -> & Hin). cbn [snd] in *.
  specialize (Hall k). unfold settled_key in Hall.
  rewrite (map_get_elem _ _ _ Hnd Hin) in Hall.
  unfold is_pending in Hall. apply bool_decide_eq_false in Hall.
  apply Hall. apply (bool_decide_unpack _ Hpend).
Qed.

Lemma refill_max p : maxConcurrent (refill p) = maxConcurrent p.
Proof. unfold refill. destruct (full p); [reflexivity|]. apply sweep_static. Qed.

Lemma reachable_max p : reachable p -> (1 <= maxConcurrent p)%nat.
Proof.
  induction 1 as [mc dm cfg|p taskId prompt model p' _ IH Hfresh Hspawn
                 |p taskId t w p' _ IH _ _ Hsettle].
  - unfold create. cbn [maxConcurrent]. destruct mc as [[|n]|]; unfold default_maxConcurrent; lia.
  - rewrite spawn_eq in Hspawn. injection Hspawn as <-. unfold spawn_result.
    set (p1 := enqueue p taskId prompt model).
    assert (H1 : maxConcurrent p1 = maxConcurrent p) by reflexivity.
    destruct (size (running p1) <? maxConcurrent p1)%nat; [|lia].
    unfold runTask_result. destruct (map_get (tasks p1) taskId) as [task|]; [|lia].
    destruct (start (config p1) task) as [e|ok]; [rewrite refill_max|]; cbn; lia.
  - rewrite settle_eq in Hsettle. injection Hsettle as <-. unfold settle_result.
    rewrite refill_max. destruct w; cbn; lia.
Qed.

End PoolLife.

(** X21.  A task waits only while the pool is full: in every pool reached
    by spawns and settlings, if a task is pending then exactly
    [maxConcurrent] tasks are running, and if fewer are running then no
    task is pending; in particular no task is left pending in a pool
    where nothing runs. *)
Theorem pool_pending_only_when_full (p : Pool.SubagentPool) :
  reachable p ->
  ((0 < Pool.getPendingCount p)%nat -> Pool.getRunningCount p = Pool.maxConcurrent p)
  /\ ((Pool.getRunningCount p < Pool.maxConcurrent p)%nat -> Pool.getPendingCount p = 0%nat)
  /\ (Pool.getRunningCount p = 0%nat -> Pool.getPendingCount p = 0%nat).
Proof.
  intros Hreach. destruct (reachable_Inv p Hreach) as [Hcore Hbusy].
  assert (Hfree : Pool.full p = false -> Pool.getPendingCount p = 0%nat).
  { intros Hfull. apply all_settled_no_pending; [apply Hcore|apply Hbusy, Hfull]. }
  pose proof (core_bound p Hcore) as Hbound.
  pose proof (reachable_max p Hreach) as Hmax.
  unfold Pool.getRunningCount. split; [|split].
  - intros Hpend. destruct (Pool.full p) eqn:Hfull.
    + unfold Pool.full in Hfull. apply Nat.leb_le in Hfull. lia.
    + rewrite (Hfree eq_refl) in Hpend. lia.
  - intros Hroom. apply Hfree, full_false, Hroom.
  - intros Hidle. apply Hfree, full_false. lia.
Qed.

(** X22.  What is finished stays: once a task is completed or failed, no
    later spawn and no settling of another task changes its record, its
    result and error included; and the task list only grows, at its
    end, so [getAllTasks] lists the tasks in the order of their
    spawns. *)
Theorem pool_finished_tasks_stay (p p' : Pool.SubagentPool) :
  rtc pool_step p p' ->
  (forall k t, Pool.getTask p k = Some t -> Pool.is_terminal t = true ->
     Pool.getTask p' k = Some t)
  /\ (exists added, Pool.map_keys (Pool.tasks p') = Pool.map_keys (Pool.tasks p) ++ added)
  /\ (length (Pool.getAllTasks p) <= length (Pool.getAllTasks p'))%nat.
Proof.
  intros Hsteps.
  assert (Hmain : (forall k t, Pool.getTask p k = Some t -> Pool.is_terminal t = true ->
                     Pool.getTask p' k = Some t)
                  /\ exists added,
                       Pool.map_keys (Pool.tasks p') = Pool.map_keys (Pool.tasks p) ++ added).
  { induction Hsteps as [p|p p1 p2 Hstep _ [IH1 [added2 IH2]]].
    - split; [auto|]. exists []. rewrite app_nil_r. reflexivity.
    - destruct (pool_step_keeps p p1 Hstep) as [H1 [added1 H2]]. split.
      + intros k t Hget Hterm. apply IH1; [apply H1; assumption|exact Hterm].
      + exists (added1 ++ added2). rewrite IH2, H2, <- app_assoc. reflexivity. }
  destruct Hmain as [H1 [added H2]]. split; [exact H1|]. split; [exists added; exact H2|].
  unfold Pool.getAllTasks. rewrite !length_fmap.
  apply (f_equal length) in H2. unfold Pool.map_keys in H2.
  rewrite length_app, !length_fmap in H2. lia.
Qed.

Lemma pool_pending_only_when_full_witness :
  exists p,
    spawn_all (Pool.create (Some 2%nat) None ollama_only) three_requests = Some p
    /\ Pool.getPendingCount p = 1%nat
    /\ Pool.getRunningCount p = Pool.maxConcurrent p.
Proof.
  set (p0 := Pool.create (Some 2%nat) None ollama_only).
  set (p1 := spawn_result p0 "A" "first task" None).
  set (p2 := spawn_result p1 "B" "second task" None).
  set (p3 := spawn_result p2 "C" "third task" None).
  assert (H0 : reachable p0) by apply reach_create.
  assert (H1 : reachable p1)
    by (apply (reach_spawn p0 "A" "first task" None); [exact H0|reflexivity|apply spawn_eq]).
  assert (H2 : reachable p2)
    by (apply (reach_spawn p1 "B" "second task" None);
        [exact H1|vm_compute; reflexivity|apply spawn_eq]).
  assert (H3 : reachable p3)
    by (apply (reach_spawn p2 "C" "third task" None);
        [exact H2|vm_compute; reflexivity|apply spawn_eq]).
  exists p3. split; [vm_compute; reflexivity|]. split; [vm_compute; reflexivity|].
  apply (pool_pending_only_when_full p3 H3). vm_compute. lia.
Defined.

Lemma pool_finished_tasks_stay_witness :
  exists p1 p2 t,
    Pool.settle two_running "A" (inl "connection refused"%string) = Some p1
    /\ Pool.settle p1 "B" (inr (Some "done"%string)) = Some p2
    /\ Pool.getTask p1 "A" = Some t
    /\ Pool.error t = Some "connection refused"%string
    /\ Pool.getTask p2 "A" = Some t.
Proof.
  set (p1 := settle_result two_running "A" (inl "connection refused"%string)).
  set (p2 := settle_result p1 "B" (inr (Some "done"%string))).
  assert (Hstep : rtc pool_step p1 p2).
  { apply rtc_once.
    apply (step_settle p1 "B"
             (Pool.mkTask "B" "second task" (Some "ollama/llama3"%string)
                Pool.Running None None) (inr (Some "done"%string)));
      [vm_compute; reflexivity|reflexivity|apply settle_eq]. }
  destruct (pool_finished_tasks_stay p1 p2 Hstep) as [Hstay _].
  exists p1, p2. eexists.
  split; [apply settle_eq|]. split; [apply settle_eq|].
  split; [vm_compute; reflexivity|]. split; [reflexivity|].
  apply Hstay; vm_compute; reflexivity.
Defined.

(** ** A single exchange *)

Lemma find_system_snoc (ms : list Message) (m : Message) :
  is_system m = false -> find is_system (ms ++ [m]) = find is_system ms.
Proof.
  intros Hm. induction ms as [|x ms IH]; cbn [app find].
  - rewrite Hm. reflexivity.
  - destruct (is_system x); [reflexivity|exact IH].
Qed.

Lemma exceeds_8000 (n : Z) :
  exceeds (quarter n) Context.default_maxTokens = (32000 <? n)%Z.
Proof.
  unfold Context.default_maxTokens.
  destruct (32000 <? n)%Z eqn:Hn.
  - destruct (exceeds (quarter n) (JS.Num 8000)) eqn:He; [reflexivity|].
    apply exceeds_finite in He. apply Z.ltb_lt in Hn.
    unfold quarter, Context.estimatedTokensPerChar in He.
    exfalso. revert He. unfold Qle, Qmult, inject_Z. cbn. lia.
  - apply exceeds_finite. apply Z.ltb_ge in Hn.
    unfold quarter, Context.estimatedTokensPerChar.
    unfold Qle, Qmult, inject_Z. cbn. lia.
Qed.

(** X23.  [chat] records the user's message and sends the provider the
    history window of the new log.  While the first system message and
    the message together have at most 32000 characters, the message is
    the last thing sent; beyond that the provider gets the first system
    message alone, or nothing, and not the message it is asked to
    answer.  Either way a provider error is thrown on, and a response
    is returned with the log extended by the message and the response
    and nothing else changed. *)
Theorem chat_long_message_not_sent
    (message : string) (context : AgentContext) (provider : Provider) (model : string) :
  let first_system := option_list (find is_system (messages context)) in
  let size := (system_chars (messages context) + JS.len message)%Z in
  let stream := provider (sent_by_chat message context)
                         (mkChatOptions (Some model) None None) in
  ((size <= 32000)%Z ->
   exists earlier, sent_by_chat message context = earlier ++ [ mkMessage user message ])
  /\ ((32000 < size)%Z -> sent_by_chat message context = first_system)
  /\ (forall e, failure stream = Some e ->
        (RunnerChat.chat message context provider model).2 = inl e)
  /\ (failure stream = None ->
      exists context',
        (RunnerChat.chat message context provider model).2
        = inr (JS.join EmptyString (chunks stream), context')
        /\ messages context'
           = messages context
               ++ [ mkMessage user message;
                    mkMessage assistant (JS.join EmptyString (chunks stream)) ]
        /\ lastMessage context' = Some (JS.join EmptyString (chunks stream))
        /\ skills context' = skills context
        /\ config context' = config context
        /\ taskProgress context' = taskProgress context).
Proof.
  intros first_system size stream.
  set (ctx1 := Context.addMessage context (mkMessage user message)).
  assert (Hfind : find is_system (messages ctx1) = find is_system (messages context)).
  { apply find_system_snoc. reflexivity. }
  assert (Hsys : system_chars (messages ctx1) = system_chars (messages context)).
  { unfold system_chars. rewrite Hfind. reflexivity. }
  assert (Hfilter : filter (fun m => non_system m) (messages ctx1)
                    = filter (fun m => non_system m) (messages context)
                        ++ [ mkMessage user message ]).
  { unfold ctx1. cbn [messages Context.addMessage]. rewrite filter_app.
    rewrite filter_cons_True by exact I. reflexivity. }
  destruct (getConversationHistory_spec ctx1 Context.default_maxTokens)
    as (dropped & included & Hsplit & Hhist & Hin & Hout).
  change (Context.getConversationHistory ctx1 Context.default_maxTokens)
    with (sent_by_chat message context) in Hhist.
  rewrite Hfind in Hhist. rewrite Hsys in Hin, Hout. rewrite Hfilter in Hsplit.
  split; [|split; [|split]].
  - intros Hsize. destruct included as [|i0 included0] using rev_ind.
    + exfalso. rewrite app_nil_r in Hsplit. subst dropped.
      specialize (Hout _ _ eq_refl). cbn [chars content] in Hout.
      rewrite exceeds_8000 in Hout. apply Z.ltb_lt in Hout. fold size in Hsize. lia.
    + clear IHincluded0. rewrite app_assoc in Hsplit.
      apply app_inj_tail in Hsplit as [_ <-].
      exists (option_list (find is_system (messages context)) ++ included0).
      rewrite Hhist, app_assoc. reflexivity.
  - intros Hsize. destruct included as [|i0 included0] using rev_ind.
    + rewrite Hhist, app_nil_r. reflexivity.
    + exfalso. clear IHincluded0. rewrite app_assoc in Hsplit.
      apply app_inj_tail in Hsplit as [_ <-].
      assert (Hne : included0 ++ [mkMessage user message] <> []) by (destruct included0; discriminate).
      specialize (Hin Hne). rewrite exceeds_8000 in Hin. apply Z.ltb_ge in Hin.
      rewrite chars_app in Hin. cbn [chars content] in Hin.
      pose proof (chars_nonneg included0). unfold size in Hsize. lia.
  - intros e He. unfold stream, sent_by_chat in He.
    unfold RunnerChat.chat. cbv zeta. rewrite He. reflexivity.
  - intros He. unfold stream, sent_by_chat in He |- *.
    unfold RunnerChat.chat. cbv zeta. rewrite He. eexists. split; [reflexivity|].
    cbn. rewrite <- app_assoc. repeat split; reflexivity.
Qed.
